(** * spark_sql_generator: a shallow embedding of [spark_sql_generator.py]

    The development follows the Python module top to bottom:
    - [PyStr] gives the [str] methods the generator relies on
      ([split], [startswith], [in], [count], [join], [strip]);
    - [Dict] gives insertion-ordered dictionaries, as Python's [dict];
    - [PathHandler] holds the helper class of that name;
    - the section [Generator] holds [SQLFormatter], [OrderPreservingGenerator]
      and [SQLColumnGenerator], method by method and under the source's names,
      parameterised by the two collaborators imported from [helper.py]
      ([spark_ddl_types] and [get_property_description]);
    - the theorems about the generator come last. *)

From Stdlib Require Import String Ascii List ZArith Lia Bool Arith PeanoNat.
From Stdlib Require Import ListSet Permutation Sorted.
Import ListNotations.
Open Scope list_scope.
Open Scope string_scope.

(** ** Exceptions and results *)

(** The exceptions the module can raise on typed input.  [RecursionError]
    is what a bounded call stack answers when the bound is hit. *)
Inductive exn : Type :=
| KeyError (key : string)
| TypeError
| AttributeError
| RecursionError.

Inductive result (A : Type) : Type :=
| Ok (a : A)
| Raise (e : exn).

Arguments Ok {A} a.
Arguments Raise {A} e.

Definition bind {A B : Type} (r : result A) (k : A -> result B) : result B :=
  match r with
  | Ok a => k a
  | Raise e => Raise e
  end.

Notation "x <- e ;; k" := (bind e (fun x => k))
  (at level 61, e at next level, right associativity).
Notation "' pat <- e ;; k" := (bind e (fun x => match x with pat => k end))
  (at level 61, pat pattern, e at next level, right associativity).

(** [for x in l: acc = body(acc, x)], stopping at the first exception. *)
Fixpoint for_each {A S : Type} (body : S -> A -> result S) (l : list A) (s : S)
  : result S :=
  match l with
  | [] => Ok s
  | x :: l' => s' <- body s x ;; for_each body l' s'
  end.

(** [[f(x) for x in l]] for a fallible [f]. *)
Fixpoint map_result {A B : Type} (f : A -> result B) (l : list A)
  : result (list B) :=
  match l with
  | [] => Ok []
  | x :: l' => y <- f x ;; ys <- map_result f l' ;; Ok (y :: ys)
  end.

Definition is_ok {A : Type} (r : result A) : bool :=
  match r with Ok _ => true | Raise _ => false end.

(** ** Python strings *)

Module PyStr.

(** The line feed, written [\n] in the source. *)
Definition nl : string := String (ascii_of_nat 10) EmptyString.

(** [s.startswith(p)] *)
Definition startswith (p s : string) : bool := String.prefix p s.

(** [s[n:]] *)
Fixpoint drop (n : nat) (s : string) : string :=
  match n, s with
  | O, _ => s
  | S n', String _ s' => drop n' s'
  | S _, EmptyString => EmptyString
  end.

(** [sub in s] *)
Fixpoint contains (sub s : string) : bool :=
  startswith sub s ||
  match s with
  | EmptyString => false
  | String _ s' => contains sub s'
  end.

(** The scan behind [s.split(sep)] for a non-empty [sep]: left to right,
    cutting at each occurrence of [sep] and resuming after it ([skip] counts
    the characters of a matched separator still to pass).  The head of the
    answer is the segment in progress. *)
Fixpoint split_scan (sep : string) (skip : nat) (s : string) : list string :=
  match s with
  | EmptyString => [EmptyString]
  | String c s' =>
      match skip with
      | S k => split_scan sep k s'
      | O =>
          if startswith sep s
          then EmptyString :: split_scan sep (String.length sep - 1) s'
          else match split_scan sep 0 s' with
               | seg :: rest => String c seg :: rest
               | [] => [String c EmptyString]
               end
      end
  end.

(** [s.split(sep)] *)
Definition split (sep s : string) : list string := split_scan sep 0 s.

(** [s.split(sep, 1)]: cut at the first occurrence only. *)
Fixpoint split1 (sep s : string) : list string :=
  if startswith sep s
  then [EmptyString; drop (String.length sep) s]
  else match s with
       | EmptyString => [EmptyString]
       | String c s' =>
           match split1 sep s' with
           | seg :: rest => String c seg :: rest
           | [] => [String c EmptyString]
           end
       end.

(** [s.count(sep)]: the non-overlapping occurrences, found by the same scan. *)
Fixpoint count_scan (sep : string) (skip : nat) (s : string) : nat :=
  match s with
  | EmptyString => 0
  | String _ s' =>
      match skip with
      | S k => count_scan sep k s'
      | O =>
          if startswith sep s
          then S (count_scan sep (String.length sep - 1) s')
          else count_scan sep 0 s'
      end
  end.

Definition count (sep s : string) : nat := count_scan sep 0 s.

(** [sep.join(l)] *)
Definition join (sep : string) (l : list string) : string := String.concat sep l.

(** [" " * n] *)
Fixpoint spaces (n : nat) : string :=
  match n with
  | O => EmptyString
  | S n' => String " "%char (spaces n')
  end.

(** The characters [str.strip()] removes (ASCII white space). *)
Definition is_space (c : ascii) : bool :=
  let n := nat_of_ascii c in
  (Nat.leb 9 n && Nat.leb n 13) || (Nat.leb 28 n && Nat.leb n 32).

(** The truth value of [s.strip()]: some character is not white space. *)
Fixpoint strip_nonempty (s : string) : bool :=
  match s with
  | EmptyString => false
  | String c s' => negb (is_space c) || strip_nonempty s'
  end.

(** [l[0]] and [l[-1]] of a list of strings known to be non-empty
    ([split] never answers the empty list). *)
Definition first (l : list string) : string := hd EmptyString l.
Definition last (l : list string) : string := List.last l EmptyString.

End PyStr.

(** ** Python dictionaries and sorting *)

(** A [dict] with string keys: an association list in insertion order.
    Assigning to a key that is present keeps its place, as in Python. *)
Module Dict.

Definition t (V : Type) : Type := list (string * V).

Definition empty {V : Type} : t V := [].

(** [d.get(k)] *)
Fixpoint get {V : Type} (k : string) (d : t V) : option V :=
  match d with
  | [] => None
  | (k', v) :: d' => if String.eqb k k' then Some v else get k d'
  end.

(** [k in d] *)
Definition mem {V : Type} (k : string) (d : t V) : bool :=
  match get k d with Some _ => true | None => false end.

(** [d[k] = v] *)
Fixpoint set {V : Type} (k : string) (v : V) (d : t V) : t V :=
  match d with
  | [] => [(k, v)]
  | (k', v') :: d' =>
      if String.eqb k k' then (k', v) :: d' else (k', v') :: set k v d'
  end.

(** [d.keys()] *)
Definition keys {V : Type} (d : t V) : list string := map fst d.

(** [d.get(k, [])] for a dictionary of lists. *)
Definition get_list {V : Type} (k : string) (d : t (list V)) : list V :=
  match get k d with Some l => l | None => [] end.

End Dict.

(** [x in l] for a list of strings. *)
Definition mem_string (x : string) (l : list string) : bool :=
  existsb (String.eqb x) l.

(** [l.append(x)] guarded by [if x not in l]. *)
Definition append_new (x : string) (l : list string) : list string :=
  if mem_string x l then l else (l ++ [x])%list.

(** [list.sort(key=...)] and [sorted(..., key=...)]: a stable sort, here by
    insertion.  An element is placed before the first one whose key is not
    smaller, so equal keys keep their order. *)
Fixpoint insert_by {A : Type} (key : A -> Z) (x : A) (l : list A) : list A :=
  match l with
  | [] => [x]
  | y :: l' => if (key x <=? key y)%Z then x :: l else y :: insert_by key x l'
  end.

Definition sort_by {A : Type} (key : A -> Z) (l : list A) : list A :=
  fold_right (insert_by key) [] l.

(** ** The input: field descriptors and operation groups *)

(** The [nestedFields] descriptor [{name, type, doc}] of an array. *)
Record nested_field : Type := {
  nf_name : option string;
  nf_type : option string;
  nf_doc : option string
}.

(** What the [nestedFields] key of a descriptor may hold: [None], a string
    (the literal ["None"] among them) or a dictionary. *)
Inductive nf_value : Type :=
| NFNull
| NFStr (s : string)
| NFDict (d : nested_field).

(** One entry of a [columns] list that is a dictionary.  A key that is absent
    is [None]; the keys are those the module reads.  The descriptor's kind is
    stored under the key ["value"] and the element type under ["arr_type"]. *)
Record item : Type := {
  i_path : option string;
  i_value : option string;
  i_arr_type : option string;
  i_nestedFields : option nf_value;
  i_doc : option string;
  i_moveafter : option string;
  i_target_field : option string
}.

(** A [columns] list: dictionaries, or plain dotted paths (REMOVE). *)
Inductive column_list : Type :=
| ColumnDicts (l : list item)
| ColumnPaths (l : list string).

Record operation_group : Type := {
  operation : string;
  columns : column_list
}.

(** [item["path"]] and [item["value"]] *)
Definition getitem_path (it : item) : result string :=
  match i_path it with
  | Some p => Ok p
  | None => Raise (KeyError "path")
  end.

Definition getitem_value (it : item) : result string :=
  match i_value it with
  | Some v => Ok v
  | None => Raise (KeyError "value")
  end.

(** [item.get("doc", "")] and [item.get("arr_type", "string")] *)
Definition get_doc (it : item) : string :=
  match i_doc it with Some d => d | None => "" end.

Definition get_arr_type (it : item) : string :=
  match i_arr_type it with Some a => a | None => "string" end.

(** The truth value of a [nestedFields] entry: [None], the empty string and
    the empty dictionary are false. *)
Definition nf_truthy (v : nf_value) : bool :=
  match v with
  | NFNull => false
  | NFStr s => negb (String.eqb s "")
  | NFDict d =>
      match nf_name d, nf_type d, nf_doc d with
      | None, None, None => false
      | _, _, _ => true
      end
  end.

(** [v != "None"] *)
Definition nf_is_not_none_literal (v : nf_value) : bool :=
  match v with
  | NFStr s => negb (String.eqb s "None")
  | _ => true
  end.

(** The test the module repeats:
    ["nestedFields" in item and item["nestedFields"]
     and item["nestedFields"] != "None"]; the answer is the entry itself
    when the test holds. *)
Definition usable_nested_fields (it : item) : option nf_value :=
  match i_nestedFields it with
  | Some v => if nf_truthy v && nf_is_not_none_literal v then Some v else None
  | None => None
  end.

(** ** The state of an [OrderPreservingGenerator] *)

Record generator : Type := {
  input_data : list item;
  processed_paths : set string;
  field_order : Dict.t (list string);
  element_fields : Dict.t (list string);
  element_field_order : Dict.t (list string);
  array_element_fields : Dict.t (Dict.t string);
  path_data : Dict.t item;
  top_level_items : list item;
  nested_arrays : Dict.t (list string);
  original_order : Dict.t Z;
  array_nested_fields : Dict.t nf_value
}.

(** [__init__] *)
Definition new_generator (input : list item) : generator := {|
  input_data := input;
  processed_paths := empty_set string;
  field_order := Dict.empty;
  element_fields := Dict.empty;
  element_field_order := Dict.empty;
  array_element_fields := Dict.empty;
  path_data := Dict.empty;
  top_level_items := [];
  nested_arrays := Dict.empty;
  original_order := Dict.empty;
  array_nested_fields := Dict.empty
|}.

(** Attribute assignments [self.x = v]. *)
Definition set_processed_paths (g : generator) (v : set string) : generator := {|
  input_data := input_data g; processed_paths := v;
  field_order := field_order g; element_fields := element_fields g;
  element_field_order := element_field_order g;
  array_element_fields := array_element_fields g; path_data := path_data g;
  top_level_items := top_level_items g; nested_arrays := nested_arrays g;
  original_order := original_order g;
  array_nested_fields := array_nested_fields g |}.

Definition set_field_order (g : generator) (v : Dict.t (list string)) : generator := {|
  input_data := input_data g; processed_paths := processed_paths g;
  field_order := v; element_fields := element_fields g;
  element_field_order := element_field_order g;
  array_element_fields := array_element_fields g; path_data := path_data g;
  top_level_items := top_level_items g; nested_arrays := nested_arrays g;
  original_order := original_order g;
  array_nested_fields := array_nested_fields g |}.

Definition set_element_fields (g : generator) (v : Dict.t (list string)) : generator := {|
  input_data := input_data g; processed_paths := processed_paths g;
  field_order := field_order g; element_fields := v;
  element_field_order := element_field_order g;
  array_element_fields := array_element_fields g; path_data := path_data g;
  top_level_items := top_level_items g; nested_arrays := nested_arrays g;
  original_order := original_order g;
  array_nested_fields := array_nested_fields g |}.

Definition set_element_field_order (g : generator) (v : Dict.t (list string)) : generator := {|
  input_data := input_data g; processed_paths := processed_paths g;
  field_order := field_order g; element_fields := element_fields g;
  element_field_order := v;
  array_element_fields := array_element_fields g; path_data := path_data g;
  top_level_items := top_level_items g; nested_arrays := nested_arrays g;
  original_order := original_order g;
  array_nested_fields := array_nested_fields g |}.

Definition set_array_element_fields (g : generator) (v : Dict.t (Dict.t string)) : generator := {|
  input_data := input_data g; processed_paths := processed_paths g;
  field_order := field_order g; element_fields := element_fields g;
  element_field_order := element_field_order g;
  array_element_fields := v; path_data := path_data g;
  top_level_items := top_level_items g; nested_arrays := nested_arrays g;
  original_order := original_order g;
  array_nested_fields := array_nested_fields g |}.

Definition set_path_data (g : generator) (v : Dict.t item) : generator := {|
  input_data := input_data g; processed_paths := processed_paths g;
  field_order := field_order g; element_fields := element_fields g;
  element_field_order := element_field_order g;
  array_element_fields := array_element_fields g; path_data := v;
  top_level_items := top_level_items g; nested_arrays := nested_arrays g;
  original_order := original_order g;
  array_nested_fields := array_nested_fields g |}.

Definition set_top_level_items (g : generator) (v : list item) : generator := {|
  input_data := input_data g; processed_paths := processed_paths g;
  field_order := field_order g; element_fields := element_fields g;
  element_field_order := element_field_order g;
  array_element_fields := array_element_fields g; path_data := path_data g;
  top_level_items := v; nested_arrays := nested_arrays g;
  original_order := original_order g;
  array_nested_fields := array_nested_fields g |}.

Definition set_nested_arrays (g : generator) (v : Dict.t (list string)) : generator := {|
  input_data := input_data g; processed_paths := processed_paths g;
  field_order := field_order g; element_fields := element_fields g;
  element_field_order := element_field_order g;
  array_element_fields := array_element_fields g; path_data := path_data g;
  top_level_items := top_level_items g; nested_arrays := v;
  original_order := original_order g;
  array_nested_fields := array_nested_fields g |}.

Definition set_original_order (g : generator) (v : Dict.t Z) : generator := {|
  input_data := input_data g; processed_paths := processed_paths g;
  field_order := field_order g; element_fields := element_fields g;
  element_field_order := element_field_order g;
  array_element_fields := array_element_fields g; path_data := path_data g;
  top_level_items := top_level_items g; nested_arrays := nested_arrays g;
  original_order := v;
  array_nested_fields := array_nested_fields g |}.

Definition set_array_nested_fields (g : generator) (v : Dict.t nf_value) : generator := {|
  input_data := input_data g; processed_paths := processed_paths g;
  field_order := field_order g; element_fields := element_fields g;
  element_field_order := element_field_order g;
  array_element_fields := array_element_fields g; path_data := path_data g;
  top_level_items := top_level_items g; nested_arrays := nested_arrays g;
  original_order := original_order g;
  array_nested_fields := v |}.

(** [path in self.processed_paths] and [self.processed_paths.add(path)] *)
Definition is_processed (g : generator) (path : string) : bool :=
  set_mem string_dec path (processed_paths g).

Definition add_processed (g : generator) (path : string) : generator :=
  set_processed_paths g (set_add string_dec path (processed_paths g)).

(** [self.original_order.get(path, 999999)] *)
Definition order_of (g : generator) (path : string) : Z :=
  match Dict.get path (original_order g) with
  | Some i => i
  | None => 999999%Z
  end.

(** ** The collaborators of [helper.py], and sample input *)

(** Modelled from the spec: the table [spark_ddl_types] of [helper.py],
    which is not among the sources.  The spec describes it as a map from a
    raw type name to the canonical SQL type name, unknown names passing
    through unchanged, and its scenario 1 shows [string] mapped to [STRING];
    that entry is the only one kept here. *)
Definition spec_ddl_types (name : string) : option string :=
  if String.eqb name "string" then Some "STRING" else None.

(** Modelled from the spec: the function [get_property_description] of
    [helper.py], which is not among the sources.  The spec describes it as
    turning the raw doc string into a quoted SQL literal, the empty literal
    when the doc is absent; its scenario 1 shows the empty doc rendered as
    two quotes and a space.  Escaping is left to the helper by the spec and
    is not modelled. *)
Definition spec_property_description (doc : string) : string :=
  "'" ++ doc ++ "' ".


(** Descriptors and groups, for examples. *)
Definition descriptor (path kind : string) : item := {|
  i_path := Some path; i_value := Some kind; i_arr_type := None;
  i_nestedFields := None; i_doc := None; i_moveafter := None;
  i_target_field := None |}.

Definition with_nested_fields (it : item) (v : nf_value) : item := {|
  i_path := i_path it; i_value := i_value it; i_arr_type := i_arr_type it;
  i_nestedFields := Some v; i_doc := i_doc it; i_moveafter := i_moveafter it;
  i_target_field := i_target_field it |}.

Definition add_group (l : list item) : operation_group :=
  {| operation := "ADD"; columns := ColumnDicts l |}.

(** An entry of a MOVE, REORDER or REPLACE list. *)
Definition column_entry (path : string) (moveafter target_field value : option string)
  : item := {|
  i_path := Some path; i_value := value; i_arr_type := None;
  i_nestedFields := None; i_doc := None; i_moveafter := moveafter;
  i_target_field := target_field |}.

(** A descriptor that carries a path and nothing else. *)
Definition path_only (path : string) : item := {|
  i_path := Some path; i_value := None; i_arr_type := None;
  i_nestedFields := None; i_doc := None; i_moveafter := None;
  i_target_field := None |}.

(** What a call returns, the object left aside. *)
Definition returned {A B : Type} (r : result (A * B)) : result A :=
  match r with
  | Ok (a, _) => Ok a
  | Raise e => Raise e
  end.

(** ** [PathHandler] *)

(** The helper class of the module: a set of processed paths and an index
    of paths, with the queries [OrderPreservingGenerator] repeats as private
    methods.  Only the keys of [path_data] are read. *)
Module PathHandler.

Import PyStr.

Record path_handler : Type := {
  processed_paths : set string;
  path_data : Dict.t item
}.

(** [__init__] *)
Definition new_handler : path_handler := {|
  processed_paths := empty_set string;
  path_data := Dict.empty
|}.

Definition is_processed (self : path_handler) (path : string) : bool :=
  set_mem string_dec path (processed_paths self).

Definition mark_processed (self : path_handler) (path : string)
  : path_handler := {|
  processed_paths := set_add string_dec path (processed_paths self);
  path_data := path_data self
|}.

Definition is_child_of_processed_path (self : path_handler) (path : string)
  : bool :=
  let parts := split "." path in
  existsb
    (fun i =>
       let parent_path := join "." (firstn i parts) in
       set_mem string_dec parent_path (processed_paths self))
    (seq 1 (List.length parts - 1)).

Definition mark_tree_processed (self : path_handler) (parent_path : string)
  : path_handler :=
  let self := mark_processed self parent_path in
  let prefix := parent_path ++ "." in
  fold_left
    (fun self path =>
       if negb (String.eqb path parent_path) && startswith prefix path
       then mark_processed self path
       else self)
    (Dict.keys (path_data self)) self.

Definition has_children (self : path_handler) (parent_path : string) : bool :=
  let prefix := parent_path ++ "." in
  existsb
    (fun path => negb (String.eqb path parent_path) && startswith prefix path)
    (Dict.keys (path_data self)).

End PathHandler.

Import PyStr.

Section Generator.

(** The two names imported from [helper.py], which is not part of the
    sources at hand: the type-name table (as its lookup) and the comment
    formatter. *)
Variable spark_ddl_types : string -> option string.
Variable get_property_description : string -> string.

(** [spark_ddl_types.get(k, default)] *)
Definition ddl_get (k default : string) : string :=
  match spark_ddl_types k with
  | Some v => v
  | None => default
  end.

(** ** [SQLFormatter] *)

Definition format_path (path : string) : string :=
  join "." (map (fun p => "`" ++ p ++ "`") (split "." path)).

Definition format_comment (comment : string) : string :=
  "COMMENT " ++ get_property_description comment.

Definition format_after_clause (it : item) : string :=
  match i_moveafter it with
  | None => ""
  | Some m => if String.eqb m "first" then " FIRST" else " AFTER `" ++ m ++ "`"
  end.

(** ** [OrderPreservingGenerator]: building the index *)

Fixpoint track_from (idx : Z) (items : list item) (order : Dict.t Z)
  : result (Dict.t Z) :=
  match items with
  | [] => Ok order
  | it :: rest =>
      path <- getitem_path it ;;
      track_from (idx + 1)%Z rest (Dict.set path idx order)
  end.

Definition _track_original_order (self : generator) : result generator :=
  order <- track_from 0%Z (input_data self) (original_order self) ;;
  Ok (set_original_order self order).

Definition _process_array_nested_fields (self : generator) (it : item)
  (path : string) : generator :=
  match i_value it with
  | Some v =>
      if String.eqb v "array" then
        match usable_nested_fields it with
        | Some nf =>
            set_array_nested_fields self
              (Dict.set path nf (array_nested_fields self))
        | None => self
        end
      else self
  | None => self
  end.

(** [path.split(".element.", 1)] read as the pair [(parts[0], parts[1])];
    it is called only on paths that hold the marker. *)
Definition _split_element_path (path : string) : string * string :=
  let parts := split1 ".element." path in
  (nth 0 parts "", nth 1 parts "").

Definition _process_element_path_fields (self : generator) (path : string)
  (parts : list string) : generator :=
  if contains ".element." path then
    let '(array_path, element_field) := _split_element_path path in
    let self :=
      set_element_fields self
        (Dict.set array_path
           (append_new element_field (Dict.get_list array_path (element_fields self)))
           (element_fields self)) in
    set_element_field_order self
      (Dict.set array_path
         (append_new element_field
            (Dict.get_list array_path (element_field_order self)))
         (element_field_order self))
  else self.

Definition _build_field_order_hierarchy (self : generator)
  (parts : list string) : generator :=
  fold_left
    (fun self i =>
       let parent := if Nat.eqb i 0 then "" else join "." (firstn i parts) in
       let field := nth i parts "" in
       set_field_order self
         (Dict.set parent
            (append_new field (Dict.get_list parent (field_order self)))
            (field_order self)))
    (seq 0 (List.length parts)) self.

(** The body of the loop of [_process_path_items]; [top_level_paths] is the
    local set the loop threads. *)
Definition process_path_item (acc : set string * generator) (it : item)
  : result (set string * generator) :=
  let '(top_level_paths, self) := acc in
  path <- getitem_path it ;;
  let parts := split "." path in
  let self := set_path_data self (Dict.set path it (path_data self)) in
  let top_level := first parts in
  let '(top_level_paths, self) :=
    if set_mem string_dec top_level top_level_paths
    then (top_level_paths, self)
    else (set_add string_dec top_level top_level_paths,
          set_top_level_items self (top_level_items self ++ [it])%list) in
  let self := _process_array_nested_fields self it path in
  let self := _process_element_path_fields self path parts in
  let self := _build_field_order_hierarchy self parts in
  Ok (top_level_paths, self).

Definition _process_path_items (self : generator) (top_level_paths : set string)
  : result generator :=
  '(_, self) <- for_each process_path_item (input_data self)
                  (top_level_paths, self) ;;
  Ok self.

Definition _preprocess_input (self : generator) : result generator :=
  let top_level_paths := empty_set string in
  let self := set_array_nested_fields self Dict.empty in
  let self := set_element_field_order self Dict.empty in
  self <- _track_original_order self ;;
  _process_path_items self top_level_paths.

(** [self.array_element_fields[outer][field_name] = path], the inner
    dictionary being present. *)
Definition set_element_field (self : generator) (outer field_name path : string)
  : generator :=
  set_array_element_fields self
    (Dict.set outer
       (Dict.set field_name path
          (match Dict.get outer (array_element_fields self) with
           | Some m => m
           | None => Dict.empty
           end))
       (array_element_fields self)).

(** [if outer not in self.array_element_fields:
       self.array_element_fields[outer] = {}] *)
Definition init_element_fields (self : generator) (outer : string) : generator :=
  if Dict.mem outer (array_element_fields self) then self
  else set_array_element_fields self
         (Dict.set outer Dict.empty (array_element_fields self)).

Definition _process_simple_element_path (self : generator) (path : string)
  (segments : list string) (base_path : string) : generator :=
  let remaining := nth 1 segments "" in
  let field_parts := split1 "." remaining in
  let field_name := first field_parts in
  set_element_field self base_path field_name path.

Definition _process_multilevel_element_path (self : generator) (path : string)
  (segments : list string) (base_path : string) : generator :=
  let first_element := split1 "." (nth 1 segments "") in
  let first_field := first first_element in
  let nested_array_path := base_path ++ ".element." ++ first_field in
  let self :=
    if Dict.mem base_path (nested_arrays self) then self
    else set_nested_arrays self (Dict.set base_path [] (nested_arrays self)) in
  let self :=
    set_nested_arrays self
      (Dict.set base_path
         (append_new nested_array_path (Dict.get_list base_path (nested_arrays self)))
         (nested_arrays self)) in
  let self := init_element_fields self nested_array_path in
  if Nat.eqb (List.length segments) 3 then
    let field_name := nth 2 segments "" in
    set_element_field self nested_array_path field_name path
  else
    if Nat.ltb 1 (List.length first_element) then
      let second_level := split1 "." (nth 1 first_element "") in
      if Nat.ltb 0 (List.length second_level) then
        let field_name := first second_level in
        set_element_field self nested_array_path field_name path
      else self
    else self.

Definition _process_element_path (self : generator) (path : string) : generator :=
  let segments := split ".element." path in
  let base_path := first segments in
  let self := init_element_fields self base_path in
  if Nat.ltb 2 (List.length segments) then
    _process_multilevel_element_path self path segments base_path
  else if Nat.eqb (List.length segments) 2 then
    _process_simple_element_path self path segments base_path
  else self.

Definition _process_array_elements (self : generator) : generator :=
  let self := set_array_element_fields self Dict.empty in
  let self := set_nested_arrays self Dict.empty in
  let element_paths :=
    filter (contains ".element.") (Dict.keys (path_data self)) in
  let element_paths :=
    sort_by (fun x => Z.of_nat (count ".element." x)) element_paths in
  fold_left _process_element_path element_paths self.

(** ** [OrderPreservingGenerator]: queries on the index *)

Definition _has_children (self : generator) (parent_path : string) : bool :=
  let prefix := parent_path ++ "." in
  existsb
    (fun path => negb (String.eqb path parent_path) && startswith prefix path)
    (Dict.keys (path_data self)).

Definition _mark_processed (self : generator) (parent_path : string) : generator :=
  let self := add_processed self parent_path in
  let prefix := parent_path ++ "." in
  fold_left
    (fun self path =>
       if negb (String.eqb path parent_path) && startswith prefix path
       then add_processed self path
       else self)
    (Dict.keys (path_data self)) self.

Definition _is_child_of_processed_path (self : generator) (path : string) : bool :=
  let parts := split "." path in
  existsb
    (fun i => is_processed self (join "." (firstn i parts)))
    (seq 1 (List.length parts - 1)).

Definition _add_direct_child_if_matched (self : generator)
  (path remaining : string) (direct_children : list string)
  (parent_path : string) : list string :=
  if negb (contains "." remaining) then
    (direct_children ++ [path])%list
  else if Nat.leb 2 (count "." remaining) && contains ".element." remaining then
    let array_name := first (split "." remaining) in
    let array_path := parent_path ++ "." ++ array_name in
    if negb (mem_string array_path direct_children)
       && Dict.mem array_path (path_data self)
    then (direct_children ++ [array_path])%list
    else direct_children
  else if contains "." remaining && Nat.eqb (count "." remaining) 1 then
    let first_part := first (split1 "." remaining) in
    let child_path := parent_path ++ "." ++ first_part in
    if Dict.mem child_path (path_data self)
       && negb (mem_string child_path direct_children)
    then (direct_children ++ [child_path])%list
    else direct_children
  else direct_children.

Definition _get_direct_children (self : generator) (parent_path : string)
  : list string :=
  let prefix := if String.eqb parent_path "" then "" else parent_path ++ "." in
  let prefix_len := String.length prefix in
  fold_left
    (fun direct_children path =>
       if String.eqb path parent_path || is_processed self path then
         direct_children
       else if negb (startswith prefix path) then direct_children
       else
         let remaining := drop prefix_len path in
         _add_direct_child_if_matched self path remaining direct_children
           parent_path)
    (Dict.keys (path_data self)) [].

Definition _get_ordered_children (self : generator) (struct_path : string)
  : list string :=
  let direct_children := _get_direct_children self struct_path in
  let ordered_children :=
    fold_left
      (fun ordered_children field =>
         let child_path :=
           if String.eqb struct_path "" then field
           else struct_path ++ "." ++ field in
         if mem_string child_path direct_children
         then (ordered_children ++ [child_path])%list
         else ordered_children)
      (Dict.get_list struct_path (field_order self)) [] in
  let ordered_children :=
    fold_left
      (fun ordered_children child => append_new child ordered_children)
      direct_children ordered_children in
  sort_by (order_of self) ordered_children.

Definition _mark_processed_tree (self : generator) (path : string)
  (children : list string) : generator :=
  let self := add_processed self path in
  fold_left
    (fun self child =>
       let self := add_processed self child in
       match Dict.get child (element_fields self) with
       | Some fields =>
           fold_left
             (fun self element_field =>
                add_processed self (child ++ ".element." ++ element_field))
             fields self
       | None => self
       end)
    children self.

Definition _mark_array_elements_processed (self : generator) (path : string)
  : generator :=
  let mark_values (self : generator) (m : Dict.t string) : generator :=
    fold_left
      (fun self entry =>
         if Dict.mem (snd entry) (path_data self)
         then add_processed self (snd entry)
         else self)
      m self in
  match Dict.get path (array_element_fields self) with
  | Some m =>
      let self := mark_values self m in
      match Dict.get path (nested_arrays self) with
      | Some nested =>
          fold_left
            (fun self nested_array_path =>
               match Dict.get nested_array_path (array_element_fields self) with
               | Some m' => mark_values self m'
               | None => self
               end)
            nested self
      | None => self
      end
  | None => self
  end.

(** The first descriptor of the input whose path is [path]:
    [for item in self.input_data: if item["path"] == path: ...; break]. *)
Fixpoint find_definition (items : list item) (path : string)
  : result (option item) :=
  match items with
  | [] => Ok None
  | it :: rest =>
      p <- getitem_path it ;;
      if String.eqb p path then Ok (Some it) else find_definition rest path
  end.

(** ** [OrderPreservingGenerator]: rendering struct and array bodies *)

(** An entry of the dictionary [_collect_array_fields] builds: its ["type"]
    tag (the constructor), its ["order"], and its ["data"] or ["path"]. *)
Inductive field_info : Type :=
| NestedFieldInfo (order : Z) (data : nested_field)
| RegularInfo (order : Z) (path : string)
| NestedArrayInfo (order : Z) (path : string).

Definition info_order (fi : field_info) : Z :=
  match fi with
  | NestedFieldInfo o _ => o
  | RegularInfo o _ => o
  | NestedArrayInfo o _ => o
  end.

Definition _collect_array_fields (self : generator) (array_path : string)
  : result (Dict.t field_info) :=
  let all_fields : Dict.t field_info := Dict.empty in
  all_fields <-
    match Dict.get array_path (path_data self) with
    | Some array_item =>
        match usable_nested_fields array_item with
        | Some (NFDict nf) =>
            let name := match nf_name nf with Some n => n | None => "id" end in
            Ok (Dict.set name (NestedFieldInfo (-1)%Z nf) all_fields)
        | Some _ => Raise AttributeError
        | None => Ok all_fields
        end
    | None => Ok all_fields
    end ;;
  let all_fields :=
    match Dict.get array_path (array_element_fields self) with
    | Some element_fields_map =>
        fold_left
          (fun all_fields entry =>
             let '(field_name, element_path) := entry in
             if Dict.mem element_path (path_data self)
             then Dict.set field_name
                    (RegularInfo (order_of self element_path) element_path)
                    all_fields
             else all_fields)
          element_fields_map all_fields
    | None => all_fields
    end in
  let all_fields :=
    fold_left
      (fun all_fields nested_array_path =>
         let field_name := last (split "." nested_array_path) in
         Dict.set field_name
           (NestedArrayInfo (order_of self nested_array_path) nested_array_path)
           all_fields)
      (Dict.get_list array_path (nested_arrays self)) all_fields in
  Ok all_fields.

Definition _format_nestedfield (field_name : string) (nf : nested_field)
  (indent : string) : string :=
  let nf_type :=
    ddl_get (match nf_type nf with Some t => t | None => "string" end) "string" in
  indent ++ field_name ++ ": " ++ nf_type ++ " "
    ++ format_comment (match nf_doc nf with Some d => d | None => "" end).

(** The primitive line [f"{indent}{field_name}: {data_type} COMMENT ..."]. *)
Definition simple_line (indent field_name field_type comment : string) : string :=
  indent ++ field_name ++ ": " ++ ddl_get field_type field_type ++ " "
    ++ format_comment comment.

(** The lines and field names the loops of [_format_nested_array_content]
    accumulate: [struct_fields] and [processed_fields]. *)
Definition field_acc : Type := (list string * set string)%type.

Definition _add_nested_array_fields (self : generator)
  (nested_array_path indent : string) (acc : field_acc) : result field_acc :=
  let '(struct_fields, processed_fields) := acc in
  array_def <- find_definition (input_data self) nested_array_path ;;
  match array_def with
  | Some def =>
      match usable_nested_fields def with
      | Some (NFDict nf) =>
          let nf_ty :=
            match nf_type nf with
            | Some t => ddl_get t t
            | None => "string"
            end in
          match nf_name nf with
          | Some name =>
              let line :=
                indent ++ name ++ ": " ++ nf_ty ++ " "
                  ++ format_comment
                       (match nf_doc nf with Some d => d | None => "" end) in
              Ok ((struct_fields ++ [line])%list,
                  set_add string_dec name processed_fields)
          | None => Raise (KeyError "name")
          end
      | Some _ => Raise TypeError
      | None => Ok acc
      end
  | None => Ok acc
  end.

(** The second loop shared by [_add_element_fields_from_path_scan] and
    [_add_element_fields_from_mapping]: one primitive line per field not
    seen yet. *)
Definition add_element_field (self : generator) (indent : string)
  (acc : field_acc) (entry : string * string) : result field_acc :=
  let '(struct_fields, processed_fields) := acc in
  let '(field_name, path) := entry in
  if set_mem string_dec field_name processed_fields then Ok acc
  else
    match Dict.get path (path_data self) with
    | None => Ok acc
    | Some it =>
        field_type <- getitem_value it ;;
        let comment := get_doc it in
        Ok ((struct_fields ++ [simple_line indent field_name field_type comment])%list,
            set_add string_dec field_name processed_fields)
    end.

Definition _add_element_fields_from_path_scan (self : generator)
  (nested_array_path indent : string) (acc : field_acc) : result field_acc :=
  let element_fields : Dict.t string :=
    fold_left
      (fun element_fields path =>
         let parts := split ".element." nested_array_path in
         if Nat.leb 2 (List.length parts) then
           let base_path := nth 0 parts "" in
           let nested_array_name := nth 1 parts "" in
           let pattern :=
             base_path ++ ".element." ++ nested_array_name ++ ".element." in
           if startswith pattern path then
             let field_name := drop (String.length pattern) path in
             let field_name :=
               if contains "." field_name
               then first (split1 "." field_name)
               else field_name in
             Dict.set field_name path element_fields
           else element_fields
         else element_fields)
      (Dict.keys (path_data self)) Dict.empty in
  for_each (add_element_field self indent) element_fields acc.

Definition _add_element_fields_from_mapping (self : generator)
  (nested_array_path indent : string) (acc : field_acc) : result field_acc :=
  match Dict.get nested_array_path (array_element_fields self) with
  | Some element_fields_map =>
      for_each (add_element_field self indent) element_fields_map acc
  | None => Ok acc
  end.

Definition _format_nested_array_content (self : generator)
  (nested_array_path : string) (indent_level : nat) : result string :=
  let indent := spaces (indent_level * 4) in
  let acc : field_acc := ([], empty_set string) in
  acc <- _add_nested_array_fields self nested_array_path indent acc ;;
  acc <- _add_element_fields_from_path_scan self nested_array_path indent acc ;;
  acc <- _add_element_fields_from_mapping self nested_array_path indent acc ;;
  Ok (join ("," ++ nl) (fst acc)).

Definition _format_nested_array_field (self : generator)
  (field_name nested_array_path indent : string) (indent_level : nat)
  : result string :=
  nested_content <-
    _format_nested_array_content self nested_array_path (indent_level + 1) ;;
  array_def <- find_definition (input_data self) nested_array_path ;;
  let comment := match array_def with Some d => get_doc d | None => "" end in
  if strip_nonempty nested_content then
    Ok (indent ++ field_name ++ ": array<struct<" ++ nl ++ nested_content ++ nl
          ++ indent ++ ">> " ++ format_comment comment)
  else
    let arr_type :=
      match array_def with Some d => get_arr_type d | None => "string" end in
    Ok (indent ++ field_name ++ ": array<" ++ arr_type ++ "> "
          ++ format_comment comment).

(** The methods below call [_format_struct_content] recursively; they take
    it as [content], and [_format_struct_content] closes the loop. *)
Section Bodies.

Variable content : string -> nat -> result string.

Definition _format_regular_field (self : generator)
  (field_name element_path indent : string) (indent_level : nat)
  : result string :=
  match Dict.get element_path (path_data self) with
  | None => Raise (KeyError element_path)
  | Some it =>
      item_type <- getitem_value it ;;
      let comment := get_doc it in
      if String.eqb item_type "array" then
        Ok (indent ++ field_name ++ ": array<" ++ get_arr_type it ++ "> "
              ++ format_comment comment)
      else if String.eqb item_type "object" && _has_children self element_path then
        nested_content <- content element_path (indent_level + 1) ;;
        Ok (indent ++ field_name ++ ": struct<" ++ nl ++ nested_content ++ nl
              ++ indent ++ "> " ++ format_comment comment)
      else
        Ok (simple_line indent field_name item_type comment)
  end.

Definition _format_array_struct_content (self : generator)
  (array_path : string) (indent_level : nat) : result string :=
  let indent := spaces (indent_level * 4) in
  all_fields <- _collect_array_fields self array_path ;;
  let ordered_field_names :=
    sort_by
      (fun x => match Dict.get x all_fields with
                | Some fi => info_order fi
                | None => 0%Z
                end)
      (Dict.keys all_fields) in
  acc <-
    for_each
      (fun (acc : field_acc) field_name =>
         let '(struct_fields, processed_fields) := acc in
         match Dict.get field_name all_fields with
         | None => Raise (KeyError field_name)
         | Some field_info =>
             if set_mem string_dec field_name processed_fields then Ok acc
             else
               line <-
                 match field_info with
                 | NestedFieldInfo _ nf =>
                     Ok (_format_nestedfield field_name nf indent)
                 | RegularInfo _ element_path =>
                     _format_regular_field self field_name element_path indent
                       indent_level
                 | NestedArrayInfo _ nested_array_path =>
                     _format_nested_array_field self field_name
                       nested_array_path indent indent_level
                 end ;;
               Ok ((struct_fields ++ [line])%list,
                   set_add string_dec field_name processed_fields)
         end)
      ordered_field_names (([], empty_set string) : field_acc) ;;
  Ok (join ("," ++ nl) (fst acc)).

Definition _format_object_field (self : generator)
  (child_path field comment indent : string) (indent_level : nat)
  : result string :=
  let empty_struct :=
    indent ++ field ++ ": struct<> " ++ format_comment comment in
  if _has_children self child_path then
    nested_content <- content child_path (indent_level + 1) ;;
    if strip_nonempty nested_content then
      Ok (indent ++ field ++ ": struct<" ++ nl ++ nested_content ++ nl
            ++ indent ++ "> " ++ format_comment comment)
    else Ok empty_struct
  else Ok empty_struct.

Definition _format_array_field (self : generator)
  (child_path field comment : string) (child_item : item) (indent : string)
  (indent_level : nat) : result string :=
  let has_elements :=
    match Dict.get child_path (array_element_fields self) with
    | Some (_ :: _) => true
    | _ => false
    end in
  match i_arr_type child_item, has_elements with
  | Some arr_type, false =>
      Ok (indent ++ field ++ ": array<" ++ arr_type ++ "> "
            ++ format_comment comment)
  | _, _ =>
      array_struct_content <-
        _format_array_struct_content self child_path (indent_level + 1) ;;
      if strip_nonempty array_struct_content then
        Ok (indent ++ field ++ ": array<struct<" ++ nl ++ array_struct_content
              ++ nl ++ indent ++ ">> " ++ format_comment comment)
      else
        Ok (indent ++ field ++ ": array<" ++ get_arr_type child_item ++ "> "
              ++ format_comment comment)
  end.

Definition _format_struct_child (self : generator) (child_path indent : string)
  (indent_level : nat) : result string :=
  let field := last (split "." child_path) in
  match Dict.get child_path (path_data self) with
  | None => Ok ""
  | Some child_item =>
      field_type <- getitem_value child_item ;;
      let comment := get_doc child_item in
      if String.eqb field_type "object" then
        _format_object_field self child_path field comment indent indent_level
      else if String.eqb field_type "array" then
        _format_array_field self child_path field comment child_item indent
          indent_level
      else
        Ok (simple_line indent field field_type comment)
  end.

End Bodies.

(** [_format_struct_content], with the depth of the call stack left
    ([depth]) as the decreasing argument. *)
Fixpoint _format_struct_content (depth : nat) (self : generator)
  (struct_path : string) (indent_level : nat) : result string :=
  match depth with
  | O => Raise RecursionError
  | S depth' =>
      let indent := spaces (indent_level * 4) in
      let ordered_children := _get_ordered_children self struct_path in
      lines <-
        map_result
          (fun child_path =>
             _format_struct_child (_format_struct_content depth' self) self
               child_path indent indent_level)
          ordered_children ;;
      Ok (join ("," ++ nl) lines)
  end.

(** The stack the model grants a top-level call: one frame more than the
    longest path of the index.  A recursive call is always on a strictly
    longer path of the index (see [render_depth_sufficient] below), so the
    bound is not reached. *)
Definition stack_depth (self : generator) : nat :=
  S (list_max (map String.length (Dict.keys (path_data self)))).

(** ** [OrderPreservingGenerator]: column definitions *)

Definition _format_struct (self : generator) (path : string) (it : item)
  : result (option string * generator) :=
  if is_processed self path then Ok (None, self)
  else
    let children := _get_direct_children self path in
    match children with
    | [] =>
        let formatted_path := format_path path in
        let comment := get_doc it in
        let after_clause := format_after_clause it in
        let self := add_processed self path in
        Ok (Some ("    " ++ formatted_path ++ " struct<> "
                    ++ format_comment comment ++ after_clause), self)
    | _ :: _ =>
        struct_content <-
          _format_struct_content (stack_depth self) self path 2 ;;
        let formatted_path := format_path path in
        let comment := get_doc it in
        let after_clause := format_after_clause it in
        let self := _mark_processed_tree self path children in
        Ok (Some ("    " ++ formatted_path ++ " struct<" ++ nl ++ struct_content
                    ++ nl ++ "    > " ++ format_comment comment ++ after_clause),
            self)
    end.

Definition _format_dotted_object (self : generator)
  (path formatted_path comment after_clause : string) : result string :=
  let empty_struct :=
    "    " ++ formatted_path ++ " struct<> " ++ format_comment comment
      ++ after_clause in
  if _has_children self path then
    struct_content <- _format_struct_content (stack_depth self) self path 2 ;;
    if strip_nonempty struct_content then
      Ok ("    " ++ formatted_path ++ " struct<" ++ nl ++ struct_content ++ nl
            ++ "    > " ++ format_comment comment ++ after_clause)
    else Ok empty_struct
  else Ok empty_struct.

Definition _format_dotted_array (self : generator)
  (path formatted_path : string) (it : item) (comment after_clause : string)
  : result (string * generator) :=
  let has_element_fields :=
    match Dict.get path (array_element_fields self) with
    | Some (_ :: _) => true
    | _ => false
    end in
  let has_nested_fields :=
    match usable_nested_fields it with Some _ => true | None => false end in
  let simple_array :=
    "    " ++ formatted_path ++ " array<" ++ get_arr_type it ++ "> "
      ++ format_comment comment ++ after_clause in
  if has_nested_fields || has_element_fields then
    array_struct_content <-
      _format_array_struct_content
        (_format_struct_content (stack_depth self) self) self path 3 ;;
    if strip_nonempty array_struct_content then
      let self := _mark_array_elements_processed self path in
      Ok ("    " ++ formatted_path ++ " array<struct<" ++ nl
            ++ array_struct_content ++ nl ++ "    >> "
            ++ format_comment comment ++ after_clause, self)
    else Ok (simple_array, self)
  else Ok (simple_array, self).

(** The second loop of [_format_dotted_path]: some proper prefix of the path
    is an object descriptor that has children. *)
Fixpoint struct_parent_pending (self : generator) (parts : list string)
  (indices : list nat) : result bool :=
  match indices with
  | [] => Ok false
  | i :: rest =>
      let parent_path := join "." (firstn i parts) in
      match Dict.get parent_path (path_data self) with
      | Some parent_item =>
          v <- getitem_value parent_item ;;
          if String.eqb v "object" && _has_children self parent_path
          then Ok true
          else struct_parent_pending self parts rest
      | None => struct_parent_pending self parts rest
      end
  end.

Definition _format_dotted_path (self : generator) (it : item)
  : result (option string * generator) :=
  path <- getitem_path it ;;
  if contains ".element." path
     && (is_processed self path
         || is_processed self (fst (_split_element_path path)))
  then Ok (None, self)
  else
    let parts := split "." path in
    let indices := seq 1 (List.length parts - 1) in
    if Nat.ltb 1 (List.length parts)
       && existsb (fun i => is_processed self (join "." (firstn i parts))) indices
    then Ok (None, self)
    else
      pending <-
        (if Nat.ltb 1 (List.length parts)
         then struct_parent_pending self parts indices
         else Ok false) ;;
      if pending then Ok (None, self)
      else
        value_type <- getitem_value it ;;
        let comment := get_doc it in
        let after_clause := format_after_clause it in
        let formatted_path := format_path path in
        if String.eqb value_type "object" then
          d <- _format_dotted_object self path formatted_path comment
                 after_clause ;;
          Ok (Some d, self)
        else if String.eqb value_type "array" then
          '(d, self) <- _format_dotted_array self path formatted_path it comment
                          after_clause ;;
          Ok (Some d, self)
        else
          Ok (Some ("    " ++ formatted_path ++ " "
                      ++ ddl_get value_type value_type ++ " "
                      ++ format_comment comment ++ after_clause), self).

(** [if definition:] holds for a string that is not empty. *)
Definition truthy_definition (d : option string) : option string :=
  match d with
  | Some s => if String.eqb s "" then None else Some s
  | None => None
  end.

(** The loop body of [_process_top_level_items]: the definition appended by
    this iteration, if any, and the state after it. *)
Definition top_level_step (self : generator) (it : item)
  : result (option string * generator) :=
  path <- getitem_path it ;;
  if is_processed self path then Ok (None, self)
  else
    value <- getitem_value it ;;
    if String.eqb value "object" && _has_children self path then
      '(definition, self) <- _format_struct self path it ;;
      match truthy_definition definition with
      | Some d => Ok (Some d, _mark_processed self path)
      | None => Ok (None, self)
      end
    else
      '(definition, self) <- _format_dotted_path self it ;;
      match truthy_definition definition with
      | Some d => Ok (Some d, add_processed self path)
      | None => Ok (None, self)
      end.

(** The loop body of [_process_remaining_items]. *)
Definition remaining_step (self : generator) (it : item)
  : result (option string * generator) :=
  path <- getitem_path it ;;
  '(definition, self) <- _format_dotted_path self it ;;
  match truthy_definition definition with
  | Some d => Ok (Some d, add_processed self path)
  | None => Ok (None, self)
  end.

(** [for item in items: ...; column_definitions.append(definition)] *)
Fixpoint collect_definitions
  (step : generator -> item -> result (option string * generator))
  (items : list item) (self : generator) : result (list string * generator) :=
  match items with
  | [] => Ok ([], self)
  | it :: rest =>
      '(definition, self) <- step self it ;;
      '(column_definitions, self) <- collect_definitions step rest self ;;
      Ok (match definition with
          | Some d => d :: column_definitions
          | None => column_definitions
          end, self)
  end.

Definition _process_top_level_items (self : generator)
  : result (list string * generator) :=
  collect_definitions top_level_step (top_level_items self) self.

(** The loop of [_get_remaining_items]; it reads [item["path"]] of every
    descriptor. *)
Fixpoint remaining_of (self : generator) (items : list item)
  : result (list item) :=
  match items with
  | [] => Ok []
  | it :: rest =>
      path <- getitem_path it ;;
      remaining_items <- remaining_of self rest ;;
      if negb (is_processed self path)
         && negb (_is_child_of_processed_path self path)
      then Ok (it :: remaining_items)
      else Ok remaining_items
  end.

Definition _get_remaining_items (self : generator) : result (list item) :=
  remaining_of self (input_data self).

(** The sort key of [_process_remaining_items]; the items it sorts all
    carry a path. *)
Definition remaining_key (self : generator) (it : item) : Z :=
  match i_path it with
  | Some p => order_of self p
  | None => 999999%Z
  end.

Definition _process_remaining_items (self : generator)
  : result (list string * generator) :=
  remaining_items <- _get_remaining_items self ;;
  let remaining_items := sort_by (remaining_key self) remaining_items in
  collect_definitions remaining_step remaining_items self.

(** [OrderPreservingGenerator.generate_sql], split in two: the column
    definitions, and the statement that wraps them. *)
Definition column_definitions_of (self : generator)
  : result (list string * generator) :=
  self <- _preprocess_input self ;;
  let self := _process_array_elements self in
  '(column_definitions, self) <- _process_top_level_items self ;;
  '(more, self) <- _process_remaining_items self ;;
  Ok ((column_definitions ++ more)%list, self).

Definition add_columns_statement (column_definitions : list string) : string :=
  match column_definitions with
  | [] => "ALTER TABLE {table_name} " ++ nl ++ "    ADD COLUMNS ()"
  | _ :: _ =>
      let joined_columns := join ("," ++ nl) column_definitions in
      "ALTER TABLE {table_name} " ++ nl ++ "    ADD COLUMNS (" ++ nl
        ++ joined_columns ++ nl ++ "    )"
  end.

Definition generate_sql (self : generator) : result (string * generator) :=
  '(column_definitions, self) <- column_definitions_of self ;;
  Ok (add_columns_statement column_definitions, self).

(** *** The same loops, remembering which descriptor each definition
    was rendered from.  [collect_traced_erase] below shows that forgetting
    the descriptors gives back [collect_definitions]. *)

Fixpoint collect_traced
  (step : generator -> item -> result (option string * generator))
  (items : list item) (self : generator)
  : result (list (item * string) * generator) :=
  match items with
  | [] => Ok ([], self)
  | it :: rest =>
      '(definition, self) <- step self it ;;
      '(emitted, self) <- collect_traced step rest self ;;
      Ok (match definition with
          | Some d => (it, d) :: emitted
          | None => emitted
          end, self)
  end.

Definition traced_definitions_of (self : generator)
  : result (list (item * string) * generator) :=
  self <- _preprocess_input self ;;
  let self := _process_array_elements self in
  '(emitted, self) <- collect_traced top_level_step (top_level_items self) self ;;
  remaining_items <- _get_remaining_items self ;;
  let remaining_items := sort_by (remaining_key self) remaining_items in
  '(more, self) <- collect_traced remaining_step remaining_items self ;;
  Ok ((emitted ++ more)%list, self).

(** ** [SQLColumnGenerator] *)

Record SQLColumnGenerator : Type := {
  scg_input_data : list operation_group
}.

(** Iterating a [columns] list whose entries are used as dictionaries
    ([column["path"]]) or as strings ([column_path.split(".")]): the first
    entry of the other kind raises. *)
Definition as_dicts (c : column_list) : result (list item) :=
  match c with
  | ColumnDicts l => Ok l
  | ColumnPaths [] => Ok []
  | ColumnPaths (_ :: _) => Raise TypeError
  end.

Definition as_paths (c : column_list) : result (list string) :=
  match c with
  | ColumnPaths l => Ok l
  | ColumnDicts [] => Ok []
  | ColumnDicts (_ :: _) => Raise AttributeError
  end.

Definition drop_statement (column_path : string) : string :=
  "ALTER TABLE {table_name} DROP COLUMN " ++ format_path column_path.

Definition move_statement (column : item) : result string :=
  path <- getitem_path column ;;
  let formatted_path := format_path path in
  new_name <- getitem_value column ;;
  Ok ("ALTER TABLE {table_name} RENAME COLUMN " ++ formatted_path ++ " TO `"
        ++ new_name ++ "`").

Definition reorder_statement (column : item) : result string :=
  path <- getitem_path column ;;
  let formatted_path := format_path path in
  if match i_moveafter column with
     | Some m => String.eqb m "first"
     | None => false
     end
  then
    Ok ("ALTER TABLE {table_name} ALTER COLUMN " ++ formatted_path ++ " FIRST")
  else
    after_column <- getitem_value column ;;
    let formatted_after := format_path after_column in
    Ok ("ALTER TABLE {table_name} ALTER COLUMN " ++ formatted_path ++ " AFTER "
          ++ formatted_after).

(** The body of the REPLACE loop: the statement it appends, if any. *)
Definition replace_statement (column : item) : result (option string) :=
  path <- getitem_path column ;;
  let formatted_path := format_path path in
  let target_field :=
    match i_target_field column with Some t => t | None => "value" end in
  if String.eqb target_field "description" || String.eqb target_field "comment"
  then
    v <- getitem_value column ;;
    Ok (Some ("ALTER TABLE {table_name} ALTER COLUMN " ++ formatted_path
                ++ " COMMENT " ++ get_property_description v))
  else if String.eqb target_field "type" then
    v <- getitem_value column ;;
    let data_type := ddl_get v v in
    Ok (Some ("ALTER TABLE {table_name} ALTER COLUMN " ++ formatted_path
                ++ " TYPE " ++ data_type))
  else if String.eqb target_field "name" then
    new_name <- getitem_value column ;;
    Ok (Some ("ALTER TABLE {table_name} RENAME COLUMN " ++ formatted_path
                ++ " TO `" ++ new_name ++ "`"))
  else Ok None.

(** The statements one operation group adds to [sql_statements]. *)
Definition group_statements (operation_group : operation_group)
  : result (list string) :=
  let op_type := operation operation_group in
  if String.eqb op_type "ADD" then
    cols <- as_dicts (columns operation_group) ;;
    '(sql, _) <- generate_sql (new_generator cols) ;;
    Ok [sql]
  else if String.eqb op_type "REMOVE" then
    cols <- as_paths (columns operation_group) ;;
    Ok (map drop_statement cols)
  else if String.eqb op_type "MOVE" then
    cols <- as_dicts (columns operation_group) ;;
    map_result move_statement cols
  else if String.eqb op_type "REORDER" then
    cols <- as_dicts (columns operation_group) ;;
    map_result reorder_statement cols
  else if String.eqb op_type "REPLACE" then
    cols <- as_dicts (columns operation_group) ;;
    stmts <- map_result replace_statement cols ;;
    Ok (flat_map (fun o => match o with Some x => [x] | None => [] end) stmts)
  else Ok [].

Fixpoint all_statements (groups : list operation_group) : result (list string) :=
  match groups with
  | [] => Ok []
  | g :: rest =>
      stmts <- group_statements g ;;
      more <- all_statements rest ;;
      Ok (stmts ++ more)%list
  end.

(** [SQLColumnGenerator.generate_sql]: what the call returns (or raises)
    and the object after the call. *)
Definition SQLColumnGenerator_generate_sql (self : SQLColumnGenerator)
  : result (list string) * SQLColumnGenerator :=
  (all_statements (scg_input_data self), self).

(** *** The same call, with the lists it shares

    [OrderPreservingGenerator(operation_group["columns"])] keeps the list
    it is given, not a copy of it: the [input_data] of the generator and the
    [columns] of the group are one list.  Here a call returns, with its
    statements, the groups as it leaves them: the columns of an ADD group
    are what the [input_data] of its generator holds when the generator is
    done.  The other branches read their columns and build strings. *)





(** ** Vocabulary of the statements below *)

(** The five operation tags [SQLColumnGenerator.generate_sql] tests for. *)
Definition recognized_operation (op : string) : bool :=
  existsb (String.eqb op) ["ADD"; "REMOVE"; "MOVE"; "REORDER"; "REPLACE"].

(** The [target_field] values the REPLACE branch tests for. *)
Definition recognized_target (column : item) : bool :=
  match i_target_field column with
  | Some t => existsb (String.eqb t) ["description"; "comment"; "type"; "name"]
  | None => false
  end.


(** [not has_element_fields], the test of [_format_dotted_array] and
    [_format_array_field]: the array has no entry in
    [array_element_fields], or an empty one. *)
Definition no_element_fields (self : generator) (path : string) : bool :=
  match Dict.get path (array_element_fields self) with
  | Some (_ :: _) => false
  | _ => true
  end.

(** ["path" in item] *)
Definition has_path (it : item) : bool :=
  match i_path it with Some _ => true | None => false end.

(** ["value" in item] *)
Definition has_value (it : item) : bool :=
  match i_value it with Some _ => true | None => false end.


(** [self.path_data] as [_process_path_items] fills it: each descriptor
    stored under its path, a later one replacing an earlier one. *)
Definition index_paths (items : list item) (d : Dict.t item) : Dict.t item :=
  fold_left
    (fun d it => match i_path it with Some p => Dict.set p it d | None => d end)
    items d.

(** The top-level segment of a descriptor's path: [parts[0]]. *)
Definition top_segment (it : item) : string :=
  match i_path it with
  | Some p => first (split "." p)
  | None => ""
  end.

(** [self.top_level_items] as [_process_path_items] fills it: the first
    descriptor of each top-level segment, [seen] being the segments met. *)
Fixpoint first_of_segment (seen : set string) (items : list item) : list item :=
  match items with
  | [] => []
  | it :: rest =>
      if set_mem string_dec (top_segment it) seen
      then first_of_segment seen rest
      else it :: first_of_segment (set_add string_dec (top_segment it) seen) rest
  end.

(** Two states that differ at most in the attributes the loop of
    [_process_path_items] leaves alone or fills in a way of their own:
    everything but the field orders, element fields and nested fields. *)
Definition same_core (a b : generator) : Prop :=
  input_data a = input_data b
  /\ processed_paths a = processed_paths b
  /\ original_order a = original_order b
  /\ array_element_fields a = array_element_fields b
  /\ nested_arrays a = nested_arrays b
  /\ path_data a = path_data b
  /\ top_level_items a = top_level_items b.

(** The state on which the column definitions are rendered: the index built
    by [_preprocess_input] and [_process_array_elements] from [items]. *)
Definition indexed (items : list item) (self : generator) : Prop :=
  exists self0,
    _preprocess_input (new_generator items) = Ok self0
    /\ self = _process_array_elements self0.


(** The length of the string a list of segments was cut from, the separator
    being [n] characters long. *)
Fixpoint segments_length (n : nat) (l : list string) : nat :=
  match l with
  | [] => 0
  | a :: rest =>
      match rest with
      | [] => String.length a
      | _ :: _ => String.length a + n + segments_length n rest
      end
  end.

(** Every element path recorded under an array path holds the element
    marker and is longer than the array path. *)
Definition elements_below (self : generator) : Prop :=
  forall a m f e,
    Dict.get a (array_element_fields self) = Some m ->
    In (f, e) m ->
    String.length a < String.length e /\ contains ".element." e = true.


(** The attributes [_process_array_elements] leaves as they are. *)
Definition same_but_elements (a b : generator) : Prop :=
  input_data a = input_data b
  /\ processed_paths a = processed_paths b
  /\ original_order a = original_order b
  /\ path_data a = path_data b
  /\ top_level_items a = top_level_items b
  /\ element_fields a = element_fields b
  /\ field_order a = field_order b.

(** The [nestedFields] entry of a descriptor, when the module takes it into
    account, is a dictionary (and not a string other than ["None"]). *)
Definition nested_fields_usable (it : item) : bool :=
  match usable_nested_fields it with
  | Some (NFDict _) => true
  | Some _ => false
  | None => true
  end.

(** A descriptor whose path has no dot. *)
Definition flat (it : item) : bool :=
  match i_path it with
  | Some p => negb (contains "." p)
  | None => false
  end.

(** The sort key of a field name in [_format_array_struct_content]:
    [all_fields[x]["order"]]. *)
Definition field_key (all_fields : Dict.t field_info) (x : string) : Z :=
  match Dict.get x all_fields with
  | Some fi => info_order fi
  | None => 0%Z
  end.

(** The line of one field of an array's element struct: the dispatch on the
    type tag of its entry, as in the loop of [_format_array_struct_content]. *)
Definition array_field_line (content : string -> nat -> result string)
  (self : generator) (indent_level : nat) (all_fields : Dict.t field_info)
  (field_name : string) : result string :=
  let indent := spaces (indent_level * 4) in
  match Dict.get field_name all_fields with
  | None => Raise (KeyError field_name)
  | Some (NestedFieldInfo _ nf) => Ok (_format_nestedfield field_name nf indent)
  | Some (RegularInfo _ element_path) =>
      _format_regular_field content self field_name element_path indent
        indent_level
  | Some (NestedArrayInfo _ nested_array_path) =>
      _format_nested_array_field self field_name nested_array_path indent
        indent_level
  end.

(** The field name of a nested array path: its last segment. *)
Definition last_segment (path : string) : string := last (split "." path).

(** The name under which the [nestedFields] descriptor is collected. *)
Definition nested_field_name (nf : nested_field) : string :=
  match nf_name nf with Some n => n | None => "id" end.

(** The state [generate_sql] renders from, for a list whose descriptors all
    carry a path. *)
Definition indexed_state (items : list item) : generator :=
  match _preprocess_input (new_generator items) with
  | Ok self => _process_array_elements self
  | Raise _ => new_generator items
  end.


(** The two merging loops of [_collect_array_fields]. *)
Definition merge_element_fields (self : generator) (m : Dict.t string)
  (all_fields : Dict.t field_info) : Dict.t field_info :=
  fold_left
    (fun all_fields entry =>
       let '(field_name, element_path) := entry in
       if Dict.mem element_path (path_data self)
       then Dict.set field_name
              (RegularInfo (order_of self element_path) element_path)
              all_fields
       else all_fields)
    m all_fields.

Definition merge_nested_arrays (self : generator) (l : list string)
  (all_fields : Dict.t field_info) : Dict.t field_info :=
  fold_left
    (fun all_fields nested_array_path =>
       let field_name := last (split "." nested_array_path) in
       Dict.set field_name
         (NestedArrayInfo (order_of self nested_array_path) nested_array_path)
         all_fields)
    l all_fields.

(** Every entry of [all_fields] carries the key of its source: [-1] for the
    [nestedFields] descriptor [nf0], collected under [n0] only, and the
    original order of its path otherwise. *)
Definition entries_keyed (self : generator) (n0 : string) (nf0 : nested_field)
  (d : Dict.t field_info) : Prop :=
  forall x fi,
    Dict.get x d = Some fi ->
    match fi with
    | NestedFieldInfo o nf => x = n0 /\ o = (-1)%Z /\ nf = nf0
    | RegularInfo o e => o = order_of self e
    | NestedArrayInfo o np => o = order_of self np
    end.


(** The [nestedFields] entry of a descriptor, when the module takes it into
    account, is a dictionary that has a name. *)
Definition nested_fields_named (it : item) : bool :=
  match usable_nested_fields it with
  | Some (NFDict d) => match nf_name d with Some _ => true | None => false end
  | Some _ => false
  | None => true
  end.

(** A well-formed descriptor: a non-empty path, a kind, and a usable
    [nestedFields] entry if any. *)
Definition well_formed_item (it : item) : bool :=
  match i_path it with
  | Some p => negb (String.eqb p "")
  | None => false
  end && has_value it && nested_fields_named it.

Definition well_formed (items : list item) : bool :=
  forallb well_formed_item items.

(** [q] is a descendant of [p]: it starts with [p] followed by a dot. *)
Definition descends (p q : string) : bool := startswith (p ++ ".") q.

(** What rendering relies on in an index: each path leads to a well-formed
    descriptor of that path, the input is well formed, and the element
    paths lie below their arrays. *)
Definition wf_index (self : generator) : Prop :=
  (forall p it,
      Dict.get p (path_data self) = Some it ->
      i_path it = Some p /\ well_formed_item it = true)
  /\ well_formed (input_data self) = true
  /\ elements_below self.

(** [self'] is [self] with more processed paths, each of them [path] itself
    or a path that holds a dot. *)
Definition grows_by (self self' : generator) (path : string) : Prop :=
  self' = set_processed_paths self (processed_paths self')
  /\ (forall q, is_processed self q = true -> is_processed self' q = true)
  /\ (forall q, is_processed self' q = true ->
                is_processed self q = true \/ q = path \/ contains "." q = true).

(** The longest path of the index. *)
Definition longest_path (self : generator) : nat :=
  list_max (map String.length (Dict.keys (path_data self))).


(** The processed set and the index of a generator, seen as a
    [PathHandler]. *)
Definition handler_of (self : generator) : PathHandler.path_handler := {|
  PathHandler.processed_paths := processed_paths self;
  PathHandler.path_data := path_data self
|}.

(** [l1] is [l2] with some elements left out, the order kept. *)
Inductive subsequence {A : Type} : list A -> list A -> Prop :=
| subsequence_nil : subsequence [] []
| subsequence_skip :
    forall x l1 l2, subsequence l1 l2 -> subsequence l1 (x :: l2)
| subsequence_keep :
    forall x l1 l2, subsequence l1 l2 -> subsequence (x :: l1) (x :: l2).

(** The column definition of a descriptor at a dot-free path, as the
    branches of [_format_dotted_path] lay it out when the index holds
    dot-free paths only: a struct has no child, and an array has at most
    the one element field its [nestedFields] entry describes. *)
Definition flat_column_definition (it : item) : string :=
  match i_path it, i_value it with
  | Some p, Some v =>
      let head := "    " ++ format_path p in
      let tail := format_comment (get_doc it) ++ format_after_clause it in
      if String.eqb v "object" then head ++ " struct<> " ++ tail
      else if String.eqb v "array" then
        match usable_nested_fields it with
        | Some (NFDict nf) =>
            head ++ " array<struct<" ++ nl
              ++ _format_nestedfield (nested_field_name nf) nf (spaces 12)
              ++ nl ++ "    >> " ++ tail
        | _ => head ++ " array<" ++ get_arr_type it ++ "> " ++ tail
        end
      else head ++ " " ++ ddl_get v v ++ " " ++ tail
  | _, _ => ""
  end.

(** For a dictionary of lists: [x in d.get(k, [])], and no list of the
    dictionary holding a name twice. *)
Definition listed (d : Dict.t (list string)) (k x : string) : Prop :=
  In x (Dict.get_list k d).

Definition lists_nodup (d : Dict.t (list string)) : Prop :=
  forall k, NoDup (Dict.get_list k d).

(** Every element path recorded under an array path is one of [keys], holds
    the element marker, and starts with the array path and a dot. *)
Definition element_paths_below (keys : list string) (self : generator) : Prop :=
  forall a m f e,
    Dict.get a (array_element_fields self) = Some m ->
    In (f, e) m ->
    In e keys /\ contains ".element." e = true /\ descends a e = true.

(** Every nested array recorded under an array path is that path, the
    element marker and a dot-free name, and has an entry of its own among
    the element fields. *)
Definition nested_arrays_named (self : generator) : Prop :=
  forall a l n,
    Dict.get a (nested_arrays self) = Some l ->
    In n l ->
    Dict.mem n (array_element_fields self) = true
    /\ exists name, n = a ++ ".element." ++ name /\ contains "." name = false.


(** The dictionary the first loop of [_add_element_fields_from_path_scan]
    fills: for every key of the index that starts with the nested array
    path and the element marker, the first segment of what follows, with
    that key; a later key of the same segment replaces the earlier one and
    keeps its place. *)
Definition scanned_element_fields (self : generator)
  (nested_array_path : string) : Dict.t string :=
  fold_left
    (fun element_fields path =>
       let parts := split ".element." nested_array_path in
       if Nat.leb 2 (List.length parts) then
         let base_path := nth 0 parts "" in
         let nested_array_name := nth 1 parts "" in
         let pattern :=
           base_path ++ ".element." ++ nested_array_name ++ ".element." in
         if startswith pattern path then
           let field_name := drop (String.length pattern) path in
           let field_name :=
             if contains "." field_name
             then first (split1 "." field_name)
             else field_name in
           Dict.set field_name path element_fields
         else element_fields
       else element_fields)
    (Dict.keys (path_data self)) Dict.empty.

(** The element fields recorded for an array path, none if the path has no
    entry: what the loop of [_add_element_fields_from_mapping] runs over. *)
Definition recorded_element_fields (self : generator) (array_path : string)
  : Dict.t string :=
  match Dict.get array_path (array_element_fields self) with
  | Some m => m
  | None => Dict.empty
  end.

(** The line [_add_nested_array_fields] renders for the [nestedFields]
    descriptor of a nested array. *)
Definition nested_array_field_line (indent name : string) (nf : nested_field)
  : string :=
  indent ++ name ++ ": "
    ++ match nf_type nf with Some t => ddl_get t t | None => "string" end
    ++ " " ++ format_comment (match nf_doc nf with Some d => d | None => "" end).

(** [line] is the primitive line of the field [name], rendered from the
    descriptor the index holds at [path]. *)
Definition element_line (self : generator) (indent name path line : string)
  : Prop :=
  exists it v,
    Dict.get path (path_data self) = Some it
    /\ i_value it = Some v
    /\ line = simple_line indent name v (get_doc it).



(** * Properties *)

Lemma bind_ok :
  forall (A B : Type) (a : A) (k : A -> result B), bind (Ok a) k = k a.
Proof. reflexivity. Qed.

Lemma bind_raise :
  forall (A B : Type) (e : exn) (k : A -> result B), bind (Raise e) k = Raise e.
Proof. reflexivity. Qed.

(** ** Facts about the string methods *)

Lemma startswith_nil : forall s, startswith "" s = true.
Proof. destruct s; reflexivity. Qed.

Lemma startswith_cons :
  forall a p b s,
    startswith (String a p) (String b s)
    = (if ascii_dec a b then startswith p s else false).
Proof. intros. unfold startswith. simpl. destruct (ascii_dec a b); reflexivity. Qed.

Lemma startswith_app : forall p s, startswith p (p ++ s) = true.
Proof.
  induction p as [|a p IH]; intros s.
  - apply startswith_nil.
  - change (String a p ++ s) with (String a (p ++ s)).
    rewrite startswith_cons.
    destruct (ascii_dec a a); [apply IH | congruence].
Qed.

Lemma startswith_inv :
  forall p s, startswith p s = true -> exists r, s = p ++ r.
Proof.
  induction p as [|a p IH]; intros s H.
  - exists s. reflexivity.
  - destruct s as [|b s]; [discriminate|].
    rewrite startswith_cons in H.
    destruct (ascii_dec a b); [|discriminate]. subst b.
    destruct (IH s H) as [r E]. exists r. simpl. now rewrite E.
Qed.

Lemma string_app_length :
  forall a b, String.length (a ++ b) = String.length a + String.length b.
Proof. induction a; intros b; simpl; [reflexivity | now rewrite IHa]. Qed.

Lemma string_app_assoc : forall a b c : string, (a ++ b) ++ c = a ++ (b ++ c).
Proof. induction a; intros b c; simpl; [reflexivity | now rewrite IHa]. Qed.

Lemma string_app_nil_r : forall a : string, a ++ "" = a.
Proof. induction a; simpl; [reflexivity | now rewrite IHa]. Qed.

Lemma contains_app_r :
  forall sub a b, contains sub b = true -> contains sub (a ++ b) = true.
Proof.
  induction a as [|c a IH]; intros b H; simpl.
  - exact H.
  - rewrite (IH b H). apply orb_true_r.
Qed.

Lemma contains_intro : forall sub a b, contains sub (a ++ sub ++ b) = true.
Proof.
  intros sub a b. apply contains_app_r.
  assert (U : forall s, startswith sub s = true -> contains sub s = true).
  { intros s H. destruct s; cbn [contains]; rewrite H; reflexivity. }
  apply U, startswith_app.
Qed.

Lemma contains_inv :
  forall sub s, contains sub s = true -> exists a b, s = a ++ sub ++ b.
Proof.
  induction s as [|c s IH]; intros H; cbn [contains] in H.
  - rewrite orb_false_r in H. destruct (startswith_inv _ _ H) as [r E].
    exists "", r. exact E.
  - apply orb_prop in H. destruct H as [H|H].
    + destruct (startswith_inv _ _ H) as [r E]. exists "", r. exact E.
    + destruct (IH H) as [a [b E]]. exists (String c a), b. simpl. now rewrite E.
Qed.

(** A string that holds [c ++ sub] holds [c]. *)
Lemma contains_first_char :
  forall c sub s,
    contains (String c sub) s = true -> contains (String c "") s = true.
Proof.
  intros c sub s H. destruct (contains_inv _ _ H) as [a [b E]]. subst s.
  change (String c sub ++ b) with (String c "" ++ (sub ++ b)).
  apply contains_intro.
Qed.

Lemma not_contains_cons :
  forall sep c s,
    contains sep (String c s) = false ->
    startswith sep (String c s) = false /\ contains sep s = false.
Proof. intros sep c s H. cbn [contains] in H. apply orb_false_elim in H. exact H. Qed.

(** Without the separator, [split] answers the string itself. *)
Lemma split_without_separator :
  forall sep s, contains sep s = false -> split sep s = [s].
Proof.
  intros sep s. unfold split. induction s as [|c s IH]; intros H.
  - reflexivity.
  - apply not_contains_cons in H. destruct H as [H1 H2].
    cbn [split_scan]. rewrite H1, (IH H2). reflexivity.
Qed.

Lemma split1_without_separator :
  forall sep s, contains sep s = false -> split1 sep s = [s].
Proof.
  intros sep s. induction s as [|c s IH]; intros H.
  - cbn [contains split1] in *. rewrite orb_false_r in H. rewrite H. reflexivity.
  - apply not_contains_cons in H. destruct H as [H1 H2].
    cbn [split1]. rewrite H1, (IH H2). reflexivity.
Qed.

Lemma split_scan_nonempty : forall sep s k, split_scan sep k s <> [].
Proof.
  intros sep s. induction s as [|c s IH]; intros k; cbn [split_scan].
  - discriminate.
  - destruct k; [|apply IH].
    destruct (startswith sep (String c s)); [discriminate|].
    destruct (split_scan sep 0 s) eqn:E; discriminate.
Qed.

(** A dotted path whose first segment [p] is free of dots. *)
Lemma split_dot_first_segment :
  forall p r,
    contains "." p = false ->
    split "." (p ++ "." ++ r) = p :: split "." r.
Proof.
  intros p r. unfold split. induction p as [|c p IH]; intros H.
  - change ("" ++ "." ++ r) with (String "." r). cbn [split_scan].
    rewrite startswith_cons, startswith_nil.
    destruct (ascii_dec "." "."); [reflexivity | congruence].
  - apply not_contains_cons in H. destruct H as [H1 H2].
    change ((String c p ++ "." ++ r)) with (String c (p ++ "." ++ r)).
    cbn [split_scan].
    assert (E : startswith "." (String c (p ++ "." ++ r)) = false).
    { rewrite startswith_cons in *.
      destruct (ascii_dec "." c); [|reflexivity].
      rewrite startswith_nil in H1. discriminate. }
    rewrite E, (IH H2). reflexivity.
Qed.

Lemma count_without_separator :
  forall sep s, contains sep s = false -> count sep s = 0.
Proof.
  intros sep s. unfold count. induction s as [|c s IH]; intros H.
  - reflexivity.
  - apply not_contains_cons in H. destruct H as [H1 H2].
    cbn [count_scan]. rewrite H1. apply IH, H2.
Qed.


Lemma strip_nonempty_app :
  forall a b, strip_nonempty (a ++ b) = strip_nonempty a || strip_nonempty b.
Proof.
  induction a as [|c a IH]; intros b; simpl.
  - reflexivity.
  - rewrite IH. now rewrite orb_assoc.
Qed.

(** ** Facts about dictionaries *)

Lemma dict_get_set_same :
  forall V k (v : V) d, Dict.get k (Dict.set k v d) = Some v.
Proof.
  induction d as [|[k' v'] d IH]; simpl.
  - now rewrite String.eqb_refl.
  - destruct (String.eqb k k') eqn:E; simpl; rewrite E; [reflexivity | exact IH].
Qed.

Lemma dict_get_set_other :
  forall V k k' (v : V) d,
    k <> k' -> Dict.get k (Dict.set k' v d) = Dict.get k d.
Proof.
  intros V k k' v d Hne. induction d as [|[k0 v0] d IH]; simpl.
  - destruct (String.eqb_spec k k'); [contradiction | reflexivity].
  - destruct (String.eqb_spec k' k0); simpl.
    + subst k0. destruct (String.eqb_spec k k'); [contradiction | reflexivity].
    + destruct (String.eqb k k0); [reflexivity | exact IH].
Qed.

Lemma dict_get_in_keys :
  forall V k (d : Dict.t V),
    In k (Dict.keys d) <-> exists v, Dict.get k d = Some v.
Proof.
  induction d as [|[k' v'] d IH]; simpl.
  - split; [tauto | intros [v H]; discriminate].
  - destruct (String.eqb_spec k k').
    + subst. split; eauto.
    + rewrite <- IH. split; [intros [H|H]; [congruence | exact H] | auto].
Qed.

Lemma dict_mem_in_keys :
  forall V k (d : Dict.t V), Dict.mem k d = true <-> In k (Dict.keys d).
Proof.
  intros V k d. unfold Dict.mem. rewrite dict_get_in_keys.
  destruct (Dict.get k d); split; intros H; eauto; try discriminate.
  destruct H as [v H]. discriminate.
Qed.

Lemma dict_get_in :
  forall V k (v : V) d, Dict.get k d = Some v -> In (k, v) d.
Proof.
  induction d as [|[k' v'] d IH]; simpl; intros H.
  - discriminate.
  - destruct (String.eqb_spec k k').
    + inversion H. subst. now left.
    + right. apply IH, H.
Qed.

Lemma dict_keys_set :
  forall V k k' (v : V) d,
    In k (Dict.keys (Dict.set k' v d)) <-> k = k' \/ In k (Dict.keys d).
Proof.
  intros V k k' v d. induction d as [|[k0 v0] d IH]; simpl.
  - intuition.
  - destruct (String.eqb_spec k' k0); simpl.
    + subst. intuition.
    + rewrite IH. intuition.
Qed.

Lemma dict_in_set :
  forall V k (v : V) k' v' d,
    In (k, v) (Dict.set k' v' d) -> (k = k' /\ v = v') \/ In (k, v) d.
Proof.
  intros V k v k' v' d. induction d as [|[k0 v0] d IH]; simpl; intros H.
  - destruct H as [H|[]]. inversion H. auto.
  - destruct (String.eqb_spec k' k0); simpl in H.
    + destruct H as [H|H]; [inversion H; subst; auto | auto].
    + destruct H as [H|H]; [auto | destruct (IH H); auto].
Qed.

Lemma mem_string_in : forall x l, mem_string x l = true <-> In x l.
Proof.
  intros x l. unfold mem_string. rewrite existsb_exists. split.
  - intros [y [Hin E]]. apply String.eqb_eq in E. now subst.
  - intros H. exists x. split; [exact H | apply String.eqb_refl].
Qed.

Lemma in_append_new : forall x y l, In x (append_new y l) <-> x = y \/ In x l.
Proof.
  intros x y l. unfold append_new. destruct (mem_string y l) eqn:E.
  - apply mem_string_in in E. split; [auto | intros [H|H]; [now subst | exact H]].
  - rewrite in_app_iff. simpl. intuition.
Qed.

(** ** Facts about the stable sort *)

Lemma insert_by_perm :
  forall A (key : A -> Z) x l, Permutation (x :: l) (insert_by key x l).
Proof.
  induction l as [|y l IH]; simpl.
  - apply Permutation_refl.
  - destruct (key x <=? key y)%Z; [apply Permutation_refl|].
    eapply perm_trans; [apply perm_swap | apply perm_skip, IH].
Qed.

Lemma sort_by_perm :
  forall A (key : A -> Z) l, Permutation l (sort_by key l).
Proof.
  induction l as [|x l IH]; simpl.
  - apply perm_nil.
  - eapply perm_trans; [apply perm_skip, IH | apply insert_by_perm].
Qed.

Lemma sort_by_in :
  forall A (key : A -> Z) l x, In x (sort_by key l) <-> In x l.
Proof.
  intros. split; intros H.
  - eapply Permutation_in; [apply Permutation_sym, sort_by_perm | exact H].
  - eapply Permutation_in; [apply sort_by_perm | exact H].
Qed.


(** ** The index built from the input *)

Lemma fold_left_invariant :
  forall (A B : Type) (P : A -> Prop) (f : A -> B -> A) (l : list B) (a : A),
    P a -> (forall a x, P a -> P (f a x)) -> P (fold_left f l a).
Proof.
  intros A B P f l. induction l as [|x l IH]; intros a Ha Hf; simpl.
  - exact Ha.
  - apply IH; [apply Hf, Ha | exact Hf].
Qed.

Lemma same_core_refl : forall a, same_core a a.
Proof. intros a. repeat split. Qed.

Lemma same_core_trans :
  forall a b c, same_core a b -> same_core b c -> same_core a c.
Proof.
  unfold same_core. intros a b c H1 H2.
  destruct H1 as (?&?&?&?&?&?&?), H2 as (?&?&?&?&?&?&?).
  repeat split; congruence.
Qed.

Lemma array_nested_fields_core :
  forall self it path, same_core self (_process_array_nested_fields self it path).
Proof.
  intros self it path. unfold _process_array_nested_fields.
  destruct (i_value it) as [v|]; [|apply same_core_refl].
  destruct (String.eqb v "array"); [|apply same_core_refl].
  destruct (usable_nested_fields it); repeat split.
Qed.

Lemma element_path_fields_core :
  forall self path parts,
    same_core self (_process_element_path_fields self path parts).
Proof.
  intros self path parts. unfold _process_element_path_fields.
  destruct (contains ".element." path); [|apply same_core_refl].
  destruct (_split_element_path path). repeat split.
Qed.

Lemma field_order_hierarchy_core :
  forall self parts, same_core self (_build_field_order_hierarchy self parts).
Proof.
  intros self parts. unfold _build_field_order_hierarchy.
  apply fold_left_invariant; [apply same_core_refl|].
  intros a i Ha. eapply same_core_trans; [exact Ha|]. repeat split.
Qed.

Lemma process_path_item_spec :
  forall tops self it p tops' self',
    i_path it = Some p ->
    process_path_item (tops, self) it = Ok (tops', self') ->
    input_data self' = input_data self
    /\ processed_paths self' = processed_paths self
    /\ original_order self' = original_order self
    /\ array_element_fields self' = array_element_fields self
    /\ nested_arrays self' = nested_arrays self
    /\ path_data self' = Dict.set p it (path_data self)
    /\ (top_level_items self' =
        if set_mem string_dec (top_segment it) tops
        then top_level_items self
        else (top_level_items self ++ [it])%list)
    /\ (tops' =
        if set_mem string_dec (top_segment it) tops
        then tops
        else set_add string_dec (top_segment it) tops).
Proof.
  intros tops self it p tops' self' Hp H.
  unfold process_path_item, getitem_path in H. rewrite Hp in H.
  cbn [bind] in H. unfold top_segment. rewrite Hp.
  destruct (set_mem string_dec (first (split "." p)) tops);
    inversion H; subst; clear H;
    match goal with
    | |- context [_build_field_order_hierarchy ?a ?b] =>
        pose proof (field_order_hierarchy_core a b) as H3
    end;
    match type of H3 with
    | context [_process_element_path_fields ?a ?b ?c] =>
        pose proof (element_path_fields_core a b c) as H2
    end;
    match type of H2 with
    | context [_process_array_nested_fields ?a ?b ?c] =>
        pose proof (array_nested_fields_core a b c) as H1
    end;
    pose proof (same_core_trans _ _ _ H1 (same_core_trans _ _ _ H2 H3)) as Hc;
    destruct Hc as (E1&E2&E3&E4&E5&E6&E7);
    rewrite <- E1, <- E2, <- E3, <- E4, <- E5, <- E6, <- E7;
    repeat split.
Qed.

Lemma process_path_items_spec :
  forall items tops self tops' self',
    for_each process_path_item items (tops, self) = Ok (tops', self') ->
    input_data self' = input_data self
    /\ processed_paths self' = processed_paths self
    /\ original_order self' = original_order self
    /\ array_element_fields self' = array_element_fields self
    /\ nested_arrays self' = nested_arrays self
    /\ path_data self' = index_paths items (path_data self)
    /\ top_level_items self'
       = (top_level_items self ++ first_of_segment tops items)%list.
Proof.
  induction items as [|it items IH]; intros tops self tops' self' H.
  - inversion H. subst. cbn. rewrite app_nil_r. repeat split.
  - cbn [for_each] in H.
    destruct (process_path_item (tops, self) it) as [[tops1 self1]|e] eqn:E;
      [|discriminate].
    cbn [bind] in H.
    assert (Hp : exists p, i_path it = Some p).
    { unfold process_path_item, getitem_path in E.
      destruct (i_path it); [eauto | discriminate]. }
    destruct Hp as [p Hp].
    destruct (process_path_item_spec _ _ _ _ _ _ Hp E)
      as (E1&E2&E3&E4&E5&E6&E7&E8).
    destruct (IH _ _ _ _ H) as (F1&F2&F3&F4&F5&F6&F7).
    rewrite F1, F2, F3, F4, F5, F6, F7, E1, E2, E3, E4, E5, E6, E7.
    repeat split.
    + unfold index_paths. cbn [fold_left]. rewrite Hp. reflexivity.
    + cbn [first_of_segment]. subst tops1.
      destruct (set_mem string_dec (top_segment it) tops);
        [reflexivity | now rewrite <- app_assoc].
Qed.

(** What [_preprocess_input] leaves in a fresh generator. *)
Lemma preprocess_input_spec :
  forall items self,
    _preprocess_input (new_generator items) = Ok self ->
    input_data self = items
    /\ processed_paths self = []
    /\ track_from 0%Z items Dict.empty = Ok (original_order self)
    /\ path_data self = index_paths items Dict.empty
    /\ top_level_items self = first_of_segment [] items.
Proof.
  intros items self H. unfold _preprocess_input, _track_original_order in H.
  cbn [input_data original_order new_generator set_array_nested_fields
       set_element_field_order] in H.
  destruct (track_from 0 items Dict.empty) as [order|e] eqn:E; [|discriminate].
  cbn [bind] in H. unfold _process_path_items in H.
  match type of H with
  | context [for_each process_path_item ?l (?t, ?s)] =>
      destruct (for_each process_path_item l (t, s)) as [[tops' self']|e] eqn:E';
      [|discriminate]
  end.
  cbn [input_data set_original_order] in E'.
  cbn [bind] in H. inversion H. subst self'. clear H.
  destruct (process_path_items_spec _ _ _ _ _ E') as (F1&F2&F3&F4&F5&F6&F7).
  rewrite F1, F2, F3, F6, F7. repeat split.
Qed.


Lemma fold_left_invariant_in :
  forall (A B : Type) (P : A -> Prop) (f : A -> B -> A) (l : list B) (a : A),
    P a -> (forall a x, In x l -> P a -> P (f a x)) -> P (fold_left f l a).
Proof.
  intros A B P f l. induction l as [|x l IH]; intros a Ha Hf; simpl.
  - exact Ha.
  - apply IH; [apply Hf; [now left | exact Ha] |].
    intros a' y Hy. apply Hf. now right.
Qed.

Lemma startswith_length :
  forall p s, startswith p s = true -> String.length p <= String.length s.
Proof.
  intros p s H. destruct (startswith_inv _ _ H) as [r E]. subst.
  rewrite string_app_length. lia.
Qed.

(** The segments of [split] and the separators between them make up the
    string. *)
Lemma split_scan_length :
  forall sep s k,
    sep <> "" ->
    segments_length (String.length sep) (split_scan sep k s)
      + Nat.min k (String.length s)
    = String.length s.
Proof.
  intros sep s. induction s as [|c s IH]; intros k Hsep.
  - cbn. now rewrite Nat.min_0_r.
  - cbn [split_scan]. destruct k as [|k].
    + destruct (startswith sep (String c s)) eqn:E.
      * pose proof (IH (String.length sep - 1) Hsep) as H.
        pose proof (startswith_length _ _ E) as Hl.
        assert (0 < String.length sep) by (destruct sep; [congruence | cbn; lia]).
        destruct (split_scan sep (String.length sep - 1) s) eqn:E2;
          [exfalso; eapply split_scan_nonempty; eauto|].
        cbn [segments_length String.length] in *. lia.
      * pose proof (IH 0 Hsep) as H.
        destruct (split_scan sep 0 s) as [|seg rest] eqn:E2;
          [exfalso; eapply split_scan_nonempty; eauto|].
        destruct rest; cbn [segments_length String.length] in *; lia.
    + pose proof (IH k Hsep) as H. cbn [String.length]. lia.
Qed.

Lemma split_length :
  forall sep s,
    sep <> "" -> segments_length (String.length sep) (split sep s) = String.length s.
Proof.
  intros sep s H. pose proof (split_scan_length sep s 0 H) as E.
  unfold split. cbn in E. lia.
Qed.

Lemma split1_first_length :
  forall sep s, String.length (first (split1 sep s)) <= String.length s.
Proof.
  intros sep s. induction s as [|c s IH]; cbn [split1].
  - destruct (startswith sep ""); cbn; lia.
  - destruct (startswith sep (String c s)); [cbn; lia|].
    destruct (split1 sep s) as [|seg rest]; cbn in *; lia.
Qed.

(** *** [_process_array_elements] *)

Lemma init_element_fields_below :
  forall self outer,
    elements_below self -> elements_below (init_element_fields self outer).
Proof.
  intros self outer H. unfold init_element_fields.
  destruct (Dict.mem outer (array_element_fields self)); [exact H|].
  intros a m f e Hget Hin. cbn in Hget.
  destruct (String.eqb_spec a outer).
  - subst. rewrite dict_get_set_same in Hget. inversion Hget. subst. destruct Hin.
  - rewrite dict_get_set_other in Hget by assumption. eapply H; eauto.
Qed.

Lemma set_element_field_below :
  forall self outer field path,
    elements_below self ->
    String.length outer < String.length path ->
    contains ".element." path = true ->
    elements_below (set_element_field self outer field path).
Proof.
  intros self outer field path H Hlen Hc a m f e Hget Hin.
  unfold set_element_field in Hget. cbn in Hget.
  destruct (String.eqb_spec a outer).
  - subst. rewrite dict_get_set_same in Hget. inversion Hget. subst. clear Hget.
    apply dict_in_set in Hin. destruct Hin as [[? ?]|Hin]; [subst; auto|].
    destruct (Dict.get outer (array_element_fields self)) eqn:E;
      [eapply H; eauto | destruct Hin].
  - rewrite dict_get_set_other in Hget by assumption. eapply H; eauto.
Qed.

Lemma set_nested_arrays_below :
  forall self v, elements_below self -> elements_below (set_nested_arrays self v).
Proof. intros self v H. exact H. Qed.

Lemma process_element_path_below :
  forall self path,
    contains ".element." path = true ->
    elements_below self -> elements_below (_process_element_path self path).
Proof.
  intros self path Hc H. unfold _process_element_path.
  pose proof (split_length ".element." path ltac:(discriminate)) as Hlen.
  destruct (split ".element." path) as [|a [|b rest]] eqn:E.
  - apply init_element_fields_below, H.
  - apply init_element_fields_below, H.
  - change (first (a :: b :: rest)) with a.
    destruct (Nat.ltb 2 (List.length (a :: b :: rest))) eqn:E2.
    + unfold _process_multilevel_element_path.
      change (nth 1 (a :: b :: rest) "") with b.
      destruct rest as [|c rest]; [discriminate|].
      pose proof (split1_first_length "." b) as Hf.
      assert (Hn : String.length (a ++ ".element." ++ first (split1 "." b))
                   < String.length path).
      { rewrite !string_app_length. cbn [segments_length] in Hlen.
        change (String.length ".element.") with 9 in *.
        destruct rest; lia. }
      match goal with
      | |- elements_below
             (if ?c then set_element_field ?s ?o ?f ?p
              else if ?d then (if ?g then set_element_field ?s ?o ?f' ?p else ?s)
                   else ?s) =>
          assert (Hs : elements_below s);
          [| destruct c; [apply set_element_field_below; assumption|];
             destruct d; [|exact Hs];
             destruct g; [apply set_element_field_below; assumption | exact Hs]]
      end.
      apply init_element_fields_below, set_nested_arrays_below.
      destruct (Dict.mem a (nested_arrays (init_element_fields self a)));
        [|apply set_nested_arrays_below]; apply init_element_fields_below, H.
    + destruct (Nat.eqb (List.length (a :: b :: rest)) 2) eqn:E3;
        [|apply init_element_fields_below, H].
      unfold _process_simple_element_path.
      apply set_element_field_below;
        [apply init_element_fields_below, H | | exact Hc].
      destruct rest; [|discriminate].
      cbn [segments_length] in Hlen.
      change (String.length ".element.") with 9 in *. lia.
Qed.

Lemma process_element_path_frame :
  forall self0 self path,
    same_but_elements self0 self ->
    same_but_elements self0 (_process_element_path self path).
Proof.
  intros self0 self path H.
  unfold _process_element_path, _process_multilevel_element_path,
    _process_simple_element_path, init_element_fields, set_element_field.
  repeat match goal with
         | |- context [if ?c then _ else _] => destruct c
         end; exact H.
Qed.

Lemma process_array_elements_spec :
  forall self,
    same_but_elements self (_process_array_elements self)
    /\ elements_below (_process_array_elements self).
Proof.
  intros self. unfold _process_array_elements. split.
  - apply fold_left_invariant; [repeat split|].
    intros a x Ha. apply process_element_path_frame, Ha.
  - apply fold_left_invariant_in.
    + intros a m f e Hget. discriminate.
    + intros a x Hin Ha. apply process_element_path_below; [|exact Ha].
      apply sort_by_in in Hin. apply filter_In in Hin. apply Hin.
Qed.

Lemma process_array_elements_flat :
  forall self,
    (forall p, In p (Dict.keys (path_data self)) -> contains ".element." p = false) ->
    array_element_fields (_process_array_elements self) = Dict.empty
    /\ nested_arrays (_process_array_elements self) = Dict.empty.
Proof.
  intros self H. unfold _process_array_elements.
  cbn [path_data set_nested_arrays set_array_element_fields].
  assert (E : filter (contains ".element.") (Dict.keys (path_data self)) = []).
  { induction (Dict.keys (path_data self)) as [|k ks IH]; [reflexivity|].
    cbn [filter]. rewrite (H k) by (now left). apply IH.
    intros p Hp. apply H. now right. }
  rewrite E. split; reflexivity.
Qed.


(** *** [path_data] and [top_level_items] *)

Lemma index_paths_keys :
  forall items d k,
    In k (Dict.keys (index_paths items d))
    <-> In k (Dict.keys d) \/ exists it, In it items /\ i_path it = Some k.
Proof.
  induction items as [|it items IH]; intros d k; cbn [index_paths fold_left].
  - split; [auto | intros [H|[it [[] _]]]; exact H].
  - fold (index_paths items) in *. rewrite IH. destruct (i_path it) as [p|] eqn:Hp.
    + rewrite dict_keys_set. split.
      * intros [[H|H]|[it' [H1 H2]]];
          [subst; right; exists it; split; [now left | exact Hp]
          | auto
          | right; exists it'; split; [now right | exact H2]].
      * intros [H|[it' [[H1|H1] H2]]];
          [auto
          | subst it'; left; left; congruence
          | right; eauto].
    + split.
      * intros [H|[it' [H1 H2]]]; [auto | right; exists it'; split; [now right | exact H2]].
      * intros [H|[it' [[H1|H1] H2]]]; [auto | subst; congruence | right; eauto].
Qed.

Lemma index_paths_get :
  forall items d k it,
    Dict.get k (index_paths items d) = Some it ->
    Dict.get k d = Some it \/ (In it items /\ i_path it = Some k).
Proof.
  induction items as [|x items IH]; intros d k it H; cbn [index_paths fold_left] in H.
  - now left.
  - fold (index_paths items) in H. apply IH in H.
    destruct H as [H|[H1 H2]]; [|right; split; [now right | exact H2]].
    destruct (i_path x) as [p|] eqn:Hp; [|now left].
    destruct (String.eqb_spec k p).
    + subst. rewrite dict_get_set_same in H. inversion H. subst.
      right. split; [now left | exact Hp].
    + rewrite dict_get_set_other in H by assumption. now left.
Qed.

Lemma index_paths_get_absent :
  forall items d k,
    (forall it, In it items -> i_path it <> Some k) ->
    Dict.get k (index_paths items d) = Dict.get k d.
Proof.
  induction items as [|x items IH]; intros d k H; cbn [index_paths fold_left].
  - reflexivity.
  - fold (index_paths items). rewrite IH by (intros it Hin; apply H; now right).
    destruct (i_path x) as [p|] eqn:Hp; [|reflexivity].
    apply dict_get_set_other. intros E. subst. apply (H x); [now left | exact Hp].
Qed.

(** With pairwise distinct paths, a path leads to its descriptor. *)
Lemma index_paths_get_unique :
  forall items d it p,
    NoDup (map i_path items) -> In it items -> i_path it = Some p ->
    Dict.get p (index_paths items d) = Some it.
Proof.
  induction items as [|x items IH]; intros d it p Hnd Hin Hp.
  - destruct Hin.
  - cbn [index_paths fold_left]. fold (index_paths items).
    inversion Hnd as [|? ? Hx Hnd']. subst. destruct Hin as [Hin|Hin].
    + subst x. rewrite Hp. rewrite index_paths_get_absent.
      * apply dict_get_set_same.
      * intros it' Hin' E. apply Hx. rewrite Hp, <- E. now apply in_map.
    + now apply IH.
Qed.

Lemma first_of_segment_all :
  forall items seen,
    NoDup (map top_segment items) ->
    (forall it, In it items -> ~ In (top_segment it) seen) ->
    first_of_segment seen items = items.
Proof.
  induction items as [|x items IH]; intros seen Hnd Hseen.
  - reflexivity.
  - cbn [first_of_segment]. inversion Hnd as [|? ? Hx Hnd']. subst.
    destruct (set_mem string_dec (top_segment x) seen) eqn:E.
    + apply set_mem_correct1 in E. exfalso. apply (Hseen x); [now left | exact E].
    + f_equal. apply IH; [exact Hnd'|].
      intros it Hin Hs. apply set_add_elim in Hs. destruct Hs as [Hs|Hs].
      * apply Hx. rewrite <- Hs. now apply in_map.
      * apply (Hseen it); [now right | exact Hs].
Qed.

Lemma first_of_segment_incl :
  forall items seen it, In it (first_of_segment seen items) -> In it items.
Proof.
  induction items as [|x items IH]; intros seen it H; cbn [first_of_segment] in H.
  - destruct H.
  - destruct (set_mem string_dec (top_segment x) seen).
    + right. eapply IH, H.
    + destruct H as [H|H]; [now left | right; eapply IH, H].
Qed.


(** ** Descriptors without a path or a kind *)

Lemma track_from_paths :
  forall items idx order,
    forallb has_path items = true ->
    exists order', track_from idx items order = Ok order'.
Proof.
  induction items as [|it items IH]; intros idx order H; simpl in *.
  - eauto.
  - apply andb_prop in H. destruct H as [Hp H].
    unfold has_path in Hp. unfold getitem_path.
    destruct (i_path it); [|discriminate]. simpl. apply IH, H.
Qed.

Lemma track_from_missing_path :
  forall items idx order,
    forallb has_path items = false ->
    track_from idx items order = Raise (KeyError "path").
Proof.
  induction items as [|it items IH]; intros idx order H; simpl in *.
  - discriminate.
  - unfold has_path in H at 1. unfold getitem_path.
    destruct (i_path it); simpl in *; [apply IH, H | reflexivity].
Qed.

Lemma process_path_item_paths :
  forall it acc, has_path it = true ->
                 exists acc', process_path_item acc it = Ok acc'.
Proof.
  intros it [tops self] H. unfold process_path_item, getitem_path.
  unfold has_path in H. destruct (i_path it) as [p|]; [|discriminate]. simpl.
  destruct (set_mem string_dec (first (split "." p)) tops); eauto.
Qed.

Lemma process_path_items_paths :
  forall items acc,
    forallb has_path items = true ->
    exists acc', for_each process_path_item items acc = Ok acc'.
Proof.
  induction items as [|it items IH]; intros acc H; simpl in *.
  - eauto.
  - apply andb_prop in H. destruct H as [Hp H].
    destruct (process_path_item_paths it acc Hp) as [acc' E]. rewrite E. simpl.
    apply IH, H.
Qed.

Lemma preprocess_input_total :
  forall items,
    forallb has_path items = true ->
    exists self, _preprocess_input (new_generator items) = Ok self.
Proof.
  intros items H. unfold _preprocess_input, _track_original_order. simpl.
  destruct (track_from_paths items 0%Z Dict.empty H) as [order E].
  rewrite E. simpl. unfold _process_path_items. simpl.
  match goal with
  | |- context [for_each process_path_item items ?a] =>
      destruct (process_path_items_paths items a H) as [[tops self] E']
  end.
  rewrite E'. simpl. eauto.
Qed.

(** C5, as the code has it: the index build reads the path of every
    descriptor and nothing else of it.  When every descriptor has a path the
    build succeeds, whether or not a kind is missing; when some descriptor
    has no path, [_track_original_order] raises [KeyError] on it, so the
    build and the whole generation fail before any rendering. *)
Theorem index_build_checks_paths_only :
  forall items : list item,
    if forallb has_path items
    then exists self, _preprocess_input (new_generator items) = Ok self
    else _track_original_order (new_generator items) = Raise (KeyError "path")
         /\ _preprocess_input (new_generator items) = Raise (KeyError "path")
         /\ generate_sql (new_generator items) = Raise (KeyError "path").
Proof.
  intros items. destruct (forallb has_path items) eqn:H.
  - apply preprocess_input_total, H.
  - assert (E : _track_original_order (new_generator items)
                = Raise (KeyError "path")).
    { unfold _track_original_order. simpl.
      rewrite (track_from_missing_path items 0%Z Dict.empty H). reflexivity. }
    assert (E' : _preprocess_input (new_generator items)
                 = Raise (KeyError "path")).
    { unfold _preprocess_input. simpl.
      unfold _track_original_order in *. simpl in *.
      destruct (track_from 0 items Dict.empty); [discriminate|].
      simpl in *. exact E. }
    repeat split; [exact E | exact E' |].
    unfold generate_sql, column_definitions_of. rewrite E'. reflexivity.
Qed.


(** ** Input without nested paths *)

Lemma not_contains_marker :
  forall p, contains "." p = false -> contains ".element." p = false.
Proof.
  intros p H. destruct (contains ".element." p) eqn:E; [|reflexivity].
  apply contains_first_char in E. congruence.
Qed.

Lemma has_children_flat :
  forall self p,
    (forall k, In k (Dict.keys (path_data self)) -> contains "." k = false) ->
    _has_children self p = false.
Proof.
  intros self p H. unfold _has_children.
  destruct (existsb _ _) eqn:E; [|reflexivity].
  apply existsb_exists in E. destruct E as [k [Hin Hk]].
  apply andb_prop in Hk. destruct Hk as [_ Hk].
  destruct (startswith_inv _ _ Hk) as [r Hr].
  rewrite string_app_assoc in Hr.
  pose proof (contains_intro "." p r) as Hc. rewrite <- Hr in Hc.
  rewrite (H k Hin) in Hc. discriminate.
Qed.




(** *** The processed set *)

Lemma is_processed_add :
  forall self p q,
    is_processed (add_processed self p) q = String.eqb q p || is_processed self q.
Proof.
  intros self p q. unfold is_processed, add_processed. cbn [processed_paths set_processed_paths].
  destruct (String.eqb_spec q p).
  - subst. apply set_mem_correct2, set_add_intro2. reflexivity.
  - cbn [orb]. destruct (set_mem string_dec q (processed_paths self)) eqn:E.
    + apply set_mem_correct2, set_add_intro1, set_mem_correct1 with (Aeq_dec := string_dec), E.
    + apply set_mem_complete2. intros H. apply set_add_elim in H.
      destruct H as [H|H]; [contradiction|].
      apply set_mem_complete1 in E. contradiction.
Qed.

(** Forgetting the descriptors of the traced loop gives the loop of the
    source. *)
Lemma collect_traced_erase :
  forall step items self,
    collect_definitions step items self
    = match collect_traced step items self with
      | Ok (emitted, self') => Ok (map snd emitted, self')
      | Raise e => Raise e
      end.
Proof.
  intros step items. induction items as [|it items IH]; intros self.
  - reflexivity.
  - cbn [collect_definitions collect_traced].
    destruct (step self it) as [[d self1]|e]; [|reflexivity]. cbn [bind].
    rewrite IH.
    destruct (collect_traced step items self1) as [[emitted self2]|e];
      [|reflexivity].
    cbn [bind]. destruct d; reflexivity.
Qed.

Lemma traced_definitions_erase :
  forall self,
    column_definitions_of self
    = match traced_definitions_of self with
      | Ok (emitted, self') => Ok (map snd emitted, self')
      | Raise e => Raise e
      end.
Proof.
  intros self. unfold column_definitions_of, traced_definitions_of.
  destruct (_preprocess_input self) as [self0|e]; [|reflexivity]. cbn [bind].
  unfold _process_top_level_items, _process_remaining_items.
  rewrite collect_traced_erase.
  destruct (collect_traced top_level_step _ _) as [[emitted self1]|e];
    [|reflexivity].
  cbn [bind].
  destruct (_get_remaining_items self1) as [remaining|e]; [|reflexivity].
  cbn [bind]. rewrite collect_traced_erase.
  destruct (collect_traced remaining_step _ _) as [[more self2]|e];
    [|reflexivity].
  cbn [bind]. now rewrite map_app.
Qed.

Lemma remaining_of_all_processed :
  forall self items,
    (forall it, In it items ->
                exists p, i_path it = Some p /\ is_processed self p = true) ->
    remaining_of self items = Ok [].
Proof.
  intros self items. induction items as [|it items IH]; intros H.
  - reflexivity.
  - cbn [remaining_of]. destruct (H it (or_introl eq_refl)) as [p [Hp Hproc]].
    unfold getitem_path. rewrite Hp. cbn [bind].
    rewrite IH by (intros it' Hin; apply H; now right).
    cbn [bind]. rewrite Hproc. reflexivity.
Qed.





(** ** The element struct of an array *)

Lemma insert_by_sorted :
  forall A (key : A -> Z) x l,
    StronglySorted (fun a b => (key a <= key b)%Z) l ->
    StronglySorted (fun a b => (key a <= key b)%Z) (insert_by key x l).
Proof.
  intros A key x l H. induction H as [|y l Hl IH Hy]; cbn [insert_by].
  - constructor; constructor.
  - destruct (Z.leb_spec (key x) (key y)).
    + constructor; [constructor; assumption|].
      constructor; [assumption|].
      rewrite Forall_forall in *. intros z Hz. specialize (Hy z Hz). lia.
    + constructor; [exact IH|].
      rewrite Forall_forall in *. intros z Hz.
      apply (Permutation_in _ (Permutation_sym (insert_by_perm A key x l))) in Hz.
      destruct Hz as [Hz|Hz]; [subst; lia | apply Hy, Hz].
Qed.

Lemma sort_by_sorted :
  forall A (key : A -> Z) l,
    StronglySorted (fun a b => (key a <= key b)%Z) (sort_by key l).
Proof.
  intros A key l. induction l as [|x l IH]; cbn [sort_by fold_right].
  - constructor.
  - apply insert_by_sorted, IH.
Qed.

Lemma dict_set_nodup :
  forall V k (v : V) d, NoDup (Dict.keys d) -> NoDup (Dict.keys (Dict.set k v d)).
Proof.
  intros V k v d. induction d as [|[k0 v0] d IH]; intros H; cbn [Dict.set].
  - repeat constructor. intros [].
  - inversion H as [|? ? Hk Hd]. subst.
    destruct (String.eqb_spec k k0); cbn [Dict.keys map fst].
    + constructor; assumption.
    + constructor; [|apply IH, Hd].
      intros Hin. apply dict_keys_set in Hin. destruct Hin as [Hin|Hin];
        [congruence | contradiction].
Qed.

(** The loop of [_format_array_struct_content] over names that are pairwise
    distinct never meets a name twice: it appends one line per name. *)
Lemma array_fields_loop :
  forall content self indent_level all_fields names struct_fields processed_fields,
    NoDup names ->
    (forall x, In x names -> ~ In x processed_fields) ->
    exists processed_fields',
      for_each
        (fun (acc : field_acc) field_name =>
           let '(struct_fields, processed_fields) := acc in
           match Dict.get field_name all_fields with
           | None => Raise (KeyError field_name)
           | Some field_info =>
               if set_mem string_dec field_name processed_fields then Ok acc
               else
                 line <-
                   match field_info with
                   | NestedFieldInfo _ nf =>
                       Ok (_format_nestedfield field_name nf
                             (spaces (indent_level * 4)))
                   | RegularInfo _ element_path =>
                       _format_regular_field content self field_name
                         element_path (spaces (indent_level * 4)) indent_level
                   | NestedArrayInfo _ nested_array_path =>
                       _format_nested_array_field self field_name
                         nested_array_path (spaces (indent_level * 4))
                         indent_level
                   end ;;
                 Ok ((struct_fields ++ [line])%list,
                     set_add string_dec field_name processed_fields)
           end)
        names (struct_fields, processed_fields)
      = (lines <- map_result
                    (array_field_line content self indent_level all_fields) names ;;
         Ok ((struct_fields ++ lines)%list, processed_fields')).
Proof.
  intros content self indent_level all_fields names.
  induction names as [|x names IH]; intros sf pf Hnd Hpf.
  - exists pf. cbn. now rewrite app_nil_r.
  - inversion Hnd as [|? ? Hx Hnd']. subst.
    cbn [for_each map_result]. unfold array_field_line at 1.
    destruct (Dict.get x all_fields) as [fi|] eqn:Eg.
    2:{ exists pf. reflexivity. }
    assert (Em : set_mem string_dec x pf = false).
    { apply set_mem_complete2. apply Hpf. now left. }
    rewrite Em. cbv zeta.
    assert (Hstep : forall line, exists pf',
               for_each
                 (fun (acc : field_acc) field_name =>
                    let '(struct_fields, processed_fields) := acc in
                    match Dict.get field_name all_fields with
                    | None => Raise (KeyError field_name)
                    | Some field_info =>
                        if set_mem string_dec field_name processed_fields then Ok acc
                        else
                          line <-
                            match field_info with
                            | NestedFieldInfo _ nf =>
                                Ok (_format_nestedfield field_name nf
                                      (spaces (indent_level * 4)))
                            | RegularInfo _ element_path =>
                                _format_regular_field content self field_name
                                  element_path (spaces (indent_level * 4)) indent_level
                            | NestedArrayInfo _ nested_array_path =>
                                _format_nested_array_field self field_name
                                  nested_array_path (spaces (indent_level * 4))
                                  indent_level
                            end ;;
                          Ok ((struct_fields ++ [line])%list,
                              set_add string_dec field_name processed_fields)
                    end)
                 names ((sf ++ [line])%list, set_add string_dec x pf)
               = (ys <- map_result
                          (array_field_line content self indent_level all_fields)
                          names ;;
                  Ok ((sf ++ line :: ys)%list, pf'))).
    { intros line.
      destruct (IH (sf ++ [line])%list (set_add string_dec x pf) Hnd')
        as [pf' E].
      { intros y Hy Hin. apply set_add_elim in Hin. destruct Hin as [Hin|Hin].
        - subst y. contradiction.
        - apply (Hpf y); [now right | exact Hin]. }
      exists pf'. etransitivity; [exact E|].
      destruct (map_result _ names); cbn [bind]; [|reflexivity].
      now rewrite <- app_assoc. }
    destruct fi as [o nf|o e|o np].
    + destruct (Hstep (_format_nestedfield x nf (spaces (indent_level * 4))))
        as [pf' E].
      exists pf'. rewrite !bind_ok. etransitivity; [exact E|].
      destruct (map_result _ names); reflexivity.
    + destruct (_format_regular_field content self x e _ indent_level)
        as [line|err]; [|exists pf; reflexivity].
      destruct (Hstep line) as [pf' E].
      exists pf'. rewrite !bind_ok. etransitivity; [exact E|].
      destruct (map_result _ names); reflexivity.
    + destruct (_format_nested_array_field self x np _ indent_level)
        as [line|err]; [|exists pf; reflexivity].
      destruct (Hstep line) as [pf' E].
      exists pf'. rewrite !bind_ok. etransitivity; [exact E|].
      destruct (map_result _ names); reflexivity.
Qed.


Lemma merge_nested_arrays_cons :
  forall self np l d,
    merge_nested_arrays self (np :: l) d
    = merge_nested_arrays self l
        (Dict.set (last_segment np) (NestedArrayInfo (order_of self np) np) d).
Proof. reflexivity. Qed.

Lemma merge_element_fields_cons :
  forall self f e m d,
    merge_element_fields self ((f, e) :: m) d
    = merge_element_fields self m
        (if Dict.mem e (path_data self)
         then Dict.set f (RegularInfo (order_of self e) e) d
         else d).
Proof. reflexivity. Qed.

Lemma merge_nested_arrays_other :
  forall self l d name,
    ~ In name (map last_segment l) ->
    Dict.get name (merge_nested_arrays self l d) = Dict.get name d.
Proof.
  intros self l. induction l as [|np l IH]; intros d name H.
  - reflexivity.
  - rewrite merge_nested_arrays_cons.
    rewrite IH by (intros Hin; apply H; now right).
    apply dict_get_set_other. intros E. apply H. left. now subst.
Qed.

Lemma merge_nested_arrays_in :
  forall self l d np,
    In np l ->
    exists np',
      In np' l /\ last_segment np' = last_segment np
      /\ Dict.get (last_segment np) (merge_nested_arrays self l d)
         = Some (NestedArrayInfo (order_of self np') np').
Proof.
  intros self l. induction l as [|x l IH]; intros d np Hin.
  - destruct Hin.
  - rewrite merge_nested_arrays_cons.
    destruct (in_dec string_dec (last_segment np) (map last_segment l)) as [Hl|Hl].
    + apply in_map_iff in Hl. destruct Hl as [y [Ey Hy]].
      destruct (IH (Dict.set (last_segment x)
                      (NestedArrayInfo (order_of self x) x) d) y Hy)
        as [np' [H1 [H2 H3]]].
      exists np'. split; [now right|]. split; [congruence|].
      rewrite <- Ey. exact H3.
    + destruct Hin as [Hin|Hin]; [|exfalso; apply Hl; now apply in_map].
      subst x. exists np. split; [now left|]. split; [reflexivity|].
      rewrite merge_nested_arrays_other by exact Hl.
      apply dict_get_set_same.
Qed.

Lemma merge_element_fields_other :
  forall self m d name,
    (forall e, In (name, e) m -> Dict.mem e (path_data self) = false) ->
    Dict.get name (merge_element_fields self m d) = Dict.get name d.
Proof.
  intros self m. induction m as [|[f e] m IH]; intros d name H.
  - reflexivity.
  - rewrite merge_element_fields_cons.
    rewrite IH by (intros e' Hin; apply H; now right).
    destruct (Dict.mem e (path_data self)) eqn:Em; [|reflexivity].
    apply dict_get_set_other. intros E. subst f.
    rewrite (H e) in Em by (now left). discriminate.
Qed.

Lemma merge_element_fields_in :
  forall self m d f e,
    In (f, e) m -> Dict.mem e (path_data self) = true ->
    exists e',
      In (f, e') m /\ Dict.mem e' (path_data self) = true
      /\ Dict.get f (merge_element_fields self m d)
         = Some (RegularInfo (order_of self e') e').
Proof.
  intros self m. induction m as [|[f0 e0] m IH]; intros d f e Hin Hmem.
  - destruct Hin.
  - rewrite merge_element_fields_cons.
    destruct (existsb (fun x => String.eqb (fst x) f
                                && Dict.mem (snd x) (path_data self)) m) eqn:Ex.
    + apply existsb_exists in Ex. destruct Ex as [[f1 e1] [H1 H2]].
      apply andb_prop in H2. cbn [fst snd] in H2. destruct H2 as [H2 H3].
      apply String.eqb_eq in H2. subst f1.
      destruct (IH (if Dict.mem e0 (path_data self)
                    then Dict.set f0 (RegularInfo (order_of self e0) e0) d
                    else d) f e1 H1 H3) as [e' [G1 [G2 G3]]].
      exists e'. split; [now right|]. split; assumption.
    + destruct Hin as [Hin|Hin].
      * inversion Hin. subst f0 e0. exists e. split; [now left|].
        split; [exact Hmem|]. rewrite Hmem.
        rewrite merge_element_fields_other; [apply dict_get_set_same|].
        intros e' He'. destruct (Dict.mem e' (path_data self)) eqn:Em; [|reflexivity].
        assert (Hc : existsb (fun x => String.eqb (fst x) f
                                       && Dict.mem (snd x) (path_data self)) m = true).
        { apply existsb_exists. exists (f, e'). split; [exact He'|].
          cbn [fst snd]. now rewrite String.eqb_refl, Em. }
        congruence.
      * exfalso.
        assert (Hc : existsb (fun x => String.eqb (fst x) f
                                       && Dict.mem (snd x) (path_data self)) m = true).
        { apply existsb_exists. exists (f, e). split; [exact Hin|].
          cbn [fst snd]. now rewrite String.eqb_refl, Hmem. }
        congruence.
Qed.

Lemma merge_element_fields_nodup :
  forall self m d,
    NoDup (Dict.keys d) -> NoDup (Dict.keys (merge_element_fields self m d)).
Proof.
  intros self m d H. unfold merge_element_fields.
  apply fold_left_invariant; [exact H|].
  intros a [f e] Ha. destruct (Dict.mem e (path_data self)); [|exact Ha].
  apply dict_set_nodup, Ha.
Qed.

Lemma merge_nested_arrays_nodup :
  forall self l d,
    NoDup (Dict.keys d) -> NoDup (Dict.keys (merge_nested_arrays self l d)).
Proof.
  intros self l d H. unfold merge_nested_arrays.
  apply fold_left_invariant; [exact H|].
  intros a np Ha. apply dict_set_nodup, Ha.
Qed.

Lemma entries_keyed_set :
  forall self n0 nf0 d k fi,
    entries_keyed self n0 nf0 d ->
    match fi with
    | NestedFieldInfo o nf => k = n0 /\ o = (-1)%Z /\ nf = nf0
    | RegularInfo o e => o = order_of self e
    | NestedArrayInfo o np => o = order_of self np
    end ->
    entries_keyed self n0 nf0 (Dict.set k fi d).
Proof.
  intros self n0 nf0 d k fi H Hfi x fi' Hget.
  destruct (String.eqb_spec x k).
  - subst. rewrite dict_get_set_same in Hget. inversion Hget. subst. exact Hfi.
  - rewrite dict_get_set_other in Hget by assumption. apply (H x fi' Hget).
Qed.

Lemma merge_element_fields_keyed :
  forall self n0 nf0 m d,
    entries_keyed self n0 nf0 d ->
    entries_keyed self n0 nf0 (merge_element_fields self m d).
Proof.
  intros self n0 nf0 m d H. unfold merge_element_fields.
  apply fold_left_invariant; [exact H|].
  intros a [f e] Ha. destruct (Dict.mem e (path_data self)); [|exact Ha].
  apply entries_keyed_set; [exact Ha | reflexivity].
Qed.

Lemma merge_nested_arrays_keyed :
  forall self n0 nf0 l d,
    entries_keyed self n0 nf0 d ->
    entries_keyed self n0 nf0 (merge_nested_arrays self l d).
Proof.
  intros self n0 nf0 l d H. unfold merge_nested_arrays.
  apply fold_left_invariant; [exact H|].
  intros a np Ha. apply entries_keyed_set; [exact Ha | reflexivity].
Qed.

(** [_collect_array_fields] as the two merges over the entry of the
    [nestedFields] descriptor. *)
Lemma collect_array_fields_merges :
  forall self array_path all_fields,
    _collect_array_fields self array_path = Ok all_fields ->
    exists start,
      all_fields
      = merge_nested_arrays self (Dict.get_list array_path (nested_arrays self))
          (merge_element_fields self
             (match Dict.get array_path (array_element_fields self) with
              | Some m => m
              | None => []
              end) start)
      /\ (start = []
          \/ exists it nf,
               Dict.get array_path (path_data self) = Some it
               /\ usable_nested_fields it = Some (NFDict nf)
               /\ start = [(nested_field_name nf, NestedFieldInfo (-1)%Z nf)])
      /\ (forall it nf,
             Dict.get array_path (path_data self) = Some it ->
             usable_nested_fields it = Some (NFDict nf) ->
             start = [(nested_field_name nf, NestedFieldInfo (-1)%Z nf)]).
Proof.
  intros self array_path all_fields H. unfold _collect_array_fields in H.
  destruct (Dict.get array_path (path_data self)) as [it|] eqn:Eit.
  - destruct (usable_nested_fields it) as [[| |nf]|] eqn:Eu; try discriminate.
    + exists [(nested_field_name nf, NestedFieldInfo (-1)%Z nf)].
      rewrite bind_ok in H. inversion H. split; [|split].
      * unfold merge_nested_arrays, merge_element_fields.
        destruct (Dict.get array_path (array_element_fields self)); reflexivity.
      * right. exists it, nf. repeat split. exact Eu.
      * intros it' nf' E1 E2. inversion E1. subst it'. rewrite Eu in E2.
        inversion E2. reflexivity.
    + exists []. rewrite bind_ok in H. inversion H. split; [|split].
      * unfold merge_nested_arrays, merge_element_fields.
        destruct (Dict.get array_path (array_element_fields self)); reflexivity.
      * now left.
      * intros it' nf' E1 E2. inversion E1. subst it'. rewrite Eu in E2. discriminate.
  - exists []. rewrite bind_ok in H. inversion H. split; [|split].
    + unfold merge_nested_arrays, merge_element_fields.
      destruct (Dict.get array_path (array_element_fields self)); reflexivity.
    + now left.
    + intros it' nf' E1. discriminate.
Qed.


Lemma track_from_nonneg :
  forall items idx order order',
    (0 <= idx)%Z ->
    (forall k v, Dict.get k order = Some v -> (0 <= v)%Z) ->
    track_from idx items order = Ok order' ->
    forall k v, Dict.get k order' = Some v -> (0 <= v)%Z.
Proof.
  induction items as [|it items IH]; intros idx order order' Hidx Hord H.
  - inversion H. subst. exact Hord.
  - cbn [track_from] in H. unfold getitem_path in H.
    destruct (i_path it) as [p|]; [|discriminate]. rewrite bind_ok in H.
    apply (IH (idx + 1)%Z (Dict.set p idx order)); [lia | | exact H].
    intros k v Hk. destruct (String.eqb_spec k p).
    + subst. rewrite dict_get_set_same in Hk. inversion Hk. lia.
    + rewrite dict_get_set_other in Hk by assumption. eapply Hord, Hk.
Qed.

(** In the index built from a list, no original order is negative. *)
Lemma order_of_indexed_nonneg :
  forall items p, (0 <= order_of (indexed_state items) p)%Z.
Proof.
  intros items p. unfold indexed_state.
  destruct (_preprocess_input (new_generator items)) as [self0|e] eqn:E.
  - destruct (preprocess_input_spec items self0 E) as (_ & _ & Ht & _).
    destruct (process_array_elements_spec self0) as [(_ & _ & Ho & _) _].
    unfold order_of. rewrite <- Ho.
    destruct (Dict.get p (original_order self0)) as [v|] eqn:Ev; [|lia].
    eapply (track_from_nonneg items 0%Z Dict.empty); [lia | | exact Ht | exact Ev].
    intros k v' Hk. discriminate.
  - cbn. lia.
Qed.


(** What [_collect_array_fields] gathers, and how
    [_format_array_struct_content] lists it: a later source replaces an
    earlier one of the same name, and the names come by ascending key. *)
Lemma array_struct_fields_merged :
  forall (content : string -> nat -> result string) (self : generator)
         (array_path : string) (indent_level : nat)
         (all_fields : Dict.t field_info),
    _collect_array_fields self array_path = Ok all_fields ->
    (forall p, (0 <= order_of self p)%Z) ->
    let nested := Dict.get_list array_path (nested_arrays self) in
    let names := sort_by (field_key all_fields) (Dict.keys all_fields) in
    (forall np, In np nested ->
       exists np',
         In np' nested /\ last_segment np' = last_segment np
         /\ Dict.get (last_segment np) all_fields
            = Some (NestedArrayInfo (order_of self np') np'))
    /\ (forall m f e,
           Dict.get array_path (array_element_fields self) = Some m ->
           In (f, e) m -> Dict.mem e (path_data self) = true ->
           ~ In f (map last_segment nested) ->
           exists e',
             In (f, e') m
             /\ Dict.get f all_fields = Some (RegularInfo (order_of self e') e'))
    /\ (forall it nf,
           Dict.get array_path (path_data self) = Some it ->
           usable_nested_fields it = Some (NFDict nf) ->
           ~ In (nested_field_name nf) (map last_segment nested) ->
           (forall m e,
               Dict.get array_path (array_element_fields self) = Some m ->
               In (nested_field_name nf, e) m ->
               Dict.mem e (path_data self) = false) ->
           Dict.get (nested_field_name nf) all_fields
           = Some (NestedFieldInfo (-1)%Z nf))
    /\ StronglySorted
         (fun a b => (field_key all_fields a <= field_key all_fields b)%Z) names
    /\ Permutation (Dict.keys all_fields) names
    /\ (forall n o nf,
           Dict.get n all_fields = Some (NestedFieldInfo o nf) ->
           first names = n)
    /\ _format_array_struct_content content self array_path indent_level
       = (lines <- map_result
                     (array_field_line content self indent_level all_fields)
                     names ;;
          Ok (join ("," ++ nl) lines)).
Proof.
  intros content self array_path indent_level all_fields Hc Hord nested names.
  destruct (collect_array_fields_merges self array_path all_fields Hc)
    as (start & Hall & Hstart & Hnf).
  fold nested in Hall.
  set (m0 := match Dict.get array_path (array_element_fields self) with
             | Some m => m
             | None => []
             end) in *.
  assert (Hsorted : StronglySorted
            (fun a b => (field_key all_fields a <= field_key all_fields b)%Z)
            names) by apply sort_by_sorted.
  assert (Hperm : Permutation (Dict.keys all_fields) names) by apply sort_by_perm.
  assert (Hnd : NoDup names).
  { apply (Permutation_NoDup Hperm). rewrite Hall.
    apply merge_nested_arrays_nodup, merge_element_fields_nodup.
    destruct Hstart as [E|(it & nf & _ & _ & E)]; rewrite E; cbn.
    - constructor.
    - repeat constructor. intros []. }
  assert (Hkeyed : exists n0 nf0, entries_keyed self n0 nf0 all_fields).
  { destruct Hstart as [E|(it & nf & _ & _ & E)].
    - exists "", {| nf_name := None; nf_type := None; nf_doc := None |}.
      rewrite Hall. apply merge_nested_arrays_keyed, merge_element_fields_keyed.
      rewrite E. intros x fi Hx. discriminate.
    - exists (nested_field_name nf), nf.
      rewrite Hall. apply merge_nested_arrays_keyed, merge_element_fields_keyed.
      rewrite E. intros x fi Hx. cbn [Dict.get] in Hx.
      destruct (String.eqb_spec x (nested_field_name nf)); [|discriminate].
      inversion Hx. subst. repeat split. }
  refine (conj _ (conj _ (conj _ (conj _ (conj _ (conj _ _)))))).
  - intros np Hin. rewrite Hall. apply merge_nested_arrays_in, Hin.
  - intros m f e Hm Hin Hmem Hnot. rewrite Hall.
    rewrite merge_nested_arrays_other by exact Hnot.
    subst m0. rewrite Hm.
    destruct (merge_element_fields_in self m start f e Hin Hmem)
      as (e' & H1 & _ & H3).
    exists e'. split; assumption.
  - intros it nf Hit Hu Hnot Hreg. rewrite Hall.
    rewrite merge_nested_arrays_other by exact Hnot.
    rewrite merge_element_fields_other.
    + rewrite (Hnf it nf Hit Hu). cbn [Dict.get]. now rewrite String.eqb_refl.
    + intros e He. subst m0.
      destruct (Dict.get array_path (array_element_fields self)) as [m|] eqn:Em;
        [eapply Hreg; eauto | destruct He].
  - exact Hsorted.
  - exact Hperm.
  - intros n o nf Hn. destruct Hkeyed as (n0 & nf0 & Hk).
    pose proof (Hk n _ Hn) as (En & Eo & _). subst o.
    assert (Hin : In n names).
    { apply (Permutation_in _ Hperm). apply dict_get_in_keys. eauto. }
    destruct names as [|h t]; [destruct Hin|]. cbn [first hd].
    destruct Hin as [Hin|Hin]; [exact Hin|].
    apply StronglySorted_inv in Hsorted. destruct Hsorted as [_ Hle].
    rewrite Forall_forall in Hle. specialize (Hle n Hin).
    unfold field_key in Hle at 2. rewrite Hn in Hle. cbn [info_order] in Hle.
    assert (Hh : In h (Dict.keys all_fields)).
    { apply (Permutation_in _ (Permutation_sym Hperm)). now left. }
    apply dict_get_in_keys in Hh. destruct Hh as [fi Hfi].
    unfold field_key in Hle. rewrite Hfi in Hle.
    pose proof (Hk h fi Hfi) as Hh.
    destruct fi as [o' nf'|o' e'|o' np']; cbn [info_order] in Hle.
    + destruct Hh as (Eh & _). congruence.
    + subst o'. specialize (Hord e'). lia.
    + subst o'. specialize (Hord np'). lia.
  - unfold _format_array_struct_content. rewrite Hc, bind_ok.
    destruct (array_fields_loop content self indent_level all_fields names []
                (empty_set string) Hnd) as [pf' E].
    { intros x _ []. }
    fold (field_key all_fields). fold names.
    etransitivity; [apply f_equal2; [exact E | reflexivity]|].
    destruct (map_result _ names); reflexivity.
Qed.


(** ** Rendering succeeds on a well-formed index *)

Lemma well_formed_item_inv :
  forall it,
    well_formed_item it = true ->
    (exists p, i_path it = Some p /\ p <> "")
    /\ (exists v, i_value it = Some v)
    /\ nested_fields_named it = true.
Proof.
  intros it H. unfold well_formed_item in H.
  apply andb_prop in H. destruct H as [H Hn].
  apply andb_prop in H. destruct H as [Hp Hv].
  split; [|split; [|exact Hn]].
  - destruct (i_path it) as [p|]; [|discriminate]. exists p. split; [reflexivity|].
    apply negb_true_iff, String.eqb_neq in Hp. exact Hp.
  - unfold has_value in Hv. destruct (i_value it) as [v|]; [eauto | discriminate].
Qed.

Lemma map_result_ok :
  forall (A B : Type) (f : A -> result B) (l : list A),
    (forall x, In x l -> exists y, f x = Ok y) ->
    exists ys, map_result f l = Ok ys.
Proof.
  intros A B f l. induction l as [|x l IH]; intros H.
  - exists []. reflexivity.
  - destruct (H x (or_introl eq_refl)) as [y Ey].
    destruct IH as [ys Eys]; [intros z Hz; apply H; now right|].
    exists (y :: ys). cbn [map_result]. now rewrite Ey, bind_ok, Eys, bind_ok.
Qed.

Lemma for_each_ok :
  forall (A S : Type) (body : S -> A -> result S) (l : list A) (s : S),
    (forall s x, In x l -> exists s', body s x = Ok s') ->
    exists s', for_each body l s = Ok s'.
Proof.
  intros A S body l. induction l as [|x l IH]; intros s H.
  - exists s. reflexivity.
  - destruct (H s x (or_introl eq_refl)) as [s1 E1].
    destruct (IH s1) as [s2 E2]; [intros s' z Hz; apply H; now right|].
    exists s2. cbn [for_each]. now rewrite E1, bind_ok.
Qed.

Lemma find_definition_ok :
  forall items path,
    well_formed items = true ->
    exists o,
      find_definition items path = Ok o
      /\ forall d, o = Some d -> well_formed_item d = true.
Proof.
  induction items as [|it items IH]; intros path H.
  - exists None. split; [reflexivity | discriminate].
  - cbn [well_formed forallb] in H. apply andb_prop in H. destruct H as [Hit H].
    destruct (well_formed_item_inv it Hit) as ((p & Hp & _) & _).
    cbn [find_definition]. unfold getitem_path. rewrite Hp, bind_ok.
    destruct (String.eqb p path).
    + exists (Some it). split; [reflexivity|]. intros d E. inversion E. now subst.
    + apply IH, H.
Qed.

Lemma add_element_field_ok :
  forall self indent acc entry,
    wf_index self ->
    exists acc', add_element_field self indent acc entry = Ok acc'.
Proof.
  intros self indent [sf pf] [f p] (Hdata & _). unfold add_element_field.
  destruct (set_mem string_dec f pf); [eauto|].
  destruct (Dict.get p (path_data self)) as [it|] eqn:E; [|eauto].
  destruct (Hdata p it E) as [_ Hwf].
  destruct (well_formed_item_inv it Hwf) as (_ & (v & Hv) & _).
  unfold getitem_value. rewrite Hv, bind_ok. eauto.
Qed.

Lemma format_nested_array_field_ok :
  forall self field_name nested_array_path indent indent_level,
    wf_index self ->
    exists s,
      _format_nested_array_field self field_name nested_array_path indent
        indent_level = Ok s.
Proof.
  intros self field_name np indent lvl Hwf.
  pose proof Hwf as (_ & Hin & _).
  destruct (find_definition_ok (input_data self) np Hin) as (o & Ho & Hd).
  unfold _format_nested_array_field, _format_nested_array_content.
  assert (H1 : exists acc,
             _add_nested_array_fields self np (spaces ((lvl + 1) * 4))
               ([], empty_set string) = Ok acc).
  { unfold _add_nested_array_fields. rewrite Ho, bind_ok.
    destruct o as [d|]; [|eauto].
    destruct (well_formed_item_inv d (Hd d eq_refl)) as (_ & _ & Hn).
    unfold nested_fields_named in Hn.
    destruct (usable_nested_fields d) as [[| |nf]|]; try discriminate; [|eauto].
    destruct (nf_name nf); [eauto | discriminate]. }
  destruct H1 as [acc1 E1]. rewrite E1, bind_ok.
  assert (H2 : exists acc,
             _add_element_fields_from_path_scan self np (spaces ((lvl + 1) * 4))
               acc1 = Ok acc).
  { unfold _add_element_fields_from_path_scan. apply for_each_ok.
    intros s x _. apply add_element_field_ok, Hwf. }
  destruct H2 as [acc2 E2]. rewrite E2, bind_ok.
  assert (H3 : exists acc,
             _add_element_fields_from_mapping self np (spaces ((lvl + 1) * 4))
               acc2 = Ok acc).
  { unfold _add_element_fields_from_mapping.
    destruct (Dict.get np (array_element_fields self)); [|eauto].
    apply for_each_ok. intros s x _. apply add_element_field_ok, Hwf. }
  destruct H3 as [acc3 E3]. rewrite E3, !bind_ok, Ho, bind_ok.
  destruct (strip_nonempty _); eauto.
Qed.


Lemma format_regular_field_ok :
  forall content self field_name element_path indent indent_level,
    wf_index self ->
    Dict.mem element_path (path_data self) = true ->
    (forall lvl, exists s, content element_path lvl = Ok s) ->
    exists s,
      _format_regular_field content self field_name element_path indent
        indent_level = Ok s.
Proof.
  intros content self f e indent lvl (Hdata & _) Hmem Hcontent.
  unfold _format_regular_field. unfold Dict.mem in Hmem.
  destruct (Dict.get e (path_data self)) as [it|] eqn:E; [|discriminate].
  destruct (Hdata e it E) as [_ Hwf].
  destruct (well_formed_item_inv it Hwf) as (_ & (v & Hv) & _).
  unfold getitem_value. rewrite Hv, bind_ok.
  destruct (String.eqb v "array"); [eauto|].
  destruct (String.eqb v "object" && _has_children self e); [|eauto].
  destruct (Hcontent (lvl + 1)) as [s Es]. rewrite Es, bind_ok. eauto.
Qed.

Lemma collect_array_fields_ok :
  forall self array_path,
    wf_index self ->
    exists all_fields,
      _collect_array_fields self array_path = Ok all_fields
      /\ NoDup (Dict.keys all_fields)
      /\ forall x o e,
           Dict.get x all_fields = Some (RegularInfo o e) ->
           Dict.mem e (path_data self) = true
           /\ exists m f,
                Dict.get array_path (array_element_fields self) = Some m
                /\ In (f, e) m.
Proof.
  intros self a (Hdata & _).
  assert (Hok : exists all_fields, _collect_array_fields self a = Ok all_fields).
  { unfold _collect_array_fields.
    destruct (Dict.get a (path_data self)) as [it|] eqn:E.
    - destruct (Hdata a it E) as [_ Hwf].
      destruct (well_formed_item_inv it Hwf) as (_ & _ & Hn).
      unfold nested_fields_named in Hn.
      destruct (usable_nested_fields it) as [[| |nf]|]; try discriminate;
        rewrite bind_ok; eauto.
    - rewrite bind_ok. eauto. }
  destruct Hok as [all_fields Hc]. exists all_fields. split; [exact Hc|].
  destruct (collect_array_fields_merges self a all_fields Hc)
    as (start & Hall & Hstart & _).
  assert (Hs : NoDup (Dict.keys start)
               /\ forall x o e, Dict.get x start = Some (RegularInfo o e) -> False).
  { destruct Hstart as [E|(it & nf & _ & _ & E)]; rewrite E.
    - split; [constructor | intros x o e H; discriminate].
    - split; [repeat constructor; intros [] |].
      intros x o e H. cbn [Dict.get] in H.
      destruct (String.eqb x (nested_field_name nf)); discriminate. }
  destruct Hs as [Hs1 Hs2]. split.
  { rewrite Hall. apply merge_nested_arrays_nodup, merge_element_fields_nodup, Hs1. }
  rewrite Hall. clear Hall Hc.
  set (Q := fun d : Dict.t field_info =>
              forall x o e,
                Dict.get x d = Some (RegularInfo o e) ->
                Dict.mem e (path_data self) = true
                /\ exists m f,
                     Dict.get a (array_element_fields self) = Some m
                     /\ In (f, e) m).
  change (Q (merge_nested_arrays self (Dict.get_list a (nested_arrays self))
               (merge_element_fields self
                  match Dict.get a (array_element_fields self) with
                  | Some m => m
                  | None => []
                  end start))).
  unfold merge_nested_arrays. apply fold_left_invariant.
  - unfold merge_element_fields. apply fold_left_invariant_in.
    + intros x o e H. exfalso. eapply Hs2, H.
    + intros d [f e] Hin Hd. destruct (Dict.mem e (path_data self)) eqn:Em;
        [|exact Hd].
      intros x o e' H. destruct (String.eqb_spec x f).
      * subst. rewrite dict_get_set_same in H. inversion H. subst.
        split; [exact Em|].
        destruct (Dict.get a (array_element_fields self)) as [m|];
          [exists m, f; auto | destruct Hin].
      * rewrite dict_get_set_other in H by assumption. eapply Hd, H.
  - intros d np Hd x o e H.
    destruct (String.eqb_spec x (last (split "." np))).
    + subst. rewrite dict_get_set_same in H. discriminate.
    + rewrite dict_get_set_other in H by assumption. eapply Hd, H.
Qed.

Lemma format_array_struct_content_ok :
  forall content self array_path indent_level,
    wf_index self ->
    (forall m f e lvl,
        Dict.get array_path (array_element_fields self) = Some m ->
        In (f, e) m -> Dict.mem e (path_data self) = true ->
        exists s, content e lvl = Ok s) ->
    exists s,
      _format_array_struct_content content self array_path indent_level = Ok s.
Proof.
  intros content self a lvl Hwf Hcontent.
  destruct (collect_array_fields_ok self a Hwf) as (all_fields & Hc & Hnd & Hreg).
  unfold _format_array_struct_content. rewrite Hc, bind_ok.
  fold (field_key all_fields).
  set (names := sort_by (field_key all_fields) (Dict.keys all_fields)).
  assert (Hnd' : NoDup names).
  { apply (Permutation_NoDup (sort_by_perm _ _ _)), Hnd. }
  destruct (array_fields_loop content self lvl all_fields names []
              (empty_set string) Hnd') as [pf' E].
  { intros x _ []. }
  destruct (map_result_ok _ _ (array_field_line content self lvl all_fields) names)
    as [lines El].
  { intros x Hx. apply sort_by_in in Hx. apply dict_get_in_keys in Hx.
    destruct Hx as [fi Hfi]. unfold array_field_line. rewrite Hfi.
    destruct fi as [o nf|o e|o np].
    - eauto.
    - destruct (Hreg x o e Hfi) as (Hmem & m & f & Hm & Hin).
      apply format_regular_field_ok; [exact Hwf | exact Hmem |].
      intros lvl'. eapply Hcontent; eauto.
    - apply format_nested_array_field_ok, Hwf. }
  rewrite El, bind_ok in E.
  exists (join ("," ++ nl) lines).
  etransitivity; [apply f_equal2; [exact E | reflexivity]|]. reflexivity.
Qed.

Lemma direct_children_spec :
  forall self p c,
    In c (_get_direct_children self p) ->
    In c (Dict.keys (path_data self))
    /\ String.length p < String.length c
    /\ (p <> "" -> startswith (p ++ ".") c = true).
Proof.
  intros self p. unfold _get_direct_children.
  set (prefix := if String.eqb p "" then "" else p ++ ".").
  apply (fold_left_invariant_in _ _
           (fun acc => forall c, In c acc ->
                       In c (Dict.keys (path_data self))
                       /\ String.length p < String.length c
                       /\ (p <> "" -> startswith (p ++ ".") c = true))).
  - intros c [].
  - intros acc k Hk Hacc.
    destruct (String.eqb_spec k p) as [|Hne]; [exact Hacc|]. cbn [orb].
    destruct (is_processed self k); [exact Hacc|].
    destruct (startswith prefix k) eqn:Es; [|exact Hacc]. cbn [negb].
    assert (Hchild : forall name,
               String.length p < String.length (p ++ "." ++ name)
               /\ (p <> "" -> startswith (p ++ ".") (p ++ "." ++ name) = true)).
    { intros name. split.
      - rewrite !string_app_length. cbn. lia.
      - intros _. rewrite <- string_app_assoc. apply startswith_app. }
    unfold _add_direct_child_if_matched.
    destruct (negb (contains "." (drop (String.length prefix) k))).
    { intros c Hc. apply in_app_iff in Hc. destruct Hc as [Hc|[Hc|[]]];
        [apply Hacc, Hc|]. subst c. split; [exact Hk|].
      subst prefix. destruct (String.eqb_spec p "").
      - subst p. split; [|congruence]. destruct k; [congruence | cbn; lia].
      - pose proof (startswith_length _ _ Es) as Hl.
        rewrite string_app_length in Hl. cbn in Hl. split; [lia | auto]. }
    match goal with
    | |- forall c, In c (if ?b then _ else _) -> _ => destruct b
    end.
    { match goal with
      | |- forall c, In c (if ?b then _ else _) -> _ => destruct b eqn:Eb
      end; [|exact Hacc].
      apply andb_prop in Eb. destruct Eb as [_ Eb].
      apply dict_mem_in_keys in Eb.
      intros c Hc. apply in_app_iff in Hc. destruct Hc as [Hc|[Hc|[]]];
        [apply Hacc, Hc|]. subst c. split; [exact Eb | apply Hchild]. }
    match goal with
    | |- forall c, In c (if ?b then _ else _) -> _ => destruct b
    end; [|exact Hacc].
    match goal with
    | |- forall c, In c (if ?b then _ else _) -> _ => destruct b eqn:Eb
    end; [|exact Hacc].
    apply andb_prop in Eb. destruct Eb as [Eb _].
    apply dict_mem_in_keys in Eb.
    intros c Hc. apply in_app_iff in Hc. destruct Hc as [Hc|[Hc|[]]];
      [apply Hacc, Hc|]. subst c. split; [exact Eb | apply Hchild].
Qed.

Lemma ordered_children_in :
  forall self p c,
    In c (_get_ordered_children self p) -> In c (_get_direct_children self p).
Proof.
  intros self p c H. unfold _get_ordered_children in H.
  apply sort_by_in in H. revert c H.
  apply (fold_left_invariant_in _ _
           (fun acc => forall c, In c acc -> In c (_get_direct_children self p))).
  - apply (fold_left_invariant _ _
             (fun acc => forall c, In c acc -> In c (_get_direct_children self p))).
    + intros c [].
    + intros acc field Hacc.
      match goal with
      | |- forall c, In c (if mem_string ?x ?l then _ else _) -> _ =>
          destruct (mem_string x l) eqn:Em
      end; [|exact Hacc].
      apply mem_string_in in Em. intros c Hc. apply in_app_iff in Hc.
      destruct Hc as [Hc|[Hc|[]]]; [apply Hacc, Hc | now subst].
  - intros acc child Hchild Hacc c Hc.
    apply in_append_new in Hc. destruct Hc as [Hc|Hc]; [now subst | apply Hacc, Hc].
Qed.

Lemma longest_path_bound :
  forall self k,
    In k (Dict.keys (path_data self)) -> String.length k <= longest_path self.
Proof.
  intros self k H. unfold longest_path.
  assert (G : forall l n, In n l -> n <= list_max l).
  { induction l as [|x l IH]; intros n Hn; [destruct Hn|].
    cbn [list_max fold_right]. destruct Hn as [Hn|Hn].
    - subst. apply Nat.le_max_l.
    - etransitivity; [apply IH, Hn | apply Nat.le_max_r]. }
  apply G. now apply in_map.
Qed.

Lemma format_struct_child_ok :
  forall content self child_path indent indent_level,
    wf_index self ->
    (forall x lvl,
        In x (Dict.keys (path_data self)) ->
        String.length child_path <= String.length x ->
        exists s, content x lvl = Ok s) ->
    exists s,
      _format_struct_child content self child_path indent indent_level = Ok s.
Proof.
  intros content self c indent lvl Hwf Hcontent.
  pose proof Hwf as (Hdata & _ & Hbelow).
  unfold _format_struct_child.
  destruct (Dict.get c (path_data self)) as [it|] eqn:E; [|eauto].
  assert (Hc : In c (Dict.keys (path_data self))).
  { apply dict_get_in_keys. eauto. }
  destruct (Hdata c it E) as [_ Hit].
  destruct (well_formed_item_inv it Hit) as (_ & (v & Hv) & _).
  unfold getitem_value. rewrite Hv, bind_ok.
  destruct (String.eqb v "object").
  { unfold _format_object_field. destruct (_has_children self c); [|eauto].
    destruct (Hcontent c (lvl + 1) Hc (Nat.le_refl _)) as [s Es].
    rewrite Es, bind_ok. destruct (strip_nonempty s); eauto. }
  destruct (String.eqb v "array"); [|eauto].
  unfold _format_array_field.
  destruct (format_array_struct_content_ok content self c (lvl + 1) Hwf)
    as [s Es].
  { intros m f e lvl' Hm Hin Hmem. apply Hcontent.
    - now apply dict_mem_in_keys.
    - destruct (Hbelow c m f e Hm Hin) as [Hl _]. lia. }
  rewrite Es.
  destruct (i_arr_type it);
    destruct (Dict.get c (array_element_fields self)) as [[|e0 m0]|];
    rewrite ?bind_ok; try destruct (strip_nonempty s); eauto.
Qed.

(** The recursion of [_format_struct_content] goes to strictly longer paths
    of the index, so a stack as deep as the longest path has room left. *)
Lemma render_depth_sufficient :
  forall depth self struct_path indent_level,
    wf_index self ->
    0 < depth ->
    longest_path self < depth + String.length struct_path ->
    exists s, _format_struct_content depth self struct_path indent_level = Ok s.
Proof.
  induction depth as [|d IH]; intros self p lvl Hwf Hpos Hlen; [lia|].
  cbn [_format_struct_content].
  destruct (map_result_ok _ _
              (fun child_path =>
                 _format_struct_child (_format_struct_content d self) self
                   child_path (spaces (lvl * 4)) lvl)
              (_get_ordered_children self p)) as [lines El].
  { intros c Hc. apply ordered_children_in, direct_children_spec in Hc.
    destruct Hc as (Hkey & Hlt & _).
    apply format_struct_child_ok; [exact Hwf|].
    intros x lvl' Hx Hle. pose proof (longest_path_bound self x Hx) as Hb.
    apply IH; [exact Hwf | lia | lia]. }
  rewrite El, bind_ok. eauto.
Qed.

Lemma format_struct_content_ok :
  forall self struct_path indent_level,
    wf_index self ->
    exists s,
      _format_struct_content (stack_depth self) self struct_path indent_level
      = Ok s.
Proof.
  intros self p lvl Hwf. apply render_depth_sufficient; [exact Hwf | |];
    unfold stack_depth, longest_path; lia.
Qed.



(** ** How the processed set grows *)

Lemma set_processed_paths_eta :
  forall self, self = set_processed_paths self (processed_paths self).
Proof. intros []. reflexivity. Qed.

Lemma grows_by_refl : forall self path, grows_by self self path.
Proof.
  intros self path. split; [apply set_processed_paths_eta|]. split; auto.
Qed.

Lemma grows_by_add :
  forall self self' path q,
    grows_by self self' path ->
    q = path \/ contains "." q = true ->
    grows_by self (add_processed self' q) path.
Proof.
  intros self self' path q (E & Hmono & Hnew) Hq. split; [|split].
  - rewrite E at 1. reflexivity.
  - intros x Hx. rewrite is_processed_add. rewrite (Hmono x Hx). apply orb_true_r.
  - intros x Hx. rewrite is_processed_add in Hx. apply orb_prop in Hx.
    destruct Hx as [Hx|Hx]; [|apply Hnew, Hx].
    apply String.eqb_eq in Hx. subst x. right. exact Hq.
Qed.

Lemma grows_by_trans :
  forall a b c path,
    grows_by a b path -> grows_by b c path -> grows_by a c path.
Proof.
  intros a b c path (E1 & M1 & N1) (E2 & M2 & N2). split; [|split].
  - rewrite E2 at 1. rewrite E1 at 1. reflexivity.
  - auto.
  - intros q Hq. destruct (N2 q Hq) as [H|H]; [apply N1, H | right; exact H].
Qed.

Lemma wf_index_grows :
  forall self self' path,
    grows_by self self' path -> wf_index self -> wf_index self'.
Proof. intros self self' path (E & _) H. rewrite E. exact H. Qed.

Lemma grows_by_index :
  forall self self' path,
    grows_by self self' path ->
    path_data self' = path_data self
    /\ input_data self' = input_data self
    /\ array_element_fields self' = array_element_fields self
    /\ nested_arrays self' = nested_arrays self
    /\ element_fields self' = element_fields self.
Proof. intros self self' path (E & _). rewrite E. repeat split. Qed.

Lemma contains_dot_app :
  forall a b, contains "." (a ++ "." ++ b) = true.
Proof. intros a b. apply contains_intro. Qed.

Lemma descends_contains_dot :
  forall p q, startswith (p ++ ".") q = true -> contains "." q = true.
Proof.
  intros p q H. destruct (startswith_inv _ _ H) as [r E]. subst q.
  rewrite string_app_assoc. apply contains_dot_app.
Qed.

Lemma mark_processed_grows :
  forall self self' path,
    grows_by self self' path -> grows_by self (_mark_processed self' path) path.
Proof.
  intros self self' path H. unfold _mark_processed.
  apply fold_left_invariant.
  - apply grows_by_add; [exact H | now left].
  - intros a k Ha.
    destruct (negb (String.eqb k path) && startswith (path ++ ".") k) eqn:E;
      [|exact Ha].
    apply andb_prop in E. destruct E as [_ E].
    apply grows_by_add; [exact Ha | right]. eapply descends_contains_dot, E.
Qed.

(** After [_mark_processed], the path and all its descendants in the index
    are processed. *)
Lemma mark_processed_covers :
  forall self path q,
    q = path \/ (In q (Dict.keys (path_data self)) /\ descends path q = true) ->
    is_processed (_mark_processed self path) q = true.
Proof.
  intros self path q Hq. unfold _mark_processed.
  assert (Hmono : forall l s,
             is_processed s q = true ->
             is_processed
               (fold_left
                  (fun self0 path0 =>
                     if negb (String.eqb path0 path)
                        && startswith (path ++ ".") path0
                     then add_processed self0 path0
                     else self0) l s) q = true).
  { induction l as [|k l IH]; intros s Hs; [exact Hs|]. cbn [fold_left].
    apply IH. destruct (_ && _); [|exact Hs].
    rewrite is_processed_add, Hs. apply orb_true_r. }
  destruct (String.eqb_spec q path) as [E|Hne].
  { apply Hmono. rewrite is_processed_add, E, String.eqb_refl. reflexivity. }
  destruct Hq as [Hq|[Hin Hd]]; [contradiction|].
  cbn [path_data add_processed set_processed_paths].
  revert Hin. generalize (add_processed self path).
  induction (Dict.keys (path_data self)) as [|k l IH]; intros s Hin;
    [destruct Hin|].
  cbn [fold_left]. destruct Hin as [Hin|Hin].
  - subst k. apply Hmono. unfold descends in Hd. rewrite Hd.
    apply String.eqb_neq in Hne. rewrite Hne. cbn [negb andb].
    rewrite is_processed_add, String.eqb_refl. reflexivity.
  - apply IH, Hin.
Qed.

Lemma mark_processed_tree_grows :
  forall self self' path children,
    grows_by self self' path ->
    (forall c, In c children -> contains "." c = true) ->
    grows_by self (_mark_processed_tree self' path children) path.
Proof.
  intros self self' path children H Hc. unfold _mark_processed_tree.
  apply fold_left_invariant_in.
  - apply grows_by_add; [exact H | now left].
  - intros a c Hin Ha.
    assert (Ha' : grows_by self (add_processed a c) path).
    { apply grows_by_add; [exact Ha | right; apply Hc, Hin]. }
    destruct (Dict.get c (element_fields (add_processed a c))); [|exact Ha'].
    apply fold_left_invariant; [exact Ha'|].
    intros b ef Hb. apply grows_by_add; [exact Hb | right].
    exact (contains_dot_app c ("element." ++ ef)).
Qed.

Lemma mark_array_elements_grows :
  forall self self' path,
    elements_below self ->
    grows_by self self' path ->
    grows_by self (_mark_array_elements_processed self' path) path.
Proof.
  intros self self' path Hbelow H.
  assert (Hvalues : forall s m a,
             grows_by self s path ->
             Dict.get a (array_element_fields self) = Some m ->
             grows_by self
               (fold_left
                  (fun self0 entry =>
                     if Dict.mem (snd entry) (path_data self0)
                     then add_processed self0 (snd entry)
                     else self0) m s) path).
  { intros s m a Hs Hm. apply fold_left_invariant_in; [exact Hs|].
    intros b [f e] Hin Hb. cbn [snd].
    destruct (Dict.mem e (path_data b)); [|exact Hb].
    apply grows_by_add; [exact Hb | right].
    destruct (Hbelow a m f e Hm Hin) as [_ Hc].
    eapply contains_first_char, Hc. }
  unfold _mark_array_elements_processed.
  destruct (grows_by_index _ _ _ H) as (_ & _ & Ea & En & _).
  destruct (Dict.get path (array_element_fields self')) as [m|] eqn:Em;
    [|exact H].
  rewrite Ea in Em.
  pose proof (Hvalues self' m path H Em) as H1.
  match goal with
  | |- grows_by _ (match Dict.get path (nested_arrays ?s) with _ => _ end) _ =>
      destruct (Dict.get path (nested_arrays s)) as [nested|]; [|exact H1]
  end.
  apply fold_left_invariant; [exact H1|].
  intros b np Hb.
  destruct (grows_by_index _ _ _ Hb) as (_ & _ & Eb & _).
  destruct (Dict.get np (array_element_fields b)) as [m'|] eqn:Em'; [|exact Hb].
  rewrite Eb in Em'. eapply Hvalues; eauto.
Qed.


(** ** The steps of the two loops *)

Lemma format_struct_spec :
  forall self path it,
    wf_index self -> path <> "" -> is_processed self path = false ->
    exists rest self',
      _format_struct self path it
      = Ok (Some ("    " ++ format_path path ++ " struct<" ++ rest), self')
      /\ grows_by self self' path.
Proof.
  intros self path it Hwf Hne Hproc. unfold _format_struct. rewrite Hproc.
  destruct (_get_direct_children self path) as [|c cs] eqn:Ec.
  - eexists. eexists. split; [reflexivity|].
    apply grows_by_add; [apply grows_by_refl | now left].
  - destruct (format_struct_content_ok self path 2 Hwf) as [s Es].
    rewrite Es, bind_ok. eexists. eexists. split; [reflexivity|].
    apply mark_processed_tree_grows; [apply grows_by_refl|].
    intros x Hx. rewrite <- Ec in Hx. apply direct_children_spec in Hx.
    destruct Hx as (_ & _ & Hx). eapply descends_contains_dot, Hx, Hne.
Qed.

Lemma struct_parent_pending_ok :
  forall self parts indices,
    wf_index self -> exists b, struct_parent_pending self parts indices = Ok b.
Proof.
  intros self parts indices (Hdata & _).
  induction indices as [|i indices IH]; cbn [struct_parent_pending]; [eauto|].
  destruct (Dict.get (join "." (firstn i parts)) (path_data self)) as [it|] eqn:E;
    [|exact IH].
  destruct (Hdata _ it E) as [_ Hit].
  destruct (well_formed_item_inv it Hit) as (_ & (v & Hv) & _).
  unfold getitem_value. rewrite Hv, bind_ok.
  destruct (_ && _); [eauto | exact IH].
Qed.

Lemma format_dotted_path_spec :
  forall self it path,
    wf_index self -> well_formed_item it = true -> i_path it = Some path ->
    exists d self',
      _format_dotted_path self it = Ok (d, self') /\ grows_by self self' path.
Proof.
  intros self it path Hwf Hit Hp.
  destruct (well_formed_item_inv it Hit) as (_ & (v & Hv) & _).
  unfold _format_dotted_path, getitem_path, getitem_value.
  rewrite Hp, bind_ok.
  destruct (_ && _).
  { eexists. eexists. split; [reflexivity | apply grows_by_refl]. }
  destruct (_ && _).
  { eexists. eexists. split; [reflexivity | apply grows_by_refl]. }
  assert (Hpend : exists b,
             (if Nat.ltb 1 (List.length (split "." path))
              then struct_parent_pending self (split "." path)
                     (seq 1 (List.length (split "." path) - 1))
              else Ok false) = Ok b).
  { destruct (Nat.ltb 1 _); [apply struct_parent_pending_ok, Hwf | eauto]. }
  destruct Hpend as [b Eb]. rewrite Eb, bind_ok.
  destruct b.
  { eexists. eexists. split; [reflexivity | apply grows_by_refl]. }
  rewrite Hv, bind_ok.
  destruct (String.eqb v "object").
  { assert (Hobj : exists d,
               _format_dotted_object self path (format_path path) (get_doc it)
                 (format_after_clause it) = Ok d).
    { unfold _format_dotted_object. destruct (_has_children self path); [|eauto].
      destruct (format_struct_content_ok self path 2 Hwf) as [s Es].
      rewrite Es, bind_ok. destruct (strip_nonempty s); eauto. }
    destruct Hobj as [d Ed]. rewrite Ed, bind_ok.
    eexists. eexists. split; [reflexivity | apply grows_by_refl]. }
  destruct (String.eqb v "array").
  2:{ eexists. eexists. split; [reflexivity | apply grows_by_refl]. }
  assert (Harr : exists d self',
             _format_dotted_array self path (format_path path) it (get_doc it)
               (format_after_clause it) = Ok (d, self')
             /\ grows_by self self' path).
  { unfold _format_dotted_array.
    destruct (_ || _).
    2:{ eexists. eexists. split; [reflexivity | apply grows_by_refl]. }
    destruct (format_array_struct_content_ok
                (_format_struct_content (stack_depth self) self) self path 3 Hwf)
      as [s Es].
    { intros m f e lvl _ _ _. apply format_struct_content_ok, Hwf. }
    rewrite Es, bind_ok. destruct (strip_nonempty s).
    - eexists. eexists. split; [reflexivity|].
      apply mark_array_elements_grows; [apply Hwf | apply grows_by_refl].
    - eexists. eexists. split; [reflexivity | apply grows_by_refl]. }
  destruct Harr as (d & self' & Ed & Hg). rewrite Ed, bind_ok.
  eexists. eexists. split; [reflexivity | exact Hg].
Qed.

Lemma top_level_step_spec :
  forall self it,
    wf_index self -> well_formed_item it = true ->
    exists d self' path,
      i_path it = Some path
      /\ top_level_step self it = Ok (d, self')
      /\ grows_by self self' path.
Proof.
  intros self it Hwf Hit.
  destruct (well_formed_item_inv it Hit) as ((path & Hp & Hne) & (v & Hv) & _).
  unfold top_level_step, getitem_path, getitem_value. rewrite Hp, bind_ok.
  destruct (is_processed self path) eqn:Hproc.
  { exists None, self, path. split; [reflexivity|].
    split; [reflexivity | apply grows_by_refl]. }
  rewrite Hv, bind_ok.
  destruct (String.eqb v "object" && _has_children self path).
  - destruct (format_struct_spec self path it Hwf Hne Hproc)
      as (rest & self' & E & Hg).
    rewrite E, bind_ok. cbn [truthy_definition append String.eqb].
    eexists. eexists. exists path. split; [reflexivity|].
    split; [reflexivity|]. apply mark_processed_grows, Hg.
  - destruct (format_dotted_path_spec self it path Hwf Hit Hp)
      as (d & self' & E & Hg).
    rewrite E, bind_ok.
    destruct (truthy_definition d); eexists; eexists; exists path;
      (split; [reflexivity|]); (split; [reflexivity|]);
      [apply grows_by_add; [exact Hg | now left] | exact Hg].
Qed.

Lemma remaining_step_spec :
  forall self it,
    wf_index self -> well_formed_item it = true ->
    exists d self' path,
      i_path it = Some path
      /\ remaining_step self it = Ok (d, self')
      /\ grows_by self self' path.
Proof.
  intros self it Hwf Hit.
  destruct (well_formed_item_inv it Hit) as ((path & Hp & Hne) & _).
  unfold remaining_step, getitem_path. rewrite Hp, bind_ok.
  destruct (format_dotted_path_spec self it path Hwf Hit Hp)
    as (d & self' & E & Hg).
  rewrite E, bind_ok.
  destruct (truthy_definition d); eexists; eexists; exists path;
    (split; [reflexivity|]); (split; [reflexivity|]);
    [apply grows_by_add; [exact Hg | now left] | exact Hg].
Qed.

(** A loop of such steps over well-formed descriptors succeeds; what it
    emits is rendered from descriptors of its list, and what it marks as
    processed is a path of its list or a path that holds a dot. *)
Lemma collect_traced_spec :
  forall step : generator -> item -> result (option string * generator),
    (forall self it,
        wf_index self -> well_formed_item it = true ->
        exists d self' path,
          i_path it = Some path
          /\ step self it = Ok (d, self')
          /\ grows_by self self' path) ->
    forall l self,
      wf_index self -> forallb well_formed_item l = true ->
      exists emitted self',
        collect_traced step l self = Ok (emitted, self')
        /\ incl (map fst emitted) l
        /\ self' = set_processed_paths self (processed_paths self')
        /\ (forall q, is_processed self q = true -> is_processed self' q = true)
        /\ (forall q, is_processed self' q = true ->
                      is_processed self q = true \/ contains "." q = true
                      \/ exists it, In it l /\ i_path it = Some q).
Proof.
  intros step Hstep l. induction l as [|it l IH]; intros self Hwf Hl.
  - exists [], self. split; [reflexivity|]. split; [intros x []|].
    split; [apply set_processed_paths_eta|]. split; auto.
  - cbn [forallb] in Hl. apply andb_prop in Hl. destruct Hl as [Hit Hl].
    destruct (Hstep self it Hwf Hit) as (d & s1 & path & Hp & E1 & Hg).
    pose proof (wf_index_grows _ _ _ Hg Hwf) as Hwf1.
    destruct (IH s1 Hwf1 Hl) as (emitted & s2 & E2 & Hincl & Hsame & Hmono & Hnew).
    destruct Hg as (Eg & Mg & Ng).
    exists (match d with Some x => (it, x) :: emitted | None => emitted end), s2.
    cbn [collect_traced]. rewrite E1, bind_ok, E2, bind_ok.
    split; [reflexivity|]. split.
    { destruct d; cbn [map fst]; intros x Hx.
      - destruct Hx as [Hx|Hx]; [now left | right; apply Hincl, Hx].
      - right. apply Hincl, Hx. }
    split.
    { rewrite Hsame at 1. rewrite Eg at 1. reflexivity. }
    split; [auto|].
    intros q Hq. destruct (Hnew q Hq) as [H|[H|(it' & Hin & Hq')]].
    + destruct (Ng q H) as [H'|[H'|H']]; [now left | | right; now left].
      subst q. right. right. exists it. split; [now left | exact Hp].
    + right. now left.
    + right. right. exists it'. split; [now right | exact Hq'].
Qed.


(** ** A struct at the top level and its descendants *)

Lemma first_of_segment_not_seen :
  forall items seen it,
    In it (first_of_segment seen items) -> ~ In (top_segment it) seen.
Proof.
  induction items as [|x items IH]; intros seen it H; cbn [first_of_segment] in H.
  - destruct H.
  - destruct (set_mem string_dec (top_segment x) seen) eqn:E.
    + apply IH, H.
    + destruct H as [H|H].
      * subst. apply set_mem_complete1 in E. exact E.
      * intros Hin. apply (IH _ _ H). apply set_add_intro1, Hin.
Qed.

Lemma first_of_segment_find :
  forall items seen it_P P,
    ~ In P seen ->
    find (fun it => String.eqb (top_segment it) P) items = Some it_P ->
    exists pre post,
      first_of_segment seen items = (pre ++ it_P :: post)%list
      /\ forall it, In it (pre ++ post) -> top_segment it <> P.
Proof.
  induction items as [|x items IH]; intros seen it_P P Hseen Hfind.
  - discriminate.
  - cbn [find first_of_segment] in *.
    destruct (String.eqb_spec (top_segment x) P) as [E|Hne].
    + inversion Hfind. subst x. rewrite E.
      destruct (set_mem string_dec P seen) eqn:Em;
        [apply set_mem_correct1 in Em; contradiction|].
      exists [], (first_of_segment (set_add string_dec P seen) items).
      split; [reflexivity|]. intros it Hin Heq. cbn [app] in Hin.
      apply first_of_segment_not_seen in Hin. apply Hin.
      rewrite Heq. apply set_add_intro2. reflexivity.
    + destruct (set_mem string_dec (top_segment x) seen) eqn:Em.
      * apply IH; assumption.
      * destruct (IH (set_add string_dec (top_segment x) seen) it_P P)
          as (pre & post & E1 & E2); [|exact Hfind|].
        { intros Hin. apply set_add_elim in Hin. destruct Hin; [congruence | auto]. }
        exists (x :: pre), post. split; [cbn; now rewrite E1|].
        intros it [Hin|Hin]; [now subst | apply E2, Hin].
Qed.


Lemma remaining_of_ok :
  forall self items,
    well_formed items = true ->
    exists l,
      remaining_of self items = Ok l
      /\ forall it, In it l ->
                    In it items
                    /\ exists p, i_path it = Some p /\ is_processed self p = false.
Proof.
  intros self items. induction items as [|x items IH]; intros H.
  - exists []. split; [reflexivity | intros it []].
  - cbn [well_formed forallb] in H. apply andb_prop in H. destruct H as [Hx H].
    destruct (well_formed_item_inv x Hx) as ((p & Hp & _) & _).
    destruct (IH H) as (l & El & Hl).
    cbn [remaining_of]. unfold getitem_path. rewrite Hp, bind_ok, El, bind_ok.
    destruct (is_processed self p) eqn:Ep; cbn [negb andb].
    + exists l. split; [reflexivity|]. intros it Hin.
      destruct (Hl it Hin) as [H1 H2]. split; [now right | exact H2].
    + destruct (negb (_is_child_of_processed_path self p)).
      * exists (x :: l). split; [reflexivity|]. intros it [Hin|Hin].
        -- subst. split; [now left | eauto].
        -- destruct (Hl it Hin) as [H1 H2]. split; [now right | exact H2].
      * exists l. split; [reflexivity|]. intros it Hin.
        destruct (Hl it Hin) as [H1 H2]. split; [now right | exact H2].
Qed.

Lemma not_descends_self : forall p, descends p p = false.
Proof.
  intros p. unfold descends. destruct (startswith (p ++ ".") p) eqn:E;
    [|reflexivity].
  apply startswith_length in E. rewrite string_app_length in E. cbn in E. lia.
Qed.

Lemma indexed_wf :
  forall items self0,
    well_formed items = true ->
    _preprocess_input (new_generator items) = Ok self0 ->
    wf_index (_process_array_elements self0).
Proof.
  intros items self0 Hwf E.
  destruct (preprocess_input_spec items self0 E) as (I1 & _ & _ & I4 & _).
  destruct (process_array_elements_spec self0) as [(S1 & _ & _ & S4 & _) Hb].
  split; [|split; [|exact Hb]].
  - intros p it Hget. rewrite <- S4, I4 in Hget.
    apply index_paths_get in Hget. destruct Hget as [Hget|[Hin Hp]]; [discriminate|].
    split; [exact Hp|]. unfold well_formed in Hwf.
    rewrite forallb_forall in Hwf. apply Hwf, Hin.
  - now rewrite <- S1, I1.
Qed.



(** ** Scenarios 1 and 4 *)



(** ** Operations other than ADD *)

Lemma group_statements_unrecognized :
  forall g, recognized_operation (operation g) = false ->
            group_statements g = Ok [].
Proof.
  intros g H. unfold recognized_operation in H. simpl in H.
  repeat (apply orb_false_elim in H; destruct H as [? H]).
  unfold group_statements.
  repeat match goal with
         | E : String.eqb _ _ = false |- _ => rewrite E; clear E
         end.
  reflexivity.
Qed.

(** C4, as the code has it: an operation group whose tag is none of ADD,
    REMOVE, MOVE, REORDER and REPLACE adds no statement and raises nothing;
    the output is the one of the list without that group. *)
Theorem unrecognized_operation_is_skipped :
  forall (before after : list operation_group) (g : operation_group),
    recognized_operation (operation g) = false ->
    group_statements g = Ok []
    /\ fst (SQLColumnGenerator_generate_sql
              {| scg_input_data := (before ++ g :: after)%list |})
       = fst (SQLColumnGenerator_generate_sql
                {| scg_input_data := (before ++ after)%list |}).
Proof.
  intros before after g H.
  pose proof (group_statements_unrecognized g H) as Hg.
  split; [exact Hg|]. simpl.
  induction before as [|b before IH]; simpl.
  - rewrite Hg. simpl. destruct (all_statements after); reflexivity.
  - rewrite IH. reflexivity.
Qed.

Lemma replace_statement_unrecognized :
  forall c, i_path c <> None -> recognized_target c = false ->
            replace_statement c = Ok None.
Proof.
  intros c Hp H. unfold replace_statement, getitem_path.
  destruct (i_path c) as [p|]; [|congruence]. simpl.
  unfold recognized_target in H.
  destruct (i_target_field c) as [t|]; [|reflexivity].
  simpl in H.
  repeat (apply orb_false_elim in H; destruct H as [? H]).
  repeat match goal with
         | E : String.eqb _ _ = false |- _ => rewrite E; clear E
         end.
  reflexivity.
Qed.

Lemma replace_statement_recognized :
  forall c, i_path c <> None -> i_value c <> None ->
            recognized_target c = true ->
            exists s, replace_statement c = Ok (Some s).
Proof.
  intros c Hp Hv H. unfold replace_statement, getitem_path, getitem_value.
  destruct (i_path c) as [p|]; [|congruence].
  destruct (i_value c) as [v|]; [|congruence]. simpl.
  unfold recognized_target in H.
  destruct (i_target_field c) as [t|]; [|discriminate].
  simpl in H.
  destruct (String.eqb t "description"); simpl; [eauto|].
  destruct (String.eqb t "comment"); simpl; [eauto|].
  destruct (String.eqb t "type"); simpl; [eauto|].
  destruct (String.eqb t "name"); simpl; [eauto|].
  discriminate.
Qed.

(** C8, as the code has it: in a REPLACE group whose entries carry a path
    (and a value where the target is recognized), an entry whose
    [target_field] is description, comment, type or name gives exactly one
    statement, and any other entry (an unknown target, or none) gives no
    statement and no error; the group gives as many statements as it has
    entries with a recognized target. *)
Theorem replace_statement_per_recognized_entry :
  forall l : list item,
    Forall (fun c => i_path c <> None
                     /\ (recognized_target c = true -> i_value c <> None)) l ->
    exists stmts,
      group_statements {| operation := "REPLACE"; columns := ColumnDicts l |}
      = Ok stmts
      /\ List.length stmts = List.length (filter recognized_target l)
      /\ (forall c, In c l -> recognized_target c = false ->
                    replace_statement c = Ok None)
      /\ (forall c, In c l -> recognized_target c = true ->
                    exists s, replace_statement c = Ok (Some s)).
Proof.
  intros l Hl. unfold group_statements. simpl.
  assert (Hper : exists outs,
             map_result replace_statement l = Ok outs
             /\ List.length
                  (flat_map (fun o : option string =>
                               match o with Some x => [x] | None => [] end) outs)
                = List.length (filter recognized_target l)).
  { induction Hl as [|c l [Hp Hv] Hl IH]; simpl.
    - exists []. split; reflexivity.
    - destruct IH as [outs [E1 E2]].
      destruct (recognized_target c) eqn:Hr.
      + destruct (replace_statement_recognized c Hp (Hv eq_refl) Hr) as [s Hs].
        rewrite Hs. simpl. rewrite E1. simpl. eexists. split; [reflexivity|].
        simpl. now rewrite E2.
      + rewrite (replace_statement_unrecognized c Hp Hr). simpl.
        rewrite E1. simpl. eexists. split; [reflexivity|]. simpl. exact E2. }
  destruct Hper as [outs [E1 E2]]. rewrite E1. simpl.
  eexists. split; [reflexivity|]. split; [exact E2|].
  rewrite Forall_forall in Hl. split.
  - intros c Hin Hr. apply replace_statement_unrecognized; [apply Hl, Hin | exact Hr].
  - intros c Hin Hr. destruct (Hl c Hin) as [Hp Hv].
    apply replace_statement_recognized; auto.
Qed.

(** C9, as the code has it: a REORDER entry with a path gives the FIRST
    statement when its moveafter is [first]; otherwise the column named
    after AFTER is the entry's [value] (whatever moveafter holds), and an
    entry without a value raises [KeyError]; a REORDER group gives the
    statements of its entries, in order. *)
Theorem reorder_statement_cases :
  forall (column : item) (path : string),
    i_path column = Some path ->
    (i_moveafter column = Some "first" ->
     reorder_statement column
     = Ok ("ALTER TABLE {table_name} ALTER COLUMN " ++ format_path path
             ++ " FIRST"))
    /\ (i_moveafter column <> Some "first" ->
        forall v, i_value column = Some v ->
                  reorder_statement column
                  = Ok ("ALTER TABLE {table_name} ALTER COLUMN "
                          ++ format_path path ++ " AFTER " ++ format_path v))
    /\ (i_moveafter column <> Some "first" -> i_value column = None ->
        reorder_statement column = Raise (KeyError "value"))
    /\ (forall l : list item,
           group_statements {| operation := "REORDER"; columns := ColumnDicts l |}
           = map_result reorder_statement l).
Proof.
  intros column path Hp.
  assert (Hnot : i_moveafter column <> Some "first" ->
                 match i_moveafter column with
                 | Some m => String.eqb m "first"
                 | None => false
                 end = false).
  { destruct (i_moveafter column) as [m|]; [|reflexivity].
    intros Hn. destruct (String.eqb_spec m "first"); [subst; congruence|reflexivity]. }
  unfold reorder_statement, getitem_path, getitem_value. rewrite Hp. simpl.
  repeat split.
  - intros Hm. rewrite Hm. reflexivity.
  - intros Hn v Hv. rewrite (Hnot Hn), Hv. reflexivity.
  - intros Hn Hv. rewrite (Hnot Hn), Hv. reflexivity.
Qed.


(** ** The literal ["None"] as [nestedFields] *)

(** C10: an array descriptor whose [nestedFields] is the string ["None"] is
    handled as one without [nestedFields]: the test the module repeats
    fails, [_process_array_nested_fields] records nothing and
    [_collect_array_fields] derives no field from it; with no element field
    and no nested array, the array is rendered as the simple
    [array<arr_type>] ([array<string>] without [arr_type]), both as a column
    ([_format_dotted_array]) and inside a struct ([_format_array_field]). *)
Theorem none_literal_nested_fields_is_absent :
  forall (self : generator) (it : item) (path : string),
    i_nestedFields it = Some (NFStr "None") ->
    Dict.get path (path_data self) = Some it ->
    no_element_fields self path = true ->
    Dict.get_list path (nested_arrays self) = [] ->
    usable_nested_fields it = None
    /\ _process_array_nested_fields self it path = self
    /\ _collect_array_fields self path = Ok Dict.empty
    /\ (forall formatted_path comment after_clause,
           _format_dotted_array self path formatted_path it comment after_clause
           = Ok ("    " ++ formatted_path ++ " array<" ++ get_arr_type it ++ "> "
                   ++ format_comment comment ++ after_clause, self))
    /\ (forall content field comment indent indent_level,
           _format_array_field content self path field comment it indent
             indent_level
           = Ok (indent ++ field ++ ": array<" ++ get_arr_type it ++ "> "
                   ++ format_comment comment)).
Proof.
  intros self it path Hnf Hdata Hno Hnested.
  assert (Hu : usable_nested_fields it = None).
  { unfold usable_nested_fields. rewrite Hnf. reflexivity. }
  assert (Hc : _collect_array_fields self path = Ok Dict.empty).
  { unfold _collect_array_fields. rewrite Hdata, Hu, Hnested. simpl.
    unfold no_element_fields in Hno.
    destruct (Dict.get path (array_element_fields self)) as [[|e m]|];
      [reflexivity | discriminate | reflexivity]. }
  split; [exact Hu|]. split.
  { unfold _process_array_nested_fields. rewrite Hu.
    destruct (i_value it) as [v|]; [|reflexivity].
    destruct (String.eqb v "array"); reflexivity. }
  split; [exact Hc|]. split.
  - intros formatted_path comment after_clause.
    unfold _format_dotted_array. rewrite Hu.
    unfold no_element_fields in Hno.
    destruct (Dict.get path (array_element_fields self)) as [[|e m]|];
      [reflexivity | discriminate | reflexivity].
  - intros content field comment indent indent_level.
    unfold _format_array_field, _format_array_struct_content.
    rewrite Hc. simpl.
    unfold no_element_fields in Hno. unfold get_arr_type.
    destruct (Dict.get path (array_element_fields self)) as [[|e m]|];
      try discriminate; destruct (i_arr_type it); reflexivity.
Qed.

(** ** More on the string methods *)

Lemma split_dot_cons :
  forall c s,
    split "." (String c s)
    = if ascii_dec "." c then "" :: split "." s
      else match split "." s with
           | seg :: rest => String c seg :: rest
           | [] => [String c ""]
           end.
Proof.
  intros c s. unfold split. cbn [split_scan].
  rewrite startswith_cons, startswith_nil.
  destruct (ascii_dec "." c); reflexivity.
Qed.

(** Cutting at dots goes through a dot. *)
Lemma split_dot_app :
  forall a b, split "." (a ++ "." ++ b) = (split "." a ++ split "." b)%list.
Proof.
  induction a as [|c a IH]; intros b.
  - change ("" ++ "." ++ b) with (String "." b). rewrite split_dot_cons.
    destruct (ascii_dec "." "."); [reflexivity | congruence].
  - change (String c a ++ "." ++ b) with (String c (a ++ "." ++ b)).
    rewrite !split_dot_cons, IH.
    destruct (ascii_dec "." c); [reflexivity|].
    destruct (split "." a) as [|seg rest] eqn:E; [|reflexivity].
    exfalso. exact (split_scan_nonempty _ _ _ E).
Qed.

Lemma join_cons :
  forall sep x y l, join sep (x :: y :: l) = x ++ sep ++ join sep (y :: l).
Proof. reflexivity. Qed.

Lemma join_app :
  forall sep l1 l2,
    l1 <> [] -> l2 <> [] ->
    join sep (l1 ++ l2) = join sep l1 ++ sep ++ join sep l2.
Proof.
  intros sep l1 l2 H1 H2. induction l1 as [|x l1 IH]; [congruence|].
  destruct l1 as [|y l1].
  - destruct l2 as [|z l2]; [congruence|]. reflexivity.
  - change ((x :: y :: l1) ++ l2)%list with (x :: y :: (l1 ++ l2))%list.
    rewrite !join_cons.
    change (y :: (l1 ++ l2))%list with ((y :: l1) ++ l2)%list.
    rewrite IH by discriminate. now rewrite !string_app_assoc.
Qed.

(** Joining the segments of a path with dots gives the path back. *)
Lemma join_split_dot : forall s, join "." (split "." s) = s.
Proof.
  induction s as [|c s IH].
  - reflexivity.
  - rewrite split_dot_cons.
    destruct (split "." s) as [|seg rest] eqn:E;
      [exfalso; exact (split_scan_nonempty _ _ _ E)|].
    destruct (ascii_dec "." c) as [D|D].
    + subst c. rewrite join_cons, IH. reflexivity.
    + destruct rest as [|y rest].
      * change (join "." [seg]) with seg in IH. subst seg. reflexivity.
      * rewrite join_cons in *. rewrite <- IH. reflexivity.
Qed.
(** ** [SQLFormatter] *)

(** X1: [format_path] quotes a dotted path segment by segment: the
    formatted form of [a.b] is the formatted form of [a], a dot, and the
    formatted form of [b], whatever [a] and [b] are (dotted themselves,
    or empty). *)
Theorem format_path_distributes_over_dots :
  forall a b : string,
    format_path (a ++ "." ++ b) = format_path a ++ "." ++ format_path b.
Proof.
  intros a b. unfold format_path.
  rewrite split_dot_app, map_app, join_app.
  - reflexivity.
  - intros E. apply map_eq_nil in E. exact (split_scan_nonempty _ _ _ E).
  - intros E. apply map_eq_nil in E. exact (split_scan_nonempty _ _ _ E).
Qed.

(** ** Ancestors of a path *)

Lemma descends_iff :
  forall p q, descends p q = true <-> exists r, q = p ++ "." ++ r.
Proof.
  intros p q. unfold descends. split.
  - intros H. destruct (startswith_inv _ _ H) as [r E]. exists r.
    now rewrite E, string_app_assoc.
  - intros [r E]. subst q. rewrite <- string_app_assoc. apply startswith_app.
Qed.

Lemma split_length_pos : forall sep s, 1 <= List.length (split sep s).
Proof.
  intros sep s. destruct (split sep s) eqn:E.
  - exfalso. exact (split_scan_nonempty _ _ _ E).
  - simpl. lia.
Qed.

(** The prefixes [".".join(parts[:i])], [0 < i < len(parts)], of a path are
    its proper ancestors: the strings [p] with [path = p + "." + r]. *)
Lemma ancestor_prefix :
  forall q i,
    1 <= i -> i < List.length (split "." q) ->
    descends (join "." (firstn i (split "." q))) q = true.
Proof.
  intros q i H1 H2. apply descends_iff.
  exists (join "." (skipn i (split "." q))).
  rewrite <- join_app.
  - now rewrite firstn_skipn, join_split_dot.
  - intros E. apply (f_equal (@List.length string)) in E.
    rewrite firstn_length_le in E by lia. simpl in E. lia.
  - intros E. apply (f_equal (@List.length string)) in E.
    rewrite length_skipn in E. simpl in E. lia.
Qed.

Lemma prefix_of_ancestor :
  forall p r,
    let parts := split "." (p ++ "." ++ r) in
    exists i,
      1 <= i /\ i < List.length parts /\ join "." (firstn i parts) = p.
Proof.
  intros p r parts. subst parts. rewrite split_dot_app.
  pose proof (split_length_pos "." p) as Lp.
  pose proof (split_length_pos "." r) as Lr.
  exists (List.length (split "." p)). rewrite length_app.
  refine (conj Lp (conj _ _)); [lia|].
  rewrite firstn_app, Nat.sub_diag, firstn_all. cbn [firstn].
  now rewrite app_nil_r, join_split_dot.
Qed.

Lemma ancestor_scan :
  forall (f : string -> bool) (q : string),
    existsb (fun i => f (join "." (firstn i (split "." q))))
      (seq 1 (List.length (split "." q) - 1)) = true
    <-> exists p, descends p q = true /\ f p = true.
Proof.
  intros f q. rewrite existsb_exists. split.
  - intros [i [Hi Hf]]. apply in_seq in Hi.
    exists (join "." (firstn i (split "." q))). split; [|exact Hf].
    apply ancestor_prefix; lia.
  - intros [p [Hd Hf]]. apply descends_iff in Hd. destruct Hd as [r E].
    subst q. destruct (prefix_of_ancestor p r) as [i [H1 [H2 H3]]].
    exists i. split; [apply in_seq; lia|]. now rewrite H3.
Qed.
(** ** [PathHandler] *)

Lemma set_mem_add :
  forall (p q : string) (s : set string),
    set_mem string_dec q (set_add string_dec p s)
    = String.eqb q p || set_mem string_dec q s.
Proof.
  intros p q s.
  exact (is_processed_add (set_processed_paths (new_generator []) s) p q).
Qed.

(** A loop that marks the keys a test [g] accepts: what is processed
    afterwards. *)
Lemma handler_mark_loop :
  forall (g : string -> bool) (l : list string) (h : PathHandler.path_handler)
         (q : string),
    let h' :=
      fold_left
        (fun self path =>
           if g path then PathHandler.mark_processed self path else self) l h in
    PathHandler.path_data h' = PathHandler.path_data h
    /\ PathHandler.is_processed h' q
       = PathHandler.is_processed h q
         || existsb (fun k => String.eqb q k && g k) l.
Proof.
  intros g l. induction l as [|k l IH]; intros h q; cbn [fold_left existsb].
  - split; [reflexivity | now rewrite orb_false_r].
  - destruct (IH (if g k then PathHandler.mark_processed h k else h) q)
      as [E1 E2].
    cbv zeta in *. rewrite E1, E2. destruct (g k) eqn:G.
    + split; [reflexivity|]. unfold PathHandler.is_processed.
      cbn [PathHandler.mark_processed PathHandler.processed_paths].
      rewrite set_mem_add, andb_true_r.
      destruct (String.eqb q k), (set_mem string_dec q _); reflexivity.
    + split; [reflexivity|]. now rewrite andb_false_r.
Qed.

Lemma existsb_key :
  forall (V : Type) (g : string -> bool) (q : string) (d : Dict.t V),
    existsb (fun k => String.eqb q k && g k) (Dict.keys d)
    = Dict.mem q d && g q.
Proof.
  intros V g q d. apply eq_iff_eq_true.
  rewrite existsb_exists, andb_true_iff, dict_mem_in_keys. split.
  - intros [k [Hin Hk]]. apply andb_prop in Hk. destruct Hk as [Hq Hg].
    apply String.eqb_eq in Hq. subst k. now split.
  - intros [Hin Hg]. exists q. now rewrite String.eqb_refl, Hg.
Qed.

Lemma descendant_is_other :
  forall p q, negb (String.eqb q p) && descends p q = descends p q.
Proof.
  intros p q. destruct (String.eqb_spec q p) as [E|_]; [|reflexivity].
  subst q. now rewrite not_descends_self.
Qed.

Lemma handler_mark_tree_spec :
  forall (h : PathHandler.path_handler) (p q : string),
    PathHandler.path_data (PathHandler.mark_tree_processed h p)
    = PathHandler.path_data h
    /\ PathHandler.is_processed (PathHandler.mark_tree_processed h p) q
       = PathHandler.is_processed h q || String.eqb q p
         || (Dict.mem q (PathHandler.path_data h) && descends p q).
Proof.
  intros h p q. unfold PathHandler.mark_tree_processed.
  destruct (handler_mark_loop
              (fun k => negb (String.eqb k p) && startswith (p ++ ".") k)
              (Dict.keys (PathHandler.path_data (PathHandler.mark_processed h p)))
              (PathHandler.mark_processed h p) q) as [E1 E2].
  cbv zeta in *. split; [exact E1|]. rewrite E2, existsb_key.
  change (startswith (p ++ ".") q) with (descends p q).
  rewrite descendant_is_other.
  unfold PathHandler.is_processed.
  cbn [PathHandler.mark_processed PathHandler.processed_paths
       PathHandler.path_data].
  rewrite set_mem_add.
  destruct (String.eqb q p), (set_mem string_dec q _); reflexivity.
Qed.

Lemma handler_child_spec :
  forall (h : PathHandler.path_handler) (q : string),
    PathHandler.is_child_of_processed_path h q = true
    <-> exists p, descends p q = true /\ PathHandler.is_processed h p = true.
Proof.
  intros h q. unfold PathHandler.is_child_of_processed_path.
  exact (ancestor_scan
           (fun p => set_mem string_dec p (PathHandler.processed_paths h)) q).
Qed.

(** X2: [PathHandler.is_child_of_processed_path] answers true exactly for
    the paths that have a processed proper ancestor: some [p] is processed
    and the path is [p] followed by a dot and a rest.  A path with no dot
    is never a child. *)
Theorem handler_child_iff_processed_ancestor :
  forall (h : PathHandler.path_handler) (q : string),
    (PathHandler.is_child_of_processed_path h q = true
     <-> exists p r,
           q = p ++ "." ++ r /\ PathHandler.is_processed h p = true)
    /\ (contains "." q = false ->
        PathHandler.is_child_of_processed_path h q = false).
Proof.
  intros h q. split.
  - rewrite handler_child_spec. split.
    + intros [p [Hd Hp]]. apply descends_iff in Hd. destruct Hd as [r E].
      now exists p, r.
    + intros [p [r [E Hp]]]. exists p. split; [|exact Hp].
      apply descends_iff. now exists r.
  - intros Hq.
    destruct (PathHandler.is_child_of_processed_path h q) eqn:E;
      [|reflexivity].
    apply handler_child_spec in E. destruct E as [p [Hd _]].
    apply descends_contains_dot in Hd. congruence.
Qed.

(** X3: after [PathHandler.mark_tree_processed h p] the index is as
    before, and a path is processed exactly if it was processed, or is [p],
    or is a key of the index that starts with [p] and a dot.  Every dotted
    extension of [p], in the index or not, is then a child of a processed
    path. *)
Theorem handler_mark_tree_processed_exact :
  forall (h : PathHandler.path_handler) (p : string),
    let h' := PathHandler.mark_tree_processed h p in
    PathHandler.path_data h' = PathHandler.path_data h
    /\ (forall q,
           PathHandler.is_processed h' q
           = PathHandler.is_processed h q || String.eqb q p
             || (Dict.mem q (PathHandler.path_data h)
                 && startswith (p ++ ".") q))
    /\ (forall r,
           PathHandler.is_child_of_processed_path h' (p ++ "." ++ r) = true).
Proof.
  intros h p h'. subst h'. refine (conj _ (conj _ _)).
  - apply (handler_mark_tree_spec h p "").
  - intros q. apply (handler_mark_tree_spec h p q).
  - intros r. apply handler_child_spec. exists p. split.
    + apply descends_iff. now exists r.
    + destruct (handler_mark_tree_spec h p p) as [_ E]. rewrite E.
      rewrite String.eqb_refl. apply orb_true_iff. left. apply orb_true_r.
Qed.

Lemma handler_of_mark_loop :
  forall (g : string -> bool) (l : list string) (self : generator),
    fold_left
      (fun h path => if g path then PathHandler.mark_processed h path else h)
      l (handler_of self)
    = handler_of
        (fold_left
           (fun self path => if g path then add_processed self path else self)
           l self).
Proof.
  intros g l. induction l as [|k l IH]; intros self; [reflexivity|].
  cbn [fold_left]. destruct (g k); [|apply IH].
  change (PathHandler.mark_processed (handler_of self) k)
    with (handler_of (add_processed self k)).
  apply IH.
Qed.

Lemma handler_of_mark_processed :
  forall self p,
    PathHandler.mark_tree_processed (handler_of self) p
    = handler_of (_mark_processed self p).
Proof.
  intros self p. unfold PathHandler.mark_tree_processed, _mark_processed.
  change (PathHandler.mark_processed (handler_of self) p)
    with (handler_of (add_processed self p)).
  exact (handler_of_mark_loop
           (fun k => negb (String.eqb k p) && startswith (p ++ ".") k)
           (Dict.keys (path_data (add_processed self p)))
           (add_processed self p)).
Qed.

(** X4: the private bookkeeping methods of [OrderPreservingGenerator]
    compute what [PathHandler] computes on the same processed set and
    index: [_has_children] is [has_children],
    [_is_child_of_processed_path] is [is_child_of_processed_path], and
    [_mark_processed] leaves the processed set [mark_tree_processed]
    leaves. *)
Theorem path_handler_mirrors_generator :
  forall (self : generator) (p : string),
    PathHandler.has_children (handler_of self) p = _has_children self p
    /\ PathHandler.is_child_of_processed_path (handler_of self) p
       = _is_child_of_processed_path self p
    /\ PathHandler.is_processed (handler_of self) p = is_processed self p
    /\ PathHandler.mark_processed (handler_of self) p
       = handler_of (add_processed self p)
    /\ PathHandler.mark_tree_processed (handler_of self) p
       = handler_of (_mark_processed self p).
Proof.
  intros self p. repeat (split; [reflexivity|]).
  apply handler_of_mark_processed.
Qed.

(** ** Queries on the index *)

(** X5: [_mark_processed self p] changes the processed set only: a path
    is processed afterwards exactly if it was processed before, or is [p],
    or is an indexed path that starts with [p] and a dot. *)
Theorem mark_processed_exact :
  forall (self : generator) (p : string),
    _mark_processed self p
    = set_processed_paths self (processed_paths (_mark_processed self p))
    /\ forall q,
         is_processed (_mark_processed self p) q
         = is_processed self q || String.eqb q p
           || (Dict.mem q (path_data self) && startswith (p ++ ".") q).
Proof.
  intros self p. split.
  - destruct (mark_processed_grows self self p (grows_by_refl self p)) as [E _].
    exact E.
  - intros q. destruct (handler_mark_tree_spec (handler_of self) p q) as [_ E].
    rewrite handler_of_mark_processed in E. exact E.
Qed.

(** X6: [_is_child_of_processed_path] answers true exactly for the paths
    that have a processed proper ancestor; so every dotted extension of a
    path handed to [_mark_processed] is a child of a processed path
    afterwards, whether it is in the index or not. *)
Theorem child_of_processed_iff_ancestor :
  forall self : generator,
    (forall q,
        _is_child_of_processed_path self q = true
        <-> exists p r, q = p ++ "." ++ r /\ is_processed self p = true)
    /\ (forall p r,
           _is_child_of_processed_path (_mark_processed self p) (p ++ "." ++ r)
           = true).
Proof.
  intros self.
  assert (S : forall s x,
             _is_child_of_processed_path s x = true
             <-> exists p r, x = p ++ "." ++ r /\ is_processed s p = true).
  { intros s x. unfold _is_child_of_processed_path.
    rewrite (ancestor_scan (is_processed s) x). split.
    - intros [p [Hd Hp]]. apply descends_iff in Hd. destruct Hd as [r E].
      now exists p, r.
    - intros [p [r [E Hp]]]. exists p. split; [|exact Hp].
      apply descends_iff. now exists r. }
  split; [apply S|].
  intros p r. apply S. exists p, r. split; [reflexivity|].
  apply mark_processed_covers. now left.
Qed.

(** X7: [_has_children self p] holds exactly if the index has a key that
    starts with [p] and a dot; the test [path != parent_path] of the loop
    never decides. *)
Theorem has_children_iff_indexed_extension :
  forall (self : generator) (p : string),
    _has_children self p = true
    <-> exists r, In (p ++ "." ++ r) (Dict.keys (path_data self)).
Proof.
  intros self p. unfold _has_children. rewrite existsb_exists. split.
  - intros [k [Hin Hk]]. apply andb_prop in Hk. destruct Hk as [_ Hk].
    apply descends_iff in Hk. destruct Hk as [r E]. subst k. now exists r.
  - intros [r Hin]. exists (p ++ "." ++ r). split; [exact Hin|].
    change (startswith (p ++ ".") (p ++ "." ++ r))
      with (descends p (p ++ "." ++ r)).
    rewrite descendant_is_other. apply descends_iff. now exists r.
Qed.
(** ** The index [_preprocess_input] builds *)

Lemma index_paths_app :
  forall l1 l2 d, index_paths (l1 ++ l2) d = index_paths l2 (index_paths l1 d).
Proof. intros. unfold index_paths. apply fold_left_app. Qed.

Lemma index_paths_nodup :
  forall items d, NoDup (Dict.keys d) -> NoDup (Dict.keys (index_paths items d)).
Proof.
  intros items d H. unfold index_paths. apply fold_left_invariant; [exact H|].
  intros a x Ha. destruct (i_path x); [now apply dict_set_nodup | exact Ha].
Qed.

Lemma index_paths_last :
  forall pre it post p d,
    i_path it = Some p ->
    (forall it', In it' post -> i_path it' <> Some p) ->
    Dict.get p (index_paths (pre ++ it :: post) d) = Some it.
Proof.
  intros pre it post p d Hp Hpost.
  rewrite index_paths_app.
  change (index_paths (it :: post) (index_paths pre d))
    with (index_paths post
            (match i_path it with
             | Some p0 => Dict.set p0 it (index_paths pre d)
             | None => index_paths pre d
             end)).
  rewrite Hp, index_paths_get_absent by exact Hpost.
  apply dict_get_set_same.
Qed.

(** X8: once [_preprocess_input] has run on a fresh generator, the keys of
    [path_data] are exactly the paths of the input descriptors, each once;
    a path leads to the last descriptor of the input that carries it. *)
Theorem index_holds_last_descriptor :
  forall (items : list item) (self : generator),
    _preprocess_input (new_generator items) = Ok self ->
    (forall k,
        In k (Dict.keys (path_data self))
        <-> exists it, In it items /\ i_path it = Some k)
    /\ NoDup (Dict.keys (path_data self))
    /\ (forall pre it post p,
           items = (pre ++ it :: post)%list ->
           i_path it = Some p ->
           (forall it', In it' post -> i_path it' <> Some p) ->
           Dict.get p (path_data self) = Some it).
Proof.
  intros items self H.
  destruct (preprocess_input_spec _ _ H) as (_ & _ & _ & E & _).
  rewrite E. refine (conj _ (conj _ _)).
  - intros k. rewrite index_paths_keys. split.
    + intros [[]|Hk]. exact Hk.
    + intros Hk. now right.
  - apply index_paths_nodup. constructor.
  - intros pre it post p Ei Hp Hpost. subst items.
    now apply index_paths_last.
Qed.

Lemma track_from_app :
  forall l1 l2 idx order,
    track_from idx (l1 ++ l2) order
    = (o1 <- track_from idx l1 order ;;
       track_from (idx + Z.of_nat (List.length l1))%Z l2 o1).
Proof.
  induction l1 as [|x l1 IH]; intros l2 idx order.
  - cbn [app track_from List.length]. rewrite bind_ok.
    now replace (idx + Z.of_nat 0)%Z with idx by lia.
  - cbn [app track_from List.length]. unfold getitem_path.
    destruct (i_path x) as [p|]; [|reflexivity].
    rewrite !bind_ok, IH.
    now replace (idx + 1 + Z.of_nat (List.length l1))%Z
      with (idx + Z.of_nat (S (List.length l1)))%Z by lia.
Qed.

Lemma track_from_absent :
  forall items idx order order' p,
    (forall it, In it items -> i_path it <> Some p) ->
    track_from idx items order = Ok order' ->
    Dict.get p order' = Dict.get p order.
Proof.
  induction items as [|x items IH]; intros idx order order' p Hp H;
    cbn [track_from] in H.
  - now inversion H.
  - unfold getitem_path in H. destruct (i_path x) as [q|] eqn:Hq; [|discriminate].
    rewrite bind_ok in H.
    rewrite (IH _ _ _ p (fun it Hin => Hp it (or_intror Hin)) H).
    apply dict_get_set_other. intros E. subst q.
    apply (Hp x); [now left | exact Hq].
Qed.

(** X9: [_track_original_order] numbers the descriptors from 0; after
    [_preprocess_input] the order of a path is the position of the last
    descriptor that carries it, and the default 999999 for a path no
    descriptor carries. *)
Theorem original_order_is_last_position :
  forall (items : list item) (self : generator),
    _preprocess_input (new_generator items) = Ok self ->
    (forall pre it post p,
        items = (pre ++ it :: post)%list ->
        i_path it = Some p ->
        (forall it', In it' post -> i_path it' <> Some p) ->
        order_of self p = Z.of_nat (List.length pre))
    /\ (forall p,
           (forall it, In it items -> i_path it <> Some p) ->
           order_of self p = 999999%Z).
Proof.
  intros items self H.
  destruct (preprocess_input_spec _ _ H) as (_ & _ & E & _).
  unfold order_of. split.
  - intros pre it post p Ei Hp Hpost. subst items.
    rewrite track_from_app in E.
    destruct (track_from 0 pre Dict.empty) as [o1|e] eqn:E1; [|discriminate].
    rewrite bind_ok in E. cbn [track_from] in E. unfold getitem_path in E.
    rewrite Hp, bind_ok in E.
    rewrite (track_from_absent _ _ _ _ p Hpost E), dict_get_set_same.
    lia.
  - intros p Hp. now rewrite (track_from_absent _ _ _ _ p Hp E).
Qed.

Lemma first_of_segment_subsequence :
  forall items seen, subsequence (first_of_segment seen items) items.
Proof.
  induction items as [|x items IH]; intros seen; cbn [first_of_segment].
  - constructor.
  - destruct (set_mem string_dec (top_segment x) seen); constructor; apply IH.
Qed.

Lemma first_of_segment_nodup :
  forall items seen, NoDup (map top_segment (first_of_segment seen items)).
Proof.
  induction items as [|x items IH]; intros seen; cbn [first_of_segment].
  - constructor.
  - destruct (set_mem string_dec (top_segment x) seen); [apply IH|].
    cbn [map]. constructor; [|apply IH].
    intros Hin. apply in_map_iff in Hin. destruct Hin as [t [Et Hin]].
    apply first_of_segment_not_seen in Hin. apply Hin.
    rewrite Et. apply set_add_intro2. reflexivity.
Qed.

Lemma first_of_segment_covers :
  forall items seen it,
    In it items ->
    In (top_segment it) seen
    \/ exists t,
         In t (first_of_segment seen items) /\ top_segment t = top_segment it.
Proof.
  induction items as [|x items IH]; intros seen it Hin; [destruct Hin|].
  cbn [first_of_segment].
  destruct (set_mem string_dec (top_segment x) seen) eqn:E.
  - destruct Hin as [Hin|Hin].
    + subst x. left. eapply set_mem_correct1, E.
    + apply IH, Hin.
  - destruct Hin as [Hin|Hin].
    + subst x. right. exists it. split; [now left | reflexivity].
    + destruct (IH (set_add string_dec (top_segment x) seen) it Hin)
        as [Hs|[t [Ht Et]]].
      * apply set_add_elim in Hs. destruct Hs as [Hs|Hs]; [|now left].
        right. exists x. split; [now left | now symmetry].
      * right. exists t. split; [now right | exact Et].
Qed.

Lemma nodup_map_injective :
  forall (A B : Type) (f : A -> B) (l : list A) (a b : A),
    NoDup (map f l) -> In a l -> In b l -> f a = f b -> a = b.
Proof.
  intros A B f l a b. induction l as [|x l IH]; intros Hnd Ha Hb E;
    [destruct Ha|].
  cbn [map] in Hnd. inversion Hnd as [|? ? Hx Hnd']. subst.
  destruct Ha as [Ha|Ha], Hb as [Hb|Hb].
  - congruence.
  - subst x. exfalso. apply Hx. rewrite E. now apply in_map.
  - subst x. exfalso. apply Hx. rewrite <- E. now apply in_map.
  - now apply IH.
Qed.

(** X10: [top_level_items], as [_process_path_items] fills it in a fresh
    generator, is a subsequence of the input that holds exactly one
    descriptor per top-level segment: the first descriptor of the input
    with that segment. *)
Theorem top_level_items_first_of_each_segment :
  forall (items : list item) (self : generator),
    _preprocess_input (new_generator items) = Ok self ->
    subsequence (top_level_items self) items
    /\ NoDup (map top_segment (top_level_items self))
    /\ (forall it,
           In it items ->
           exists t,
             In t (top_level_items self) /\ top_segment t = top_segment it)
    /\ (forall t,
           In t (top_level_items self) ->
           find (fun it => String.eqb (top_segment it) (top_segment t)) items
           = Some t).
Proof.
  intros items self H.
  destruct (preprocess_input_spec _ _ H) as (_ & _ & _ & _ & E).
  rewrite E. refine (conj _ (conj _ (conj _ _))).
  - apply first_of_segment_subsequence.
  - apply first_of_segment_nodup.
  - intros it Hin.
    destruct (first_of_segment_covers items [] it Hin) as [[]|Ht]. exact Ht.
  - intros t Ht.
    destruct (find (fun it => String.eqb (top_segment it) (top_segment t)) items)
      as [t0|] eqn:F.
    + destruct (first_of_segment_find items [] t0 (top_segment t)
                  (fun x => x) F) as [pre [post [Ep _]]].
      apply find_some in F. destruct F as [_ F]. apply String.eqb_eq in F.
      f_equal. apply (nodup_map_injective _ _ top_segment
                        (first_of_segment [] items)).
      * apply first_of_segment_nodup.
      * rewrite Ep. apply in_elt.
      * exact Ht.
      * exact F.
    + exfalso. apply first_of_segment_incl in Ht.
      pose proof (find_none _ _ F t Ht) as N. cbv beta in N.
      now rewrite String.eqb_refl in N.
Qed.
(** ** What the two loops emit *)

(** Peeling a successful call: the branches taken and the calls that
    answered. *)
Ltac peel H :=
  repeat
    match type of H with
    | bind ?e _ = Ok _ =>
        let x := fresh "x" in
        let E := fresh "E" in
        destruct e as [x|] eqn:E; [rewrite bind_ok in H | discriminate H]
    | (if ?c then _ else _) = Ok _ =>
        let E := fresh "E" in destruct c eqn:E
    | (let '(_, _) := ?p in _) = Ok _ => destruct p
    | match ?p with (_, _) => _ end = Ok _ => destruct p
    end.

Lemma format_dotted_object_shape :
  forall self path fp comment after d,
    _format_dotted_object self path fp comment after = Ok d ->
    exists rest, d = "    " ++ fp ++ " " ++ rest.
Proof.
  intros self path fp comment after d H. unfold _format_dotted_object in H.
  peel H; inversion H; eexists; reflexivity.
Qed.

Lemma format_dotted_array_shape :
  forall self path fp it comment after d self',
    _format_dotted_array self path fp it comment after = Ok (d, self') ->
    exists rest, d = "    " ++ fp ++ " " ++ rest.
Proof.
  intros self path fp it comment after d self' H.
  unfold _format_dotted_array in H.
  peel H; inversion H; eexists; reflexivity.
Qed.

Lemma format_dotted_path_shape :
  forall self it path d self',
    i_path it = Some path ->
    _format_dotted_path self it = Ok (Some d, self') ->
    exists rest, d = "    " ++ format_path path ++ " " ++ rest.
Proof.
  intros self it path d self' Hp H.
  unfold _format_dotted_path, getitem_path in H. rewrite Hp, bind_ok in H.
  destruct (_ && _); [discriminate H|].
  destruct (_ && _); [discriminate H|].
  match type of H with
  | bind ?e _ = _ => destruct e as [[|]|]; [discriminate H | | discriminate H]
  end.
  rewrite bind_ok in H.
  destruct (getitem_value it) as [v|]; [|discriminate H].
  rewrite bind_ok in H.
  destruct (String.eqb v "object").
  { destruct (_format_dotted_object _ _ _ _ _) as [d0|] eqn:E; [|discriminate H].
    rewrite bind_ok in H. inversion H. subst.
    eapply format_dotted_object_shape, E. }
  destruct (String.eqb v "array").
  { destruct (_format_dotted_array _ _ _ _ _ _) as [[d0 s0]|] eqn:E;
      [|discriminate H].
    rewrite bind_ok in H. inversion H. subst.
    eapply format_dotted_array_shape, E. }
  inversion H. eexists. reflexivity.
Qed.

Lemma format_struct_shape :
  forall self path it d self',
    _format_struct self path it = Ok (Some d, self') ->
    exists rest, d = "    " ++ format_path path ++ " " ++ rest.
Proof.
  intros self path it d self' H. unfold _format_struct in H.
  destruct (is_processed self path); [discriminate H|].
  destruct (_get_direct_children self path) as [|c cs].
  - inversion H. eexists. reflexivity.
  - destruct (_format_struct_content _ _ _ _) as [content|]; [|discriminate H].
    rewrite bind_ok in H. inversion H. eexists. reflexivity.
Qed.

Lemma truthy_definition_some :
  forall d s, truthy_definition d = Some s -> d = Some s.
Proof.
  intros [x|] s H; [|discriminate H]. cbn [truthy_definition] in H.
  destruct (String.eqb x ""); [discriminate H | exact H].
Qed.

(** A step that emits a definition renders it from the descriptor's path
    and leaves that path processed. *)
Lemma top_level_step_emits :
  forall self it d self',
    top_level_step self it = Ok (Some d, self') ->
    exists path rest,
      i_path it = Some path
      /\ d = "    " ++ format_path path ++ " " ++ rest
      /\ is_processed self' path = true.
Proof.
  intros self it d self' H. unfold top_level_step, getitem_path in H.
  destruct (i_path it) as [path|] eqn:Hp; [|discriminate H].
  rewrite bind_ok in H. exists path.
  destruct (is_processed self path); [discriminate H|].
  destruct (getitem_value it) as [v|]; [|discriminate H].
  rewrite bind_ok in H.
  destruct (String.eqb v "object" && _has_children self path).
  - destruct (_format_struct self path it) as [[d0 s0]|] eqn:E; [|discriminate H].
    rewrite bind_ok in H.
    destruct (truthy_definition d0) as [s|] eqn:Et; [|discriminate H].
    inversion H. subst. apply truthy_definition_some in Et. subst d0.
    destruct (format_struct_shape _ _ _ _ _ E) as [rest Er].
    exists rest. split; [reflexivity|]. split; [exact Er|].
    apply mark_processed_covers. now left.
  - destruct (_format_dotted_path self it) as [[d0 s0]|] eqn:E; [|discriminate H].
    rewrite bind_ok in H.
    destruct (truthy_definition d0) as [s|] eqn:Et; [|discriminate H].
    inversion H. subst. apply truthy_definition_some in Et. subst d0.
    destruct (format_dotted_path_shape _ _ _ _ _ Hp E) as [rest Er].
    exists rest. split; [reflexivity|]. split; [exact Er|].
    now rewrite is_processed_add, String.eqb_refl.
Qed.

Lemma remaining_step_emits :
  forall self it d self',
    remaining_step self it = Ok (Some d, self') ->
    exists path rest,
      i_path it = Some path
      /\ d = "    " ++ format_path path ++ " " ++ rest
      /\ is_processed self' path = true.
Proof.
  intros self it d self' H. unfold remaining_step, getitem_path in H.
  destruct (i_path it) as [path|] eqn:Hp; [|discriminate H].
  rewrite bind_ok in H. exists path.
  destruct (_format_dotted_path self it) as [[d0 s0]|] eqn:E; [|discriminate H].
  rewrite bind_ok in H.
  destruct (truthy_definition d0) as [s|] eqn:Et; [|discriminate H].
  inversion H. subst. apply truthy_definition_some in Et. subst d0.
  destruct (format_dotted_path_shape _ _ _ _ _ Hp E) as [rest Er].
  exists rest. split; [reflexivity|]. split; [exact Er|].
  now rewrite is_processed_add, String.eqb_refl.
Qed.

Lemma collect_traced_subsequence :
  forall step l self emitted self',
    collect_traced step l self = Ok (emitted, self') ->
    subsequence (map fst emitted) l.
Proof.
  intros step l. induction l as [|it l IH]; intros self emitted self' H;
    cbn [collect_traced] in H.
  - inversion H. constructor.
  - destruct (step self it) as [[d s1]|]; [|discriminate H].
    rewrite bind_ok in H.
    destruct (collect_traced step l s1) as [[em s2]|] eqn:E; [|discriminate H].
    rewrite bind_ok in H. inversion H. subst.
    destruct d; cbn [map fst]; constructor; eapply IH, E.
Qed.

Lemma collect_traced_emitted :
  forall step : generator -> item -> result (option string * generator),
    (forall self it,
        wf_index self -> well_formed_item it = true ->
        exists d self' path,
          i_path it = Some path
          /\ step self it = Ok (d, self')
          /\ grows_by self self' path) ->
    (forall self it d self',
        step self it = Ok (Some d, self') ->
        exists path rest,
          i_path it = Some path
          /\ d = "    " ++ format_path path ++ " " ++ rest
          /\ is_processed self' path = true) ->
    forall l self emitted self',
      wf_index self -> forallb well_formed_item l = true ->
      collect_traced step l self = Ok (emitted, self') ->
      forall e,
        In e emitted ->
        exists path rest,
          i_path (fst e) = Some path
          /\ snd e = "    " ++ format_path path ++ " " ++ rest
          /\ is_processed self' path = true.
Proof.
  intros step Hstep Hemit l. induction l as [|it l IH];
    intros self emitted self' Hwf Hl H e He; cbn [collect_traced] in H.
  - inversion H. subst. destruct He.
  - cbn [forallb] in Hl. apply andb_prop in Hl. destruct Hl as [Hit Hl].
    destruct (Hstep self it Hwf Hit) as (d & s1 & path & Hp & E1 & Hg).
    pose proof (wf_index_grows _ _ _ Hg Hwf) as Hwf1.
    rewrite E1, bind_ok in H.
    destruct (collect_traced_spec step Hstep l s1 Hwf1 Hl)
      as (em & s2 & E2 & _ & _ & Hmono & _).
    rewrite E2, bind_ok in H. inversion H. subst. clear H.
    assert (Htail : forall x, In x em ->
              exists path0 rest,
                i_path (fst x) = Some path0
                /\ snd x = "    " ++ format_path path0 ++ " " ++ rest
                /\ is_processed self' path0 = true).
    { intros x Hx. eapply IH; eauto. }
    destruct d as [s|]; [|apply Htail, He].
    destruct He as [He|He]; [|apply Htail, He]. subst e.
    destruct (Hemit _ _ _ _ E1) as (path0 & rest & Hp0 & Es & Hproc).
    exists path0, rest. cbn [fst snd].
    split; [exact Hp0|]. split; [exact Es|]. apply Hmono, Hproc.
Qed.

Lemma subsequence_incl :
  forall (A : Type) (l1 l2 : list A), subsequence l1 l2 -> incl l1 l2.
Proof.
  intros A l1 l2 H. induction H; intros a Ha.
  - destruct Ha.
  - right. apply IHsubsequence, Ha.
  - destruct Ha as [Ha|Ha]; [now left | right; apply IHsubsequence, Ha].
Qed.

Lemma subsequence_nodup :
  forall (A : Type) (l1 l2 : list A), subsequence l1 l2 -> NoDup l2 -> NoDup l1.
Proof.
  intros A l1 l2 H. induction H; intros Hnd.
  - constructor.
  - inversion Hnd. auto.
  - inversion Hnd as [|? ? Hx Hnd']. subst. constructor; [|auto].
    intros Hin. apply Hx. eapply subsequence_incl; eauto.
Qed.

Lemma subsequence_map :
  forall (A B : Type) (f : A -> B) (l1 l2 : list A),
    subsequence l1 l2 -> subsequence (map f l1) (map f l2).
Proof. intros A B f l1 l2 H. induction H; cbn [map]; constructor; assumption. Qed.

Lemma remaining_of_subsequence :
  forall self items l, remaining_of self items = Ok l -> subsequence l items.
Proof.
  intros self items. induction items as [|it items IH]; intros l H;
    cbn [remaining_of] in H.
  - inversion H. constructor.
  - destruct (getitem_path it) as [p|]; [|discriminate H].
    rewrite bind_ok in H.
    destruct (remaining_of self items) as [r|]; [|discriminate H].
    rewrite bind_ok in H.
    destruct (_ && _); inversion H; constructor; now apply IH.
Qed.

(** The two loops of [generate_sql] on a well-formed list. *)
Lemma traced_definitions_run :
  forall items,
    well_formed items = true ->
    exists st e1 s1 rem e2 s2,
      indexed items st
      /\ wf_index st
      /\ processed_paths st = []
      /\ collect_traced top_level_step (top_level_items st) st = Ok (e1, s1)
      /\ wf_index s1
      /\ input_data s1 = items
      /\ remaining_of s1 items = Ok rem
      /\ collect_traced remaining_step (sort_by (remaining_key s1) rem) s1
         = Ok (e2, s2)
      /\ (forall q, is_processed s1 q = true -> is_processed s2 q = true)
      /\ input_data s2 = items
      /\ traced_definitions_of (new_generator items) = Ok ((e1 ++ e2)%list, s2).
Proof.
  intros items Hwf.
  pose proof Hwf as Hwf'. unfold well_formed in Hwf'.
  rewrite forallb_forall in Hwf'.
  assert (Hpaths : forallb has_path items = true).
  { apply forallb_forall. intros it Hin.
    destruct (well_formed_item_inv it (Hwf' it Hin)) as ((p & Hpp & _) & _).
    unfold has_path. now rewrite Hpp. }
  destruct (preprocess_input_total items Hpaths) as [st0 E0].
  destruct (preprocess_input_spec items st0 E0) as (I1 & I2 & _ & I4 & I5).
  destruct (process_array_elements_spec st0) as [(S1 & S2 & _ & S4 & S5 & _) _].
  pose proof (indexed_wf items st0 Hwf E0) as Hwfst.
  set (st := _process_array_elements st0) in *.
  assert (Hwfl : forall l, (forall it, In it l -> In it items) ->
                           forallb well_formed_item l = true).
  { intros l Hl. apply forallb_forall. intros it Hin. apply Hwf', Hl, Hin. }
  destruct (collect_traced_spec top_level_step top_level_step_spec
              (top_level_items st) st Hwfst)
    as (e1 & s1 & E1 & _ & Hsame1 & _ & _).
  { apply Hwfl. intros it Hin. rewrite <- S5, I5 in Hin.
    eapply first_of_segment_incl, Hin. }
  assert (Hwf1 : wf_index s1) by (rewrite Hsame1; exact Hwfst).
  assert (Hin1 : input_data s1 = items).
  { rewrite Hsame1. cbn [input_data set_processed_paths]. congruence. }
  destruct (remaining_of_ok s1 items Hwf) as (rem & Erem & Hrem).
  destruct (collect_traced_spec remaining_step remaining_step_spec
              (sort_by (remaining_key s1) rem) s1 Hwf1)
    as (e2 & s2 & E2 & _ & Hsame2 & Hmono2 & _).
  { apply Hwfl. intros it Hin. apply sort_by_in in Hin. apply Hrem, Hin. }
  exists st, e1, s1, rem, e2, s2.
  split; [exists st0; split; [exact E0 | reflexivity]|].
  split; [exact Hwfst|].
  split; [now rewrite <- S2|].
  split; [exact E1|]. split; [exact Hwf1|]. split; [exact Hin1|].
  split; [exact Erem|]. split; [exact E2|]. split; [exact Hmono2|].
  split.
  { rewrite Hsame2. cbn [input_data set_processed_paths]. exact Hin1. }
  unfold traced_definitions_of. rewrite E0, bind_ok. fold st.
  rewrite E1, bind_ok. unfold _get_remaining_items.
  rewrite Hin1, Erem, bind_ok, E2, bind_ok. reflexivity.
Qed.

(** ** [generate_sql] on a well-formed list *)

(** X11: [OrderPreservingGenerator.generate_sql] raises nothing on a list
    whose descriptors each carry a non-empty path, a kind, and a
    [nestedFields] entry that is absent, false, ["None"] or a dictionary
    with a name.  Every column definition it joins is rendered from a
    descriptor of the list: it starts with four spaces, the backticked path
    of that descriptor and a space, and that path is processed when the
    call returns. *)
Theorem generate_sql_succeeds_on_well_formed_input :
  forall items : list item,
    well_formed items = true ->
    exists emitted self,
      traced_definitions_of (new_generator items) = Ok (emitted, self)
      /\ generate_sql (new_generator items)
         = Ok (add_columns_statement (map snd emitted), self)
      /\ input_data self = items
      /\ forall e,
           In e emitted ->
           In (fst e) items
           /\ exists path rest,
                i_path (fst e) = Some path
                /\ snd e = "    " ++ format_path path ++ " " ++ rest
                /\ is_processed self path = true.
Proof.
  intros items Hwf.
  destruct (traced_definitions_run items Hwf)
    as (st & e1 & s1 & rem & e2 & s2 & Hidx & Hwfst & _ & E1 & Hwf1 & Hin1
        & Erem & E2 & Hmono2 & Hin2 & Htr).
  pose proof Hwf as Hwf'. unfold well_formed in Hwf'.
  rewrite forallb_forall in Hwf'.
  destruct Hidx as (st0 & E0 & Est).
  destruct (preprocess_input_spec items st0 E0) as (_ & _ & _ & _ & I5).
  destruct (process_array_elements_spec st0) as [(_ & _ & _ & _ & S5 & _) _].
  rewrite <- Est in S5.
  assert (Htop : forall it, In it (top_level_items st) -> In it items).
  { intros it Hin. rewrite <- S5, I5 in Hin. eapply first_of_segment_incl, Hin. }
  destruct (remaining_of_ok s1 items Hwf) as (rem' & Erem' & Hrem).
  rewrite Erem in Erem'. inversion Erem'. subst rem'. clear Erem'.
  exists (e1 ++ e2)%list, s2. split; [exact Htr|]. split.
  { unfold generate_sql. rewrite traced_definitions_erase, Htr. reflexivity. }
  split; [exact Hin2|].
  intros e He. apply in_app_or in He. destruct He as [He|He].
  - split.
    + apply Htop. eapply subsequence_incl.
      * eapply collect_traced_subsequence, E1.
      * now apply in_map.
    + destruct (collect_traced_emitted top_level_step top_level_step_spec
                  top_level_step_emits (top_level_items st) st e1 s1 Hwfst)
        with (e := e) as (path & rest & Hp & Es & Hproc); try assumption.
      { apply forallb_forall. intros it Hin. apply Hwf', Htop, Hin. }
      exists path, rest. split; [exact Hp|]. split; [exact Es|].
      apply Hmono2, Hproc.
  - assert (Hsub : forall it, In it (sort_by (remaining_key s1) rem) -> In it items).
    { intros it Hin. apply sort_by_in in Hin. apply Hrem, Hin. }
    split.
    + apply Hsub. eapply subsequence_incl.
      * eapply collect_traced_subsequence, E2.
      * now apply in_map.
    + eapply (collect_traced_emitted remaining_step remaining_step_spec
                remaining_step_emits (sort_by (remaining_key s1) rem) s1 e2 s2);
        try eassumption.
      apply forallb_forall. intros it Hin. apply Hwf', Hsub, Hin.
Qed.
(** X12: when the paths of a well-formed list are pairwise distinct, no
    two column definitions are rendered from the same path, so there are at
    most as many column definitions as descriptors. *)
Theorem no_path_rendered_twice :
  forall items : list item,
    well_formed items = true ->
    NoDup (map i_path items) ->
    exists emitted self,
      traced_definitions_of (new_generator items) = Ok (emitted, self)
      /\ NoDup (map (fun e => i_path (fst e)) emitted)
      /\ List.length emitted <= List.length items.
Proof.
  intros items Hwf Hnd.
  destruct (traced_definitions_run items Hwf)
    as (st & e1 & s1 & rem & e2 & s2 & Hidx & Hwfst & _ & E1 & Hwf1 & Hin1
        & Erem & E2 & Hmono2 & Hin2 & Htr).
  pose proof Hwf as Hwf'. unfold well_formed in Hwf'.
  rewrite forallb_forall in Hwf'.
  destruct Hidx as (st0 & E0 & Est).
  destruct (preprocess_input_spec items st0 E0) as (_ & _ & _ & _ & I5).
  destruct (process_array_elements_spec st0) as [(_ & _ & _ & _ & S5 & _) _].
  rewrite <- Est in S5.
  destruct (remaining_of_ok s1 items Hwf) as (rem' & Erem' & Hrem).
  rewrite Erem in Erem'. inversion Erem'. subst rem'. clear Erem'.
  assert (Htops : subsequence (top_level_items st) items).
  { rewrite <- S5, I5. apply first_of_segment_subsequence. }
  assert (N1 : NoDup (map i_path (map fst e1))).
  { eapply subsequence_nodup.
    - apply subsequence_map. eapply collect_traced_subsequence, E1.
    - eapply subsequence_nodup; [apply subsequence_map, Htops | exact Hnd]. }
  assert (N2 : NoDup (map i_path (map fst e2))).
  { eapply subsequence_nodup.
    - apply subsequence_map. eapply collect_traced_subsequence, E2.
    - eapply Permutation_NoDup.
      + apply Permutation_map, sort_by_perm.
      + eapply subsequence_nodup;
          [apply subsequence_map; eapply remaining_of_subsequence, Erem
          | exact Hnd]. }
  assert (Hnodup : NoDup (map (fun e => i_path (fst e)) (e1 ++ e2))).
  { rewrite <- (map_map fst i_path), map_app, map_app.
    apply NoDup_app; [exact N1 | exact N2 |].
    intros a Ha1 Ha2.
    apply in_map_iff in Ha1. destruct Ha1 as [x [Ex Hx]].
    apply in_map_iff in Hx. destruct Hx as [ex [Eex Hex]]. subst x.
    apply in_map_iff in Ha2. destruct Ha2 as [y [Ey Hy]].
    destruct (collect_traced_emitted top_level_step top_level_step_spec
                top_level_step_emits (top_level_items st) st e1 s1 Hwfst)
      with (e := ex) as (path & rest & Hp & _ & Hproc); try assumption.
    { apply forallb_forall. intros it Hin. apply Hwf'.
      eapply subsequence_incl; eauto. }
    assert (Hy' : In y rem).
    { apply (sort_by_in _ (remaining_key s1)).
      eapply subsequence_incl; [eapply collect_traced_subsequence, E2 | exact Hy]. }
    destruct (Hrem y Hy') as (_ & p & Hpy & Hnot).
    rewrite <- Ex, Hp in Ey. rewrite Hpy in Ey. inversion Ey. subst p.
    congruence. }
  exists (e1 ++ e2)%list, s2. split; [exact Htr|]. split; [exact Hnodup|].
  rewrite <- (length_map (fun e => i_path (fst e)) (e1 ++ e2)).
  rewrite <- (length_map i_path items).
  apply NoDup_incl_length; [exact Hnodup|].
  intros a Ha. apply in_map_iff in Ha. destruct Ha as [e [Ee He]]. subst a.
  apply in_map. apply in_app_or in He. destruct He as [He|He].
  - eapply subsequence_incl; [exact Htops|].
    eapply subsequence_incl; [eapply collect_traced_subsequence, E1|].
    now apply in_map.
  - apply (Hrem (fst e)). apply (sort_by_in _ (remaining_key s1)).
    eapply subsequence_incl; [eapply collect_traced_subsequence, E2|].
    now apply in_map.
Qed.
(** ** Dot-free paths: the whole statement *)

Lemma format_nestedfield_visible :
  forall name nf indent, strip_nonempty (_format_nestedfield name nf indent) = true.
Proof.
  intros name nf indent. unfold _format_nestedfield.
  rewrite 2 strip_nonempty_app.
  assert (V : forall x, strip_nonempty (": " ++ x) = true) by reflexivity.
  rewrite V. now rewrite !orb_true_r.
Qed.

Lemma format_dotted_path_flat_exact :
  forall self it p v,
    (forall k, In k (Dict.keys (path_data self)) -> contains "." k = false) ->
    array_element_fields self = Dict.empty ->
    nested_arrays self = Dict.empty ->
    i_path it = Some p -> contains "." p = false -> i_value it = Some v ->
    Dict.get p (path_data self) = Some it ->
    nested_fields_usable it = true ->
    _format_dotted_path self it = Ok (Some (flat_column_definition it), self).
Proof.
  intros self it p v Hkeys Haef Hnested Hp Hflat Hv Hget Hu.
  unfold _format_dotted_path, getitem_path, getitem_value, flat_column_definition.
  rewrite Hp, Hv. cbn [bind].
  rewrite (not_contains_marker p Hflat), (split_without_separator _ _ Hflat).
  cbn [andb List.length Nat.ltb Nat.leb Nat.sub seq existsb bind].
  destruct (String.eqb v "object").
  { unfold _format_dotted_object. rewrite (has_children_flat self p Hkeys).
    reflexivity. }
  destruct (String.eqb v "array"); [|reflexivity].
  unfold _format_dotted_array. rewrite Haef. cbn [Dict.get Dict.empty orb].
  unfold nested_fields_usable in Hu.
  destruct (usable_nested_fields it) as [[| |nf]|] eqn:Eu; try discriminate;
    [|reflexivity].
  unfold _format_array_struct_content, _collect_array_fields.
  rewrite Hget, Eu, Haef, Hnested.
  cbn [bind Dict.get Dict.empty Dict.get_list fold_left Dict.set Dict.keys map
       fst sort_by fold_right insert_by for_each].
  rewrite String.eqb_refl.
  cbn [bind set_mem empty_set fst app].
  unfold _mark_array_elements_processed. rewrite Haef.
  cbn [Dict.get Dict.empty].
  change (join ("," ++ nl) [_format_nestedfield
                              match nf_name nf with Some n => n | None => "id" end
                              nf (spaces (3 * 4))])
    with (_format_nestedfield (nested_field_name nf) nf (spaces 12)).
  rewrite format_nestedfield_visible. reflexivity.
Qed.

Lemma collect_traced_flat_exact :
  forall l self,
    (forall k, In k (Dict.keys (path_data self)) -> contains "." k = false) ->
    array_element_fields self = Dict.empty ->
    nested_arrays self = Dict.empty ->
    NoDup (map i_path l) ->
    (forall it, In it l ->
                has_value it = true /\ nested_fields_usable it = true
                /\ exists p, i_path it = Some p /\ contains "." p = false
                             /\ Dict.get p (path_data self) = Some it
                             /\ is_processed self p = false) ->
    exists self',
      collect_traced top_level_step l self
      = Ok (map (fun it => (it, flat_column_definition it)) l, self')
      /\ self' = set_processed_paths self (processed_paths self')
      /\ (forall it, In it l ->
                     exists p, i_path it = Some p /\ is_processed self' p = true)
      /\ (forall q, is_processed self q = true -> is_processed self' q = true).
Proof.
  induction l as [|it l IH]; intros self Hkeys Haef Hnested Hnd Hl.
  - exists self. split; [reflexivity|].
    split; [apply set_processed_paths_eta|]. split; [intros it []|auto].
  - destruct (Hl it (or_introl eq_refl))
      as (Hv & Hu & p & Hp & Hflat & Hget & Hproc).
    unfold has_value in Hv. destruct (i_value it) as [v|] eqn:Ev; [|discriminate].
    pose proof (format_dotted_path_flat_exact self it p v Hkeys Haef Hnested Hp
                  Hflat Ev Hget Hu) as Hfmt.
    assert (Hne : exists s, truthy_definition (Some (flat_column_definition it))
                            = Some s /\ s = flat_column_definition it).
    { unfold truthy_definition.
      destruct (String.eqb_spec (flat_column_definition it) "") as [E|_];
        [|eauto].
      exfalso. unfold flat_column_definition in E. rewrite Hp, Ev in E.
      cbv zeta in E.
      destruct (String.eqb v "object"); [discriminate E|].
      destruct (String.eqb v "array"); [|discriminate E].
      destruct (usable_nested_fields it) as [[| |nf]|]; discriminate E. }
    destruct Hne as (s & Hs & Es).
    assert (Hstep : top_level_step self it
                    = Ok (Some (flat_column_definition it), add_processed self p)).
    { unfold top_level_step, getitem_path, getitem_value.
      rewrite Hp, Ev, !bind_ok, Hproc, (has_children_flat self p Hkeys).
      rewrite andb_false_r, Hfmt, bind_ok, Hs, Es. reflexivity. }
    inversion Hnd as [|? ? Hnotin Hnd']. subst.
    destruct (IH (add_processed self p)) as (self' & E & Hsame & Hall & Hmono);
      try assumption.
    { intros it' Hin.
      destruct (Hl it' (or_intror Hin))
        as (Hv' & Hu' & p' & Hp' & Hflat' & Hget' & Hproc').
      repeat split; try assumption. exists p'. repeat split; try assumption.
      rewrite is_processed_add, Hproc', orb_false_r.
      apply String.eqb_neq. intros Heq. subst p'. apply Hnotin.
      rewrite Hp, <- Hp'. now apply in_map. }
    exists self'. cbn [collect_traced map]. rewrite Hstep, bind_ok, E, bind_ok.
    split; [reflexivity|]. split.
    { rewrite Hsame at 1. reflexivity. }
    split.
    + intros it' [Hin|Hin].
      * subst it'. exists p. split; [exact Hp|]. apply Hmono.
        now rewrite is_processed_add, String.eqb_refl.
      * apply Hall, Hin.
    + intros q Hq. apply Hmono. rewrite is_processed_add, Hq. apply orb_true_r.
Qed.

(** X13: for an ADD list whose paths are free of dots and pairwise
    distinct (each descriptor carrying a kind and a usable [nestedFields]
    entry), [generate_sql] returns the ADD COLUMNS statement that joins, in
    the order of the input, one definition per descriptor: the backticked
    name, then [struct<>] for an object, [array<...>] for an array (its
    [arr_type], [string] by default, or the one-field struct its
    [nestedFields] describes), the table's name of the kind or the kind
    itself otherwise, then the comment and the AFTER or FIRST clause. *)
Theorem flat_add_statement :
  forall items : list item,
    forallb flat items = true ->
    forallb has_value items = true ->
    forallb nested_fields_usable items = true ->
    NoDup (map i_path items) ->
    returned (generate_sql (new_generator items))
    = Ok (add_columns_statement (map flat_column_definition items)).
Proof.
  intros items Hflat Hv Hu Hnd.
  rewrite forallb_forall in Hflat, Hv, Hu.
  assert (Hpaths : forallb has_path items = true).
  { apply forallb_forall. intros it Hin. specialize (Hflat it Hin).
    unfold flat in Hflat. unfold has_path.
    destruct (i_path it); [reflexivity | discriminate]. }
  assert (Hdot : forall it p, In it items -> i_path it = Some p ->
                              contains "." p = false).
  { intros it p Hin Hp. specialize (Hflat it Hin). unfold flat in Hflat.
    rewrite Hp in Hflat. now apply negb_true_iff in Hflat. }
  destruct (preprocess_input_total items Hpaths) as [st0 E0].
  destruct (preprocess_input_spec items st0 E0) as (I1 & I2 & _ & I4 & I5).
  destruct (process_array_elements_spec st0) as [(S1 & S2 & _ & S4 & S5 & _) _].
  set (st := _process_array_elements st0) in *.
  assert (Hkeys : forall k, In k (Dict.keys (path_data st)) ->
                            contains "." k = false).
  { intros k Hk. rewrite <- S4, I4 in Hk. apply index_paths_keys in Hk.
    destruct Hk as [[]|[it [Hin Hp]]]. eapply Hdot; eauto. }
  destruct (process_array_elements_flat st0) as [Haef Hnested].
  { intros k Hk. apply not_contains_marker. apply Hkeys. now rewrite <- S4. }
  fold st in Haef, Hnested.
  assert (Htop : top_level_items st = items).
  { rewrite <- S5, I5. apply first_of_segment_all; [|intros it _ []].
    apply (NoDup_map_inv (@Some string)).
    rewrite map_map.
    replace (map (fun x => Some (top_segment x)) items) with (map i_path items);
      [exact Hnd|].
    apply map_ext_in. intros it Hin. unfold top_segment.
    destruct (i_path it) as [p|] eqn:Hp.
    - rewrite (split_without_separator _ _ (Hdot it p Hin Hp)). reflexivity.
    - specialize (Hflat it Hin). unfold flat in Hflat. rewrite Hp in Hflat.
      discriminate. }
  destruct (collect_traced_flat_exact items st Hkeys Haef Hnested Hnd)
    as (self' & E & Hsame & Hall & _).
  { intros it Hin. split; [apply Hv, Hin|]. split; [apply Hu, Hin|].
    pose proof (Hflat it Hin) as Hf. unfold flat in Hf.
    destruct (i_path it) as [p|] eqn:Hp; [|discriminate].
    exists p. split; [reflexivity|]. split; [eapply Hdot; eauto|]. split.
    - rewrite <- S4, I4. now apply index_paths_get_unique.
    - unfold is_processed. rewrite <- S2, I2. reflexivity. }
  unfold generate_sql. rewrite traced_definitions_erase.
  unfold traced_definitions_of. rewrite E0, bind_ok. fold st.
  rewrite Htop, E, bind_ok. unfold _get_remaining_items.
  replace (input_data self') with items
    by (rewrite Hsame; cbn [input_data set_processed_paths]; congruence).
  rewrite (remaining_of_all_processed self' items Hall), bind_ok.
  cbn [sort_by fold_right collect_traced bind returned].
  now rewrite app_nil_r, map_map.
Qed.
(** ** [SQLColumnGenerator]: the groups, one after the other *)

Lemma all_statements_concat :
  forall groups,
    all_statements groups
    = (per_group <- map_result group_statements groups ;; Ok (concat per_group)).
Proof.
  induction groups as [|g groups IH]; [reflexivity|].
  cbn [all_statements map_result]. rewrite IH.
  destruct (group_statements g) as [stmts|e]; [|reflexivity].
  rewrite !bind_ok.
  destruct (map_result group_statements groups) as [per|e]; reflexivity.
Qed.

(** X14: [SQLColumnGenerator.generate_sql] returns the statements of its
    groups concatenated in the order of the groups, and raises what the
    first failing group raises, no statement being returned then; so the
    output for two lists put end to end is the output for the first
    followed by the output for the second. *)
Theorem statements_follow_group_order :
  forall groups more : list operation_group,
    fst (SQLColumnGenerator_generate_sql {| scg_input_data := groups |})
    = (per_group <- map_result group_statements groups ;; Ok (concat per_group))
    /\ fst (SQLColumnGenerator_generate_sql
              {| scg_input_data := (groups ++ more)%list |})
       = (stmts <- fst (SQLColumnGenerator_generate_sql
                          {| scg_input_data := groups |}) ;;
          stmts' <- fst (SQLColumnGenerator_generate_sql
                           {| scg_input_data := more |}) ;;
          Ok (stmts ++ stmts')%list).
Proof.
  intros groups more. cbn [SQLColumnGenerator_generate_sql fst scg_input_data].
  split; [apply all_statements_concat|].
  induction groups as [|g groups IH].
  - cbn [app all_statements]. rewrite bind_ok.
    destruct (all_statements more); reflexivity.
  - cbn [app all_statements]. rewrite IH.
    destruct (group_statements g) as [stmts|e]; [|reflexivity].
    rewrite !bind_ok.
    destruct (all_statements groups) as [s1|e]; [|reflexivity].
    rewrite !bind_ok.
    destruct (all_statements more) as [s2|e]; [|reflexivity].
    rewrite !bind_ok. now rewrite app_assoc.
Qed.

Lemma move_statement_cases :
  forall c,
    match i_path c, i_value c with
    | Some p, Some v =>
        move_statement c
        = Ok ("ALTER TABLE {table_name} RENAME COLUMN " ++ format_path p
                ++ " TO `" ++ v ++ "`")
    | Some _, None => move_statement c = Raise (KeyError "value")
    | None, _ => move_statement c = Raise (KeyError "path")
    end.
Proof.
  intros c. unfold move_statement, getitem_path, getitem_value.
  destruct (i_path c), (i_value c); reflexivity.
Qed.

(** X15: a REMOVE group over dotted paths raises nothing and gives one
    DROP COLUMN statement per path, in order, the path backticked segment
    by segment.  A MOVE group gives one RENAME COLUMN statement per entry,
    in order, the new name being the entry's [value] put between backticks
    as it is; the group raises [KeyError] as soon as an entry lacks its path
    or its value. *)
Theorem remove_and_move_statements :
  forall (paths : list string) (entries : list item),
    group_statements {| operation := "REMOVE"; columns := ColumnPaths paths |}
    = Ok (map (fun p => "ALTER TABLE {table_name} DROP COLUMN " ++ format_path p)
            paths)
    /\ if forallb (fun c => has_path c && has_value c) entries
       then exists stmts,
           group_statements
             {| operation := "MOVE"; columns := ColumnDicts entries |}
           = Ok stmts
           /\ Forall2
                (fun c s =>
                   exists p v,
                     i_path c = Some p /\ i_value c = Some v
                     /\ s = "ALTER TABLE {table_name} RENAME COLUMN "
                            ++ format_path p ++ " TO `" ++ v ++ "`")
                entries stmts
       else exists key,
           group_statements
             {| operation := "MOVE"; columns := ColumnDicts entries |}
           = Raise (KeyError key)
           /\ (key = "path" \/ key = "value").
Proof.
  intros paths entries. split; [reflexivity|].
  change (group_statements
            {| operation := "MOVE"; columns := ColumnDicts entries |})
    with (map_result move_statement entries).
  induction entries as [|c entries IH]; cbn [forallb map_result].
  - exists []. split; [reflexivity | constructor].
  - pose proof (move_statement_cases c) as Hc. unfold has_path, has_value.
    destruct (i_path c) as [p|] eqn:Hp.
    2:{ rewrite Hc. exists "path". split; [reflexivity | now left]. }
    destruct (i_value c) as [v|] eqn:Hv.
    2:{ rewrite Hc. exists "value". split; [reflexivity | now right]. }
    rewrite Hc, bind_ok. cbn [andb].
    unfold has_path, has_value in IH.
    destruct (forallb _ entries).
    + destruct IH as (stmts & E & F). rewrite E, bind_ok.
      eexists. split; [reflexivity|]. constructor; [|exact F].
      exists p, v. repeat split; assumption.
    + destruct IH as (key & E & K). rewrite E. exists key.
      split; [reflexivity | exact K].
Qed.
(** ** The children of a struct *)

Lemma string_app_inv_head : forall a b c : string, a ++ b = a ++ c -> b = c.
Proof.
  induction a as [|x a IH]; intros b c H; [exact H|].
  cbn [append] in H. inversion H. now apply IH.
Qed.

Lemma drop_app_length : forall a b, drop (String.length a) (a ++ b) = b.
Proof. induction a as [|x a IH]; intros b; [reflexivity | apply IH]. Qed.

Lemma append_new_nodup : forall x l, NoDup l -> NoDup (append_new x l).
Proof.
  intros x l H. unfold append_new. destruct (mem_string x l) eqn:E; [exact H|].
  apply NoDup_app; [exact H | repeat constructor; intros [] |].
  intros a Ha [Hx|[]]. subst a.
  apply mem_string_in in Ha. congruence.
Qed.

(** The first loop of [_get_ordered_children]. *)
Lemma ordered_children_first_loop :
  forall (cp : string -> string) (direct fields acc : list string),
    fold_left
      (fun ordered_children field =>
         if mem_string (cp field) direct
         then (ordered_children ++ [cp field])%list
         else ordered_children)
      fields acc
    = (acc ++ map cp (filter (fun f => mem_string (cp f) direct) fields))%list.
Proof.
  intros cp direct fields. induction fields as [|f fields IH]; intros acc.
  - cbn. now rewrite app_nil_r.
  - cbn [fold_left filter]. rewrite IH.
    destruct (mem_string (cp f) direct); [|reflexivity].
    cbn [map]. now rewrite <- app_assoc.
Qed.

Lemma map_injective_nodup :
  forall (A B : Type) (f : A -> B) (l : list A),
    (forall a b, f a = f b -> a = b) -> NoDup l -> NoDup (map f l).
Proof.
  intros A B f l Hinj H. induction H as [|x l Hx H IH]; cbn [map]; constructor.
  - intros Hin. apply in_map_iff in Hin. destruct Hin as [y [E Hy]].
    apply Hinj in E. now subst.
  - exact IH.
Qed.

Lemma append_new_loop :
  forall (l acc : list string),
    let r := fold_left (fun a c => append_new c a) l acc in
    (forall x, In x r <-> In x acc \/ In x l)
    /\ (NoDup acc -> NoDup r).
Proof.
  induction l as [|c l IH]; intros acc; cbn [fold_left].
  - split; [intros x; split; [auto | intros [H|[]]; exact H] | auto].
  - destruct (IH (append_new c acc)) as [H1 H2]. cbv zeta in *. split.
    + intros x. rewrite H1, in_append_new. cbn [In]. split.
      * intros [[H|H]|H]; auto.
      * intros [H|[H|H]]; auto.
    + intros Hnd. apply H2, append_new_nodup, Hnd.
Qed.

(** X16: [_get_ordered_children] returns the paths [_get_direct_children]
    returns, no other, sorted by their original order; when the field
    order of the struct holds no name twice, as [_build_field_order_hierarchy]
    leaves it, a path comes once even if [_get_direct_children] returned it
    twice. *)
Theorem ordered_children_are_the_direct_children :
  forall (self : generator) (p : string),
    (forall c,
        In c (_get_ordered_children self p)
        <-> In c (_get_direct_children self p))
    /\ StronglySorted (fun a b => (order_of self a <= order_of self b)%Z)
         (_get_ordered_children self p)
    /\ (NoDup (Dict.get_list p (field_order self)) ->
        NoDup (_get_ordered_children self p)).
Proof.
  intros self p. unfold _get_ordered_children.
  set (direct := _get_direct_children self p).
  set (cp := fun field => if String.eqb p "" then field else p ++ "." ++ field).
  change (fold_left
            (fun ordered_children field =>
               if mem_string (if String.eqb p "" then field else p ++ "." ++ field)
                    direct
               then (ordered_children
                       ++ [(if String.eqb p "" then field
                            else p ++ "." ++ field)%string])%list
               else ordered_children)
            (Dict.get_list p (field_order self)) [])
    with (fold_left
            (fun ordered_children field =>
               if mem_string (cp field) direct
               then (ordered_children ++ [cp field])%list
               else ordered_children)
            (Dict.get_list p (field_order self)) []).
  rewrite ordered_children_first_loop. cbn [app].
  set (first_pass :=
         map cp (filter (fun f => mem_string (cp f) direct)
                   (Dict.get_list p (field_order self)))).
  destruct (append_new_loop direct first_pass) as [Hin Hnd]. cbv zeta in *.
  assert (Hfirst : forall c, In c first_pass -> In c direct).
  { intros c Hc. subst first_pass. apply in_map_iff in Hc.
    destruct Hc as [f [E Hf]]. apply filter_In in Hf. destruct Hf as [_ Hf].
    apply mem_string_in in Hf. now subst. }
  refine (conj _ (conj _ _)).
  - intros c. rewrite sort_by_in, Hin. split; [intros [H|H]; auto | auto].
  - apply sort_by_sorted.
  - intros Hfields. eapply Permutation_NoDup; [apply sort_by_perm|].
    apply Hnd. subst first_pass. apply map_injective_nodup.
    + intros a b E. subst cp. cbv beta in E.
      destruct (String.eqb p ""); [exact E|].
      apply string_app_inv_head in E. now apply string_app_inv_head in E.
    + apply NoDup_filter, Hfields.
Qed.

Lemma fold_left_grows :
  forall (f : list string -> string -> list string) (l : list string)
         (acc : list string) (x : string),
    (forall a y z, In z a -> In z (f a y)) ->
    In x acc -> In x (fold_left f l acc).
Proof.
  intros f l. induction l as [|y l IH]; intros acc x Hf Hx; [exact Hx|].
  cbn [fold_left]. apply IH; [exact Hf | apply Hf, Hx].
Qed.

Lemma fold_left_reaches :
  forall (f : list string -> string -> list string) (l : list string)
         (acc : list string) (k x : string),
    (forall a y z, In z a -> In z (f a y)) ->
    In k l -> (forall a, In x (f a k)) -> In x (fold_left f l acc).
Proof.
  intros f l. induction l as [|y l IH]; intros acc k x Hf Hk Hx; [destruct Hk|].
  cbn [fold_left]. destruct Hk as [Hk|Hk].
  - subst y. apply fold_left_grows; [exact Hf | apply Hx].
  - eapply IH; eauto.
Qed.

Lemma add_direct_child_grows :
  forall self path remaining direct parent z,
    In z direct ->
    In z (_add_direct_child_if_matched self path remaining direct parent).
Proof.
  intros self path remaining direct parent z Hz.
  unfold _add_direct_child_if_matched.
  repeat match goal with
         | |- In _ (if ?b then _ else _) => destruct b
         end;
    try exact Hz; apply in_or_app; now left.
Qed.

(** X17: what [_get_direct_children self p] returns are keys of the index
    that are longer than [p] and, for a non-empty [p], start with [p] and a
    dot; and it returns every key made of [p], a dot and a dot-free name
    that is not processed yet. *)
Theorem direct_children_of_a_struct :
  forall (self : generator) (p : string),
    (forall c,
        In c (_get_direct_children self p) ->
        In c (Dict.keys (path_data self))
        /\ String.length p < String.length c
        /\ (p <> "" -> startswith (p ++ ".") c = true))
    /\ (forall f,
           p <> "" ->
           contains "." f = false ->
           In (p ++ "." ++ f) (Dict.keys (path_data self)) ->
           is_processed self (p ++ "." ++ f) = false ->
           In (p ++ "." ++ f) (_get_direct_children self p)).
Proof.
  intros self p. split; [apply direct_children_spec|].
  intros f Hp Hf Hin Hproc. unfold _get_direct_children.
  apply String.eqb_neq in Hp. rewrite Hp.
  apply fold_left_reaches with (k := p ++ "." ++ f).
  - intros a y z Hz.
    destruct (String.eqb y p || is_processed self y); [exact Hz|].
    destruct (negb (startswith (p ++ ".") y)); [exact Hz|].
    apply add_direct_child_grows, Hz.
  - exact Hin.
  - intros a.
    assert (Hne : String.eqb (p ++ "." ++ f) p = false).
    { apply String.eqb_neq. intros E.
      apply (f_equal String.length) in E. rewrite !string_app_length in E.
      cbn in E. lia. }
    rewrite Hne, Hproc. cbn [orb].
    rewrite <- string_app_assoc, startswith_app. cbn [negb].
    rewrite drop_app_length. unfold _add_direct_child_if_matched.
    rewrite Hf. cbn [negb]. apply in_or_app. right. now left.
Qed.
(** ** The lines of a struct body *)



(** ** Paths through array elements *)

Lemma startswith_drop :
  forall sep s, startswith sep s = true -> s = sep ++ drop (String.length sep) s.
Proof.
  intros sep s H. destruct (startswith_inv _ _ H) as [r E]. subst s.
  now rewrite drop_app_length.
Qed.

Lemma startswith_here :
  forall sep s, startswith sep s = true -> contains sep s = true.
Proof. intros sep s H. destruct s; cbn [contains]; now rewrite H. Qed.

(** [s.split(sep, 1)] on a string that holds [sep]: the cut is at the
    first occurrence. *)
Lemma split1_first_occurrence :
  forall sep s,
    contains sep s = true ->
    exists a b,
      split1 sep s = [a; b]
      /\ s = a ++ sep ++ b
      /\ forall a' b', s = a' ++ sep ++ b' -> String.length a <= String.length a'.
Proof.
  intros sep. induction s as [|c s IH]; intros H.
  - cbn [contains] in H. rewrite orb_false_r in H.
    exists "", (drop (String.length sep) ""). cbn [split1]. rewrite H.
    split; [reflexivity|]. split; [apply (startswith_drop sep "" H)|].
    intros a' b' _. cbn. lia.
  - cbn [split1]. destruct (startswith sep (String c s)) eqn:Es.
    + exists "", (drop (String.length sep) (String c s)).
      split; [reflexivity|]. split; [apply (startswith_drop _ _ Es)|].
      intros a' b' _. cbn. lia.
    + cbn [contains] in H. rewrite Es in H. cbn [orb] in H.
      destruct (IH H) as (a & b & E1 & E2 & E3). rewrite E1.
      exists (String c a), b. split; [reflexivity|]. split.
      { cbn [append]. now rewrite <- E2. }
      intros a' b' E'. destruct a' as [|c' a'].
      * exfalso. cbn [append] in E'.
        assert (S : startswith sep (String c s) = true)
          by (rewrite E'; apply startswith_app).
        congruence.
      * cbn [append] in E'. inversion E'. subst c'.
        cbn [String.length]. apply le_n_S. eapply E3. eassumption.
Qed.

(** X19: on a path that holds [.element.], [_split_element_path] cuts at
    the first occurrence: the path is the array path, the marker, and the
    element field, and the array path holds no marker. *)
Theorem split_element_path_round_trip :
  forall path : string,
    contains ".element." path = true ->
    path = fst (_split_element_path path) ++ ".element."
             ++ snd (_split_element_path path)
    /\ contains ".element." (fst (_split_element_path path)) = false
    /\ String.length (fst (_split_element_path path)) < String.length path.
Proof.
  intros path H. unfold _split_element_path.
  destruct (split1_first_occurrence ".element." path H)
    as (a & b & E1 & E2 & E3).
  rewrite E1. cbn [nth fst snd]. split; [exact E2|]. split.
  - destruct (contains ".element." a) eqn:Ec; [|reflexivity]. exfalso.
    apply contains_inv in Ec. destruct Ec as (x & y & Ea).
    assert (E' : path = x ++ ".element." ++ (y ++ ".element." ++ b)).
    { rewrite E2, Ea. now rewrite !string_app_assoc. }
    apply E3 in E'. subst a. rewrite !string_app_length in E'. cbn in E'. lia.
  - apply (f_equal String.length) in E2.
    rewrite !string_app_length in E2. cbn in E2. lia.
Qed.
(** ** The field orders [_process_path_items] records *)

(** [if k not in d: d[k] = []] followed by
    [if x not in d[k]: d[k].append(x)] *)
Lemma get_list_add :
  forall (k x : string) (d : Dict.t (list string)) (k' : string),
    Dict.get_list k' (Dict.set k (append_new x (Dict.get_list k d)) d)
    = if String.eqb k' k then append_new x (Dict.get_list k d)
      else Dict.get_list k' d.
Proof.
  intros k x d k'. unfold Dict.get_list at 1.
  destruct (String.eqb_spec k' k) as [E|E].
  - subst. now rewrite dict_get_set_same.
  - now rewrite dict_get_set_other by assumption.
Qed.

Lemma listed_add_same :
  forall k x d, listed (Dict.set k (append_new x (Dict.get_list k d)) d) k x.
Proof.
  intros k x d. unfold listed. rewrite get_list_add, String.eqb_refl.
  apply in_append_new. now left.
Qed.

Lemma listed_add_mono :
  forall k x d k' y,
    listed d k' y -> listed (Dict.set k (append_new x (Dict.get_list k d)) d) k' y.
Proof.
  intros k x d k' y H. unfold listed in *. rewrite get_list_add.
  destruct (String.eqb_spec k' k); [|exact H].
  subst. apply in_append_new. now right.
Qed.

Lemma lists_nodup_add :
  forall k x d,
    lists_nodup d ->
    lists_nodup (Dict.set k (append_new x (Dict.get_list k d)) d).
Proof.
  intros k x d H k'. rewrite get_list_add.
  destruct (String.eqb k' k); [apply append_new_nodup|]; apply H.
Qed.

Lemma fold_left_reaches_state :
  forall (S A : Type) (P : S -> Prop) (f : S -> A -> S) (l : list A) (s : S)
         (k : A),
    (forall s y, P s -> P (f s y)) ->
    In k l -> (forall s, P (f s k)) -> P (fold_left f l s).
Proof.
  intros S A P f l. induction l as [|y l IH]; intros s k Hmono Hk Hadd;
    [destruct Hk|].
  cbn [fold_left]. destruct Hk as [Hk|Hk].
  - subst y. apply fold_left_invariant; [apply Hadd | exact Hmono].
  - eapply IH; eauto.
Qed.

Lemma build_field_order_keeps :
  forall self parts,
    element_fields (_build_field_order_hierarchy self parts) = element_fields self.
Proof.
  intros self parts. unfold _build_field_order_hierarchy.
  apply fold_left_invariant; [reflexivity|]. intros a i Ha. exact Ha.
Qed.

Lemma build_field_order_mono :
  forall self parts k x,
    listed (field_order self) k x ->
    listed (field_order (_build_field_order_hierarchy self parts)) k x.
Proof.
  intros self parts k x H. unfold _build_field_order_hierarchy.
  apply fold_left_invariant; [exact H|].
  intros a i Ha. cbn [field_order set_field_order]. now apply listed_add_mono.
Qed.

Lemma build_field_order_nodup :
  forall self parts,
    lists_nodup (field_order self) ->
    lists_nodup (field_order (_build_field_order_hierarchy self parts)).
Proof.
  intros self parts H. unfold _build_field_order_hierarchy.
  apply fold_left_invariant; [exact H|].
  intros a i Ha. cbn [field_order set_field_order]. now apply lists_nodup_add.
Qed.

Lemma build_field_order_adds :
  forall self parts i,
    i < List.length parts ->
    listed (field_order (_build_field_order_hierarchy self parts))
      (if Nat.eqb i 0 then "" else join "." (firstn i parts)) (nth i parts "").
Proof.
  intros self parts i Hi. unfold _build_field_order_hierarchy.
  apply (fold_left_reaches_state _ _
           (fun s => listed (field_order s)
                       (if Nat.eqb i 0 then "" else join "." (firstn i parts))
                       (nth i parts "")))
    with (k := i).
  - intros s y Hs. cbn [field_order set_field_order]. now apply listed_add_mono.
  - apply in_seq. lia.
  - intros s. cbn [field_order set_field_order]. apply listed_add_same.
Qed.

Lemma element_path_fields_keeps :
  forall self path parts,
    field_order (_process_element_path_fields self path parts) = field_order self.
Proof.
  intros self path parts. unfold _process_element_path_fields.
  destruct (contains ".element." path); [|reflexivity].
  destruct (_split_element_path path). reflexivity.
Qed.

Lemma array_nested_fields_keeps :
  forall self it path,
    field_order (_process_array_nested_fields self it path) = field_order self
    /\ element_fields (_process_array_nested_fields self it path)
       = element_fields self.
Proof.
  intros self it path. unfold _process_array_nested_fields.
  destruct (i_value it) as [v|]; [|now split].
  destruct (String.eqb v "array"); [|now split].
  destruct (usable_nested_fields it); now split.
Qed.

Lemma element_path_fields_mono :
  forall self path parts k x,
    listed (element_fields self) k x ->
    listed (element_fields (_process_element_path_fields self path parts)) k x.
Proof.
  intros self path parts k x H. unfold _process_element_path_fields.
  destruct (contains ".element." path); [|exact H].
  destruct (_split_element_path path) as [a e].
  cbn [element_fields set_element_field_order set_element_fields].
  now apply listed_add_mono.
Qed.

Lemma element_path_fields_nodup :
  forall self path parts,
    lists_nodup (element_fields self) ->
    lists_nodup (element_fields (_process_element_path_fields self path parts)).
Proof.
  intros self path parts H. unfold _process_element_path_fields.
  destruct (contains ".element." path); [|exact H].
  destruct (_split_element_path path) as [a e].
  cbn [element_fields set_element_field_order set_element_fields].
  now apply lists_nodup_add.
Qed.

Lemma element_path_fields_adds :
  forall self path parts,
    contains ".element." path = true ->
    listed (element_fields (_process_element_path_fields self path parts))
      (fst (_split_element_path path)) (snd (_split_element_path path)).
Proof.
  intros self path parts H. unfold _process_element_path_fields. rewrite H.
  destruct (_split_element_path path) as [a e].
  cbn [element_fields set_element_field_order set_element_fields fst snd].
  apply listed_add_same.
Qed.

(** One turn of the loop of [_process_path_items], as far as the two
    dictionaries of lists go. *)
Lemma process_path_item_orders :
  forall tops self it p tops' self',
    i_path it = Some p ->
    process_path_item (tops, self) it = Ok (tops', self') ->
    exists s1 s2,
      field_order s1 = field_order self
      /\ element_fields s1 = element_fields self
      /\ s2 = _process_element_path_fields s1 p (split "." p)
      /\ self' = _build_field_order_hierarchy s2 (split "." p).
Proof.
  intros tops self it p tops' self' Hp H.
  unfold process_path_item, getitem_path in H. rewrite Hp, bind_ok in H.
  destruct (set_mem string_dec (first (split "." p)) tops);
    inversion H; subst; clear H;
    match goal with
    | |- context [_process_array_nested_fields ?y it p] =>
        destruct (array_nested_fields_keeps y it p) as [A B];
        exists (_process_array_nested_fields y it p)
    end;
    eexists; (split; [rewrite A; reflexivity|]);
    (split; [rewrite B; reflexivity|]); split; reflexivity.
Qed.

Lemma process_path_items_orders :
  forall (P : generator -> Prop) items tops self tops' self',
    (forall s s', field_order s = field_order s' ->
                  element_fields s = element_fields s' -> P s -> P s') ->
    (forall s it p, In it items -> i_path it = Some p -> P s ->
                    P (_build_field_order_hierarchy
                         (_process_element_path_fields s p (split "." p))
                         (split "." p))) ->
    P self ->
    for_each process_path_item items (tops, self) = Ok (tops', self') ->
    P self'.
Proof.
  intros P items. induction items as [|it items IH];
    intros tops self tops' self' Hext Hstep H0 H; cbn [for_each] in H.
  - inversion H. now subst.
  - destruct (process_path_item (tops, self) it) as [[tops1 self1]|] eqn:E;
      [|discriminate H].
    rewrite bind_ok in H.
    assert (Hp : exists p, i_path it = Some p).
    { unfold process_path_item, getitem_path in E.
      destruct (i_path it); [eauto | discriminate]. }
    destruct Hp as [p Hp].
    destruct (process_path_item_orders _ _ _ _ _ _ Hp E)
      as (s1 & s2 & F1 & F2 & E2 & E3).
    eapply (IH tops1 self1); [exact Hext | | | exact H].
    + intros s it' p' Hin. apply Hstep. now right.
    + subst self1 s2. apply (Hstep s1 it p); [now left | exact Hp|].
      eapply Hext; [symmetry; exact F1 | symmetry; exact F2 | exact H0].
Qed.

Lemma process_path_items_reaches :
  forall (P : generator -> Prop) items tops self tops' self' it p,
    (forall s s', field_order s = field_order s' ->
                  element_fields s = element_fields s' -> P s -> P s') ->
    (forall s q, P s ->
                 P (_build_field_order_hierarchy
                      (_process_element_path_fields s q (split "." q))
                      (split "." q))) ->
    (forall s, P (_build_field_order_hierarchy
                    (_process_element_path_fields s p (split "." p))
                    (split "." p))) ->
    In it items -> i_path it = Some p ->
    for_each process_path_item items (tops, self) = Ok (tops', self') ->
    P self'.
Proof.
  intros P items. induction items as [|x items IH];
    intros tops self tops' self' it p Hext Hmono Hadd Hin Hp H; [destruct Hin|].
  cbn [for_each] in H.
  destruct (process_path_item (tops, self) x) as [[tops1 self1]|] eqn:E;
    [|discriminate H].
  rewrite bind_ok in H. destruct Hin as [Hin|Hin].
  - subst x.
    destruct (process_path_item_orders _ _ _ _ _ _ Hp E)
      as (s1 & s2 & F1 & F2 & E2 & E3).
    eapply (process_path_items_orders P items tops1 self1);
      [exact Hext | | | exact H].
    + intros s it' p' _ _. apply Hmono.
    + subst self1 s2. apply Hadd.
  - eapply (IH tops1 self1); eauto.
Qed.

Lemma preprocess_input_loop :
  forall items self,
    _preprocess_input (new_generator items) = Ok self ->
    exists tops' s0,
      field_order s0 = Dict.empty
      /\ element_fields s0 = Dict.empty
      /\ for_each process_path_item items ([], s0) = Ok (tops', self).
Proof.
  intros items self H.
  unfold _preprocess_input, _track_original_order in H.
  cbn [input_data original_order new_generator set_array_nested_fields
       set_element_field_order] in H.
  destruct (track_from 0 items Dict.empty) as [order|e]; [|discriminate].
  cbn [bind] in H. unfold _process_path_items in H.
  match type of H with
  | context [for_each process_path_item ?l (?t, ?s)] =>
      destruct (for_each process_path_item l (t, s)) as [[tops' self']|e] eqn:E';
      [|discriminate]
  end.
  cbn [input_data set_original_order] in E'.
  cbn [bind] in H. inversion H. subst self'. clear H.
  eexists. eexists. split; [|split; [|exact E']]; reflexivity.
Qed.

(** X20: in the field orders [_build_field_order_hierarchy] records while
    [_preprocess_input] runs on a fresh generator, the first segment of
    every input path is listed under the empty parent; for an input path
    made of [p], a dot and [r], the first segment of [r] is listed under
    [p]; and no list holds a name twice. *)
Theorem field_order_lists_every_segment :
  forall (items : list item) (self : generator),
    _preprocess_input (new_generator items) = Ok self ->
    (forall it q,
        In it items -> i_path it = Some q ->
        listed (field_order self) "" (first (split "." q)))
    /\ (forall it p r,
           In it items -> i_path it = Some (p ++ "." ++ r) ->
           listed (field_order self) p (first (split "." r)))
    /\ lists_nodup (field_order self).
Proof.
  intros items self H.
  destruct (preprocess_input_loop items self H) as (tops' & s0 & F0 & _ & E).
  assert (Hext : forall k x s s',
             field_order s = field_order s' ->
             element_fields s = element_fields s' ->
             listed (field_order s) k x -> listed (field_order s') k x).
  { intros k x s s' E1 _ Hs. now rewrite <- E1. }
  assert (Hmono : forall k x s q,
             listed (field_order s) k x ->
             listed (field_order
                       (_build_field_order_hierarchy
                          (_process_element_path_fields s q (split "." q))
                          (split "." q))) k x).
  { intros k x s q Hs. apply build_field_order_mono.
    now rewrite element_path_fields_keeps. }
  refine (conj _ (conj _ _)).
  - intros it q Hin Hq.
    eapply (process_path_items_reaches
              (fun s => listed (field_order s) "" (first (split "." q))));
      [apply Hext | apply Hmono | | exact Hin | exact Hq | exact E].
    intros s.
    pose proof (split_length_pos "." q) as L.
    pose proof (build_field_order_adds
                  (_process_element_path_fields s q (split "." q))
                  (split "." q) 0 L) as A.
    cbn [Nat.eqb] in A. unfold first.
    destruct (split "." q); exact A.
  - intros it p r Hin Hq.
    eapply (process_path_items_reaches
              (fun s => listed (field_order s) p (first (split "." r))));
      [apply Hext | apply Hmono | | exact Hin | exact Hq | exact E].
    intros s.
    pose proof (split_length_pos "." p) as Lp.
    pose proof (split_length_pos "." r) as Lr.
    rewrite split_dot_app.
    pose proof (build_field_order_adds
                  (_process_element_path_fields s (p ++ "." ++ r)
                     (split "." p ++ split "." r)%list)
                  (split "." p ++ split "." r)%list
                  (List.length (split "." p))) as A.
    rewrite length_app in A. specialize (A ltac:(lia)).
    rewrite firstn_app, Nat.sub_diag, firstn_all in A. cbn [firstn] in A.
    rewrite app_nil_r, join_split_dot in A.
    rewrite app_nth2, Nat.sub_diag in A by lia.
    destruct (Nat.eqb_spec (List.length (split "." p)) 0) as [Z|_]; [lia|].
    unfold first. destruct (split "." r); exact A.
  - eapply (process_path_items_orders (fun s => lists_nodup (field_order s)));
      [| | | exact E].
    + intros s s' E1 _ Hs. now rewrite <- E1.
    + intros s it p _ _ Hs. apply build_field_order_nodup.
      now rewrite element_path_fields_keeps.
    + rewrite F0. intros k. constructor.
Qed.

(** X21: in the element fields [_process_element_path_fields] records
    while [_preprocess_input] runs on a fresh generator, every input path
    that holds [.element.] has its element field listed under its array
    path, the two being what [_split_element_path] gives; and no list holds
    a name twice. *)
Theorem element_fields_list_every_element_path :
  forall (items : list item) (self : generator),
    _preprocess_input (new_generator items) = Ok self ->
    (forall it q,
        In it items -> i_path it = Some q ->
        contains ".element." q = true ->
        listed (element_fields self) (fst (_split_element_path q))
          (snd (_split_element_path q)))
    /\ lists_nodup (element_fields self).
Proof.
  intros items self H.
  destruct (preprocess_input_loop items self H) as (tops' & s0 & _ & F0 & E).
  split.
  - intros it q Hin Hq Hm.
    eapply (process_path_items_reaches
              (fun s => listed (element_fields s) (fst (_split_element_path q))
                          (snd (_split_element_path q))));
      [ | | | exact Hin | exact Hq | exact E].
    + intros s s' _ E2 Hs. now rewrite <- E2.
    + intros s q' Hs. rewrite build_field_order_keeps.
      now apply element_path_fields_mono.
    + intros s. rewrite build_field_order_keeps.
      now apply element_path_fields_adds.
  - eapply (process_path_items_orders (fun s => lists_nodup (element_fields s)));
      [| | | exact E].
    + intros s s' _ E2 Hs. now rewrite <- E2.
    + intros s it p _ _ Hs. rewrite build_field_order_keeps.
      now apply element_path_fields_nodup.
    + rewrite F0. intros k. constructor.
Qed.
(** ** What [_process_array_elements] records *)

(** Joining the segments of [split] with the separator gives the string
    back. *)
Lemma join_split_scan :
  forall sep, sep <> "" ->
    forall s k, join sep (split_scan sep k s) = drop k s.
Proof.
  intros sep Hsep. induction s as [|c s IH]; intros k.
  - destruct k; reflexivity.
  - cbn [split_scan]. destruct k as [|k]; [|apply IH].
    destruct (startswith sep (String c s)) eqn:E.
    + destruct (split_scan sep (String.length sep - 1) s) as [|seg rest] eqn:E2;
        [exfalso; eapply split_scan_nonempty; eauto|].
      rewrite join_cons, <- E2, IH.
      destruct sep as [|c' sep']; [congruence|].
      rewrite startswith_cons in E.
      destruct (ascii_dec c' c); [subst c'|discriminate].
      cbn [String.length Nat.sub]. rewrite Nat.sub_0_r.
      rewrite (startswith_drop _ _ E) at 2. reflexivity.
    + specialize (IH 0). cbn [drop] in *.
      destruct (split_scan sep 0 s) as [|seg rest] eqn:E2;
        [exfalso; eapply split_scan_nonempty; eauto|].
      destruct rest; [cbn in IH |- *; now subst|].
      rewrite join_cons in *. cbn [append]. now rewrite IH.
Qed.

Lemma join_split :
  forall sep s, sep <> "" -> join sep (split sep s) = s.
Proof. intros sep s H. apply (join_split_scan sep H s 0). Qed.

Lemma startswith_app_both :
  forall x p s, startswith (x ++ p) (x ++ s) = startswith p s.
Proof.
  induction x as [|c x IH]; intros p s; [reflexivity|].
  cbn [append]. rewrite startswith_cons.
  destruct (ascii_dec c c); [apply IH | congruence].
Qed.

(** The first part of [s.split(sep, 1)]: it holds no separator, and what
    follows it in [s] is nothing or starts with the separator. *)
Lemma split1_first_prefix :
  forall sep s,
    sep <> "" ->
    exists r,
      s = first (split1 sep s) ++ r
      /\ (r = "" \/ startswith sep r = true)
      /\ contains sep (first (split1 sep s)) = false.
Proof.
  intros sep s Hsep.
  assert (Hlen : 0 < String.length sep) by (destruct sep; [congruence | cbn; lia]).
  destruct (contains sep s) eqn:E.
  - destruct (split1_first_occurrence sep s E) as (a & b & E1 & E2 & E3).
    rewrite E1. cbn [first hd]. exists (sep ++ b). split; [exact E2|]. split.
    + right. apply startswith_app.
    + destruct (contains sep a) eqn:Ec; [|reflexivity]. exfalso.
      apply contains_inv in Ec. destruct Ec as (x & y & Ea).
      assert (E' : s = x ++ sep ++ (y ++ sep ++ b)).
      { rewrite E2, Ea. now rewrite !string_app_assoc. }
      apply E3 in E'. subst a. rewrite !string_app_length in E'. lia.
  - rewrite (split1_without_separator _ _ E). cbn [first hd]. exists "".
    split; [now rewrite string_app_nil_r|]. split; [now left | exact E].
Qed.

Lemma init_element_fields_paths :
  forall keys self outer,
    element_paths_below keys self ->
    element_paths_below keys (init_element_fields self outer).
Proof.
  intros keys self outer H. unfold init_element_fields.
  destruct (Dict.mem outer (array_element_fields self)); [exact H|].
  intros a m f e Hget Hin. cbn in Hget.
  destruct (String.eqb_spec a outer).
  - subst. rewrite dict_get_set_same in Hget. inversion Hget. subst. destruct Hin.
  - rewrite dict_get_set_other in Hget by assumption. eapply H; eauto.
Qed.

Lemma set_element_field_paths :
  forall keys self outer field path,
    element_paths_below keys self ->
    In path keys -> contains ".element." path = true ->
    descends outer path = true ->
    element_paths_below keys (set_element_field self outer field path).
Proof.
  intros keys self outer field path H Hk Hc Hd a m f e Hget Hin.
  unfold set_element_field in Hget. cbn in Hget.
  destruct (String.eqb_spec a outer).
  - subst. rewrite dict_get_set_same in Hget. inversion Hget. subst. clear Hget.
    apply dict_in_set in Hin. destruct Hin as [[? ?]|Hin]; [subst; auto|].
    destruct (Dict.get outer (array_element_fields self)) eqn:E;
      [eapply H; eauto | destruct Hin].
  - rewrite dict_get_set_other in Hget by assumption. eapply H; eauto.
Qed.

Lemma init_element_fields_mem :
  forall self outer k,
    Dict.mem k (array_element_fields self) = true \/ k = outer ->
    Dict.mem k (array_element_fields (init_element_fields self outer)) = true.
Proof.
  intros self outer k H. unfold init_element_fields.
  destruct (Dict.mem outer (array_element_fields self)) eqn:E.
  - destruct H as [H|H]; [exact H | now subst].
  - cbn [array_element_fields set_array_element_fields].
    apply dict_mem_in_keys, dict_keys_set.
    destruct H as [H|H]; [right; now apply dict_mem_in_keys | now left].
Qed.

Lemma set_element_field_mem :
  forall self outer field path k,
    Dict.mem k (array_element_fields self) = true ->
    Dict.mem k (array_element_fields (set_element_field self outer field path))
    = true.
Proof.
  intros self outer field path k H. unfold set_element_field.
  cbn [array_element_fields set_array_element_fields].
  apply dict_mem_in_keys, dict_keys_set. right. now apply dict_mem_in_keys.
Qed.

(** The nested array path of a path with two markers or more. *)
Lemma nested_array_path_below :
  forall a b rest,
    descends (a ++ ".element." ++ first (split1 "." b))
      (a ++ ".element." ++ b ++ ".element." ++ rest) = true.
Proof.
  intros a b rest. destruct (split1_first_prefix "." b ltac:(discriminate)) as (r & E & Hr & _).
  unfold descends. rewrite E at 2.
  rewrite !string_app_assoc, !startswith_app_both.
  destruct Hr as [Hr|Hr].
  - subst r. reflexivity.
  - destruct r as [|c r]; [discriminate Hr|].
    rewrite startswith_cons in Hr. cbn [append]. rewrite startswith_cons.
    destruct (ascii_dec "." c); [apply startswith_nil | discriminate].
Qed.

Lemma process_element_path_paths :
  forall keys self path,
    In path keys -> contains ".element." path = true ->
    element_paths_below keys self ->
    element_paths_below keys (_process_element_path self path).
Proof.
  intros keys self path Hk Hc H. unfold _process_element_path.
  pose proof (join_split ".element." path ltac:(discriminate)) as Hjoin.
  destruct (split ".element." path) as [|a [|b rest]] eqn:E.
  - apply init_element_fields_paths, H.
  - apply init_element_fields_paths, H.
  - change (first (a :: b :: rest)) with a.
    destruct (Nat.ltb 2 (List.length (a :: b :: rest))) eqn:E2.
    + unfold _process_multilevel_element_path.
      change (nth 1 (a :: b :: rest) "") with b.
      destruct rest as [|c rest]; [discriminate|].
      assert (Hd : descends (a ++ ".element." ++ first (split1 "." b)) path
                   = true).
      { rewrite <- Hjoin, !join_cons. apply nested_array_path_below. }
      match goal with
      | |- element_paths_below _
             (if ?c then set_element_field ?s ?o ?f ?p
              else if ?d then (if ?g then set_element_field ?s ?o ?f' ?p else ?s)
                   else ?s) =>
          assert (Hs : element_paths_below keys s);
          [| destruct c; [apply set_element_field_paths; assumption|];
             destruct d; [|exact Hs];
             destruct g; [apply set_element_field_paths; assumption | exact Hs]]
      end.
      apply init_element_fields_paths.
      destruct (Dict.mem a (nested_arrays (init_element_fields self a)));
        apply init_element_fields_paths, H.
    + destruct (Nat.eqb (List.length (a :: b :: rest)) 2) eqn:E3;
        [|apply init_element_fields_paths, H].
      unfold _process_simple_element_path.
      apply set_element_field_paths;
        [apply init_element_fields_paths, H | exact Hk | exact Hc |].
      destruct rest; [|discriminate].
      rewrite <- Hjoin, join_cons. apply descends_iff.
      now exists ("element." ++ b).
Qed.
Lemma init_element_fields_nested :
  forall self outer,
    nested_arrays_named self -> nested_arrays_named (init_element_fields self outer).
Proof.
  intros self outer H a l n Hget Hin.
  assert (E : nested_arrays (init_element_fields self outer) = nested_arrays self).
  { unfold init_element_fields. now destruct (Dict.mem outer _). }
  rewrite E in Hget. destruct (H a l n Hget Hin) as [Hm Hn].
  split; [|exact Hn]. apply init_element_fields_mem. now left.
Qed.

Lemma set_element_field_nested :
  forall self outer field path,
    nested_arrays_named self ->
    nested_arrays_named (set_element_field self outer field path).
Proof.
  intros self outer field path H a l n Hget Hin.
  destruct (H a l n Hget Hin) as [Hm Hn].
  split; [|exact Hn]. now apply set_element_field_mem.
Qed.

(** The nested array a path with two markers or more brings in: it is
    appended to the list of its array and given an entry of its own. *)
Lemma track_nested_array_named :
  forall self base name,
    nested_arrays_named self ->
    contains "." name = false ->
    let nested := base ++ ".element." ++ name in
    let self1 :=
      if Dict.mem base (nested_arrays self) then self
      else set_nested_arrays self (Dict.set base [] (nested_arrays self)) in
    let self2 :=
      set_nested_arrays self1
        (Dict.set base
           (append_new nested (Dict.get_list base (nested_arrays self1)))
           (nested_arrays self1)) in
    nested_arrays_named (init_element_fields self2 nested).
Proof.
  intros self base name H Hname nested self1 self2.
  assert (H1 : nested_arrays_named self1).
  { subst self1. destruct (Dict.mem base (nested_arrays self)); [exact H|].
    intros a l n Hget Hin. cbn [nested_arrays set_nested_arrays] in Hget.
    destruct (String.eqb_spec a base).
    - subst. rewrite dict_get_set_same in Hget. inversion Hget. subst.
      destruct Hin.
    - rewrite dict_get_set_other in Hget by assumption.
      exact (H a l n Hget Hin). }
  intros a l n Hget Hin.
  assert (E : nested_arrays (init_element_fields self2 nested)
              = nested_arrays self2).
  { unfold init_element_fields. now destruct (Dict.mem nested _). }
  rewrite E in Hget. subst self2. cbn [nested_arrays set_nested_arrays] in Hget.
  assert (Hold : forall l0,
             Dict.get a (nested_arrays self1) = Some l0 -> In n l0 ->
             Dict.mem n
               (array_element_fields
                  (init_element_fields
                     (set_nested_arrays self1
                        (Dict.set base
                           (append_new nested
                              (Dict.get_list base (nested_arrays self1)))
                           (nested_arrays self1))) nested)) = true
             /\ exists name0,
                  n = a ++ ".element." ++ name0 /\ contains "." name0 = false).
  { intros l0 G I. destruct (H1 a l0 n G I) as [Hm Hn]. split; [|exact Hn].
    apply init_element_fields_mem. now left. }
  destruct (String.eqb_spec a base) as [Ea|Ea].
  - subst a. rewrite dict_get_set_same in Hget. inversion Hget. subst l.
    apply in_append_new in Hin. destruct Hin as [Hin|Hin].
    + subst n. split; [apply init_element_fields_mem; now right|].
      exists name. now split.
    + unfold Dict.get_list in Hin.
      destruct (Dict.get base (nested_arrays self1)) as [l0|] eqn:G;
        [|destruct Hin].
      exact (Hold l0 eq_refl Hin).
  - rewrite dict_get_set_other in Hget by assumption. exact (Hold l Hget Hin).
Qed.

Lemma process_element_path_nested :
  forall self path,
    nested_arrays_named self -> nested_arrays_named (_process_element_path self path).
Proof.
  intros self path H. unfold _process_element_path.
  pose proof (init_element_fields_nested self
                (first (split ".element." path)) H) as H0.
  destruct (Nat.ltb 2 (List.length (split ".element." path))).
  - unfold _process_multilevel_element_path.
    destruct (split1_first_prefix "."
                (nth 1 (split ".element." path) "") ltac:(discriminate))
      as (r & _ & _ & Hname).
    pose proof (track_nested_array_named _
                  (first (split ".element." path)) _ H0 Hname) as H1.
    cbv zeta in H1.
    repeat match goal with
           | |- nested_arrays_named (if ?c then _ else _) => destruct c
           end;
      try apply set_element_field_nested; exact H1.
  - destruct (Nat.eqb (List.length (split ".element." path)) 2); [|exact H0].
    unfold _process_simple_element_path. now apply set_element_field_nested.
Qed.

Lemma process_element_path_mem :
  forall self path k,
    Dict.mem k (array_element_fields self) = true
    \/ k = first (split ".element." path) ->
    Dict.mem k (array_element_fields (_process_element_path self path)) = true.
Proof.
  intros self path k H. unfold _process_element_path.
  pose proof (init_element_fields_mem self _ k H) as H0.
  destruct (Nat.ltb 2 (List.length (split ".element." path))).
  - unfold _process_multilevel_element_path.
    match goal with
    | |- context [init_element_fields ?s ?o] =>
        assert (H1 : Dict.mem k (array_element_fields (init_element_fields s o))
                     = true)
    end.
    { apply init_element_fields_mem. left.
      destruct (Dict.mem _ (nested_arrays _)); exact H0. }
    repeat match goal with
           | |- Dict.mem _ (array_element_fields (if ?c then _ else _)) = _ =>
               destruct c
           end;
      try apply set_element_field_mem; exact H1.
  - destruct (Nat.eqb (List.length (split ".element." path)) 2); [|exact H0].
    unfold _process_simple_element_path. now apply set_element_field_mem.
Qed.

(** X22: in what [_process_array_elements] records, every element path
    kept under an array path is a key of the index that holds the element
    marker and starts with the array path and a dot; every nested array
    kept under an array path is that path, the marker and a dot-free name,
    and has an entry of its own; and the part before the first marker of
    every indexed element path has an entry. *)
Theorem array_elements_are_indexed_descendants :
  forall self : generator,
    element_paths_below (Dict.keys (path_data self))
      (_process_array_elements self)
    /\ nested_arrays_named (_process_array_elements self)
    /\ (forall e,
           In e (Dict.keys (path_data self)) ->
           contains ".element." e = true ->
           Dict.mem (first (split ".element." e))
             (array_element_fields (_process_array_elements self)) = true).
Proof.
  intros self. unfold _process_array_elements.
  cbn [path_data set_nested_arrays set_array_element_fields].
  refine (conj _ (conj _ _)).
  - apply fold_left_invariant_in.
    + intros a m f e Hget. discriminate.
    + intros s x Hin Hs. apply sort_by_in in Hin. apply filter_In in Hin.
      destruct Hin as [Hk Hc]. now apply process_element_path_paths.
  - apply fold_left_invariant.
    + intros a l n Hget. discriminate.
    + intros s x Hs. now apply process_element_path_nested.
  - intros e Hk Hc.
    apply (fold_left_reaches_state _ _
             (fun s => Dict.mem (first (split ".element." e))
                         (array_element_fields s) = true))
      with (k := e).
    + intros s y Hs. apply process_element_path_mem. now left.
    + apply sort_by_in, filter_In. now split.
    + intros s. apply process_element_path_mem. now right.
Qed.
(** ** What [_mark_processed_tree] marks *)

Lemma add_processed_loop :
  forall (g : string -> string) (l : list string) (s : generator) (q : string),
    let s' := fold_left (fun s x => add_processed s (g x)) l s in
    s' = set_processed_paths s (processed_paths s')
    /\ (is_processed s' q = true
        <-> is_processed s q = true \/ exists x, In x l /\ q = g x).
Proof.
  intros g l. induction l as [|x l IH]; intros s q; cbn [fold_left].
  - split; [apply set_processed_paths_eta|].
    split; [auto | intros [H|[x [[] _]]]; exact H].
  - destruct (IH (add_processed s (g x)) q) as [E1 E2]. cbv zeta in *. split.
    + rewrite E1 at 1. reflexivity.
    + rewrite E2, is_processed_add, orb_true_iff, String.eqb_eq. split.
      * intros [[H|H]|[y [Hy H]]];
          [right; exists x; split; [now left | exact H]
          | now left
          | right; exists y; split; [now right | exact H]].
      * intros [H|[y [[Hy|Hy] H]]];
          [left; now right
          | subst y; left; now left
          | right; exists y; now split].
Qed.

(** One turn of the loop of [_mark_processed_tree]: the child and the
    element paths its element fields give. *)
Lemma mark_child_spec :
  forall (s : generator) (child q : string),
    let s' :=
      let s0 := add_processed s child in
      match Dict.get child (element_fields s0) with
      | Some fields =>
          fold_left
            (fun self element_field =>
               add_processed self (child ++ ".element." ++ element_field))
            fields s0
      | None => s0
      end in
    s' = set_processed_paths s (processed_paths s')
    /\ (is_processed s' q = true
        <-> is_processed s q = true \/ q = child
            \/ exists f,
                 listed (element_fields s) child f
                 /\ q = child ++ ".element." ++ f).
Proof.
  intros s child q. cbv zeta.
  cbn [element_fields add_processed set_processed_paths].
  unfold listed, Dict.get_list.
  destruct (Dict.get child (element_fields s)) as [fields|].
  - destruct (add_processed_loop (fun f => child ++ ".element." ++ f) fields
                (add_processed s child) q) as [E1 E2].
    cbv zeta in *. split.
    + rewrite E1 at 1. reflexivity.
    + rewrite E2, is_processed_add, orb_true_iff, String.eqb_eq. tauto.
  - split; [reflexivity|].
    rewrite is_processed_add, orb_true_iff, String.eqb_eq. split.
    + intros [H|H]; auto.
    + intros [H|[H|[f [[] _]]]]; auto.
Qed.

(** X23: [_mark_processed_tree self path children] changes the processed
    set only, and a path is processed afterwards exactly if it was
    processed before, or is [path], or is one of [children], or is a child,
    the element marker and one of the element fields recorded for that
    child. *)
Theorem mark_processed_tree_exact :
  forall (self : generator) (path : string) (children : list string),
    let self' := _mark_processed_tree self path children in
    self' = set_processed_paths self (processed_paths self')
    /\ forall q,
         is_processed self' q = true
         <-> is_processed self q = true \/ q = path \/ In q children
             \/ exists c f,
                  In c children
                  /\ listed (element_fields self) c f
                  /\ q = c ++ ".element." ++ f.
Proof.
  intros self path children. cbv zeta. unfold _mark_processed_tree.
  assert (G : forall l s,
             let s' :=
               fold_left
                 (fun self child =>
                    let self := add_processed self child in
                    match Dict.get child (element_fields self) with
                    | Some fields =>
                        fold_left
                          (fun self element_field =>
                             add_processed self
                               (child ++ ".element." ++ element_field))
                          fields self
                    | None => self
                    end) l s in
             s' = set_processed_paths s (processed_paths s')
             /\ forall q,
                  is_processed s' q = true
                  <-> is_processed s q = true \/ In q l
                      \/ exists c f,
                           In c l /\ listed (element_fields s) c f
                           /\ q = c ++ ".element." ++ f).
  { induction l as [|c l IH]; intros s; cbn [fold_left].
    - split; [apply set_processed_paths_eta|]. intros q. split; [auto|].
      intros [H|[[]|[c [f [[] _]]]]]. exact H.
    - pose proof (fun q => mark_child_spec s c q) as Hc. cbv zeta in Hc.
      match goal with
      | |- context [fold_left ?f l ?s1] =>
          destruct (IH s1) as [E1 E2]; cbv zeta in E1, E2;
          destruct (Hc "") as [F1 _]
      end.
      split.
      + rewrite E1 at 1. rewrite F1 at 1. reflexivity.
      + intros q. rewrite E2. destruct (Hc q) as [_ F2]. rewrite F2.
        rewrite F1. cbn [element_fields set_processed_paths In]. split.
        * intros [[H|[H|[f [Hf H]]]]|[H|[c' [f [Hc' [Hf H]]]]]].
          -- now left.
          -- right. left. left. now symmetry.
          -- right. right. exists c, f. split; [now left | now split].
          -- right. left. now right.
          -- right. right. exists c', f. split; [now right | now split].
        * intros [H|[[H|H]|[c' [f [[Hc'|Hc'] [Hf H]]]]]].
          -- left. now left.
          -- left. right. left. now symmetry.
          -- right. now left.
          -- subst c'. left. right. right. exists f. now split.
          -- right. right. exists c', f. split; [exact Hc' | now split]. }
  destruct (G children (add_processed self path)) as [E1 E2]. cbv zeta in *.
  split.
  - rewrite E1 at 1. reflexivity.
  - intros q. rewrite E2, is_processed_add, orb_true_iff, String.eqb_eq.
    cbn [element_fields add_processed set_processed_paths]. tauto.
Qed.
(** ** The descriptors left for the last loop *)

Lemma child_of_processed_spec :
  forall (self : generator) (q : string),
    _is_child_of_processed_path self q = true
    <-> exists p r, q = p ++ "." ++ r /\ is_processed self p = true.
Proof.
  intros self q. unfold _is_child_of_processed_path.
  rewrite (ancestor_scan (is_processed self) q). split.
  - intros [p [Hd Hp]]. apply descends_iff in Hd. destruct Hd as [r E].
    now exists p, r.
  - intros [p [r [E Hp]]]. exists p. split; [|exact Hp].
    apply descends_iff. now exists r.
Qed.

Lemma remaining_of_members :
  forall self items l,
    remaining_of self items = Ok l ->
    forall it,
      In it l
      <-> In it items
          /\ exists p,
               i_path it = Some p
               /\ is_processed self p = false
               /\ _is_child_of_processed_path self p = false.
Proof.
  intros self items. induction items as [|x items IH]; intros l H it;
    cbn [remaining_of] in H.
  - inversion H. split; [intros [] | intros [[] _]].
  - unfold getitem_path in H. destruct (i_path x) as [p|] eqn:Hp;
      [|discriminate H].
    rewrite bind_ok in H.
    destruct (remaining_of self items) as [r|]; [|discriminate H].
    rewrite bind_ok in H. specialize (IH r eq_refl it).
    destruct (negb (is_processed self p)
              && negb (_is_child_of_processed_path self p)) eqn:K;
      inversion H; subst l; clear H.
    + apply andb_prop in K. destruct K as [K1 K2].
      apply negb_true_iff in K1, K2. cbn [In]. rewrite IH. split.
      * intros [E|[Hin Hq]]; [subst x; split; [now left|]; eauto | tauto].
      * intros [[E|Hin] Hq]; [now left | right; tauto].
    + rewrite IH. cbn [In]. split; [tauto|].
      intros [[E|Hin] Hq]; [|tauto]. exfalso. subst x.
      destruct Hq as (p' & Hp' & K1 & K2). rewrite Hp in Hp'. inversion Hp'.
      subst p'. rewrite K1, K2 in K. discriminate K.
Qed.

(** X24: [_get_remaining_items] raises [KeyError] if a descriptor of the
    input lacks its path; otherwise it returns, in the order of the input,
    the descriptors whose path is not processed and has no processed proper
    ancestor: no processed [a] with the path being [a] followed by a dot
    and a rest. *)
Theorem remaining_items_are_unprocessed_roots :
  forall self : generator,
    if forallb has_path (input_data self)
    then exists l,
        _get_remaining_items self = Ok l
        /\ subsequence l (input_data self)
        /\ forall it,
             In it l
             <-> In it (input_data self)
                 /\ exists p,
                      i_path it = Some p
                      /\ is_processed self p = false
                      /\ forall a r,
                           p = a ++ "." ++ r -> is_processed self a = false
    else _get_remaining_items self = Raise (KeyError "path").
Proof.
  intros self. unfold _get_remaining_items.
  destruct (forallb has_path (input_data self)) eqn:Hp.
  - assert (Hok : exists l, remaining_of self (input_data self) = Ok l).
    { clear - Hp. induction (input_data self) as [|x items IH];
        [eexists; reflexivity|].
      cbn [forallb] in Hp. apply andb_prop in Hp. destruct Hp as [Hx Hp].
      destruct (IH Hp) as [l E]. cbn [remaining_of]. unfold getitem_path.
      unfold has_path in Hx. destruct (i_path x); [|discriminate].
      rewrite bind_ok, E, bind_ok. destruct (_ && _); eauto. }
    destruct Hok as [l E]. exists l. split; [exact E|]. split.
    + eapply remaining_of_subsequence, E.
    + intros it. rewrite (remaining_of_members _ _ _ E it). split.
      * intros [Hin (p & Hq & K1 & K2)]. split; [exact Hin|].
        exists p. split; [exact Hq|]. split; [exact K1|].
        intros a r Ea. destruct (is_processed self a) eqn:Ka; [|reflexivity].
        assert (C : _is_child_of_processed_path self p = true)
          by (apply child_of_processed_spec; now exists a, r).
        congruence.
      * intros [Hin (p & Hq & K1 & K2)]. split; [exact Hin|].
        exists p. split; [exact Hq|]. split; [exact K1|].
        destruct (_is_child_of_processed_path self p) eqn:C; [|reflexivity].
        apply child_of_processed_spec in C. destruct C as (a & r & Ea & Ka).
        rewrite (K2 a r Ea) in Ka. discriminate Ka.
  - clear - Hp. induction (input_data self) as [|x items IH];
      [discriminate Hp|].
    cbn [forallb] in Hp. cbn [remaining_of]. unfold getitem_path.
    unfold has_path in Hp at 1. destruct (i_path x); [|reflexivity].
    rewrite bind_ok. cbn [andb] in Hp. now rewrite (IH Hp).
Qed.

(** ** The depth of the rendering *)

Lemma map_result_mono :
  forall (A B : Type) (f g : A -> result B) (l : list A) (ys : list B),
    (forall x y, f x = Ok y -> g x = Ok y) ->
    map_result f l = Ok ys -> map_result g l = Ok ys.
Proof.
  intros A B f g l. induction l as [|x l IH]; intros ys Hfg H;
    cbn [map_result] in *; [exact H|].
  destruct (f x) as [y|] eqn:E; [|discriminate H]. rewrite bind_ok in H.
  destruct (map_result f l) as [ys'|] eqn:E'; [|discriminate H].
  rewrite (Hfg x y E), bind_ok, (IH ys' Hfg eq_refl). exact H.
Qed.

Lemma for_each_mono :
  forall (A S : Type) (f g : S -> A -> result S) (l : list A) (s r : S),
    (forall s x s', f s x = Ok s' -> g s x = Ok s') ->
    for_each f l s = Ok r -> for_each g l s = Ok r.
Proof.
  intros A S f g l. induction l as [|x l IH]; intros s r Hfg H;
    cbn [for_each] in *; [exact H|].
  destruct (f s x) as [s1|] eqn:E; [|discriminate H]. rewrite bind_ok in H.
  rewrite (Hfg s x s1 E), bind_ok. now apply IH.
Qed.

Lemma format_regular_field_mono :
  forall (c1 c2 : string -> nat -> result string) self name path indent lvl s,
    (forall x l y, c1 x l = Ok y -> c2 x l = Ok y) ->
    _format_regular_field c1 self name path indent lvl = Ok s ->
    _format_regular_field c2 self name path indent lvl = Ok s.
Proof.
  intros c1 c2 self name path indent lvl s Hc H.
  unfold _format_regular_field in *.
  destruct (Dict.get path (path_data self)) as [it|]; [|discriminate H].
  destruct (getitem_value it) as [v|]; [|discriminate H].
  rewrite bind_ok in *.
  destruct (String.eqb v "array"); [exact H|].
  destruct (String.eqb v "object" && _has_children self path); [|exact H].
  destruct (c1 path (lvl + 1)) as [y|] eqn:E; [|discriminate H].
  now rewrite (Hc _ _ _ E).
Qed.

Lemma format_array_struct_content_mono :
  forall (c1 c2 : string -> nat -> result string) self path lvl s,
    (forall x l y, c1 x l = Ok y -> c2 x l = Ok y) ->
    _format_array_struct_content c1 self path lvl = Ok s ->
    _format_array_struct_content c2 self path lvl = Ok s.
Proof.
  intros c1 c2 self path lvl s Hc H.
  unfold _format_array_struct_content in *.
  destruct (_collect_array_fields self path) as [all_fields|]; [|discriminate H].
  rewrite bind_ok in *.
  match type of H with
  | bind (for_each ?f ?l ?a) _ = _ =>
      destruct (for_each f l a) as [acc|] eqn:E; [|discriminate H]
  end.
  erewrite for_each_mono; [exact H | | exact E].
  intros [fields seen] x acc' Hx. cbv beta iota in *.
  destruct (Dict.get x all_fields) as [[o nf|o e|o np]|]; try exact Hx.
  destruct (set_mem string_dec x seen); [exact Hx|].
  destruct (_format_regular_field c1 self x e (spaces (lvl * 4)) lvl)
    as [line|] eqn:El; [|discriminate Hx].
  now rewrite (format_regular_field_mono _ _ _ _ _ _ _ _ Hc El).
Qed.

Lemma format_struct_child_mono :
  forall (c1 c2 : string -> nat -> result string) self child indent lvl s,
    (forall x l y, c1 x l = Ok y -> c2 x l = Ok y) ->
    _format_struct_child c1 self child indent lvl = Ok s ->
    _format_struct_child c2 self child indent lvl = Ok s.
Proof.
  intros c1 c2 self child indent lvl s Hc H.
  unfold _format_struct_child in *.
  destruct (Dict.get child (path_data self)) as [it|]; [|exact H].
  destruct (getitem_value it) as [v|]; [|discriminate H].
  rewrite bind_ok in *.
  destruct (String.eqb v "object").
  { unfold _format_object_field in *.
    destruct (_has_children self child); [|exact H].
    destruct (c1 child (lvl + 1)) as [y|] eqn:E; [|discriminate H].
    now rewrite (Hc _ _ _ E). }
  destruct (String.eqb v "array"); [|exact H].
  unfold _format_array_field in *.
  destruct (i_arr_type it);
    destruct (Dict.get child (array_element_fields self)) as [[|e m]|];
    try exact H;
    (destruct (_format_array_struct_content c1 self child (lvl + 1))
       as [y|] eqn:E; [|discriminate H]);
    now rewrite (format_array_struct_content_mono _ _ _ _ _ _ Hc E).
Qed.

Lemma format_struct_content_deeper :
  forall depth self path lvl s,
    _format_struct_content depth self path lvl = Ok s ->
    _format_struct_content (S depth) self path lvl = Ok s.
Proof.
  induction depth as [|depth IH]; intros self path lvl s H; [discriminate H|].
  cbn [_format_struct_content] in H.
  change (_format_struct_content (S (S depth)) self path lvl)
    with (lines <-
            map_result
              (fun child_path =>
                 _format_struct_child (_format_struct_content (S depth) self)
                   self child_path (spaces (lvl * 4)) lvl)
              (_get_ordered_children self path) ;;
          Ok (join ("," ++ nl) lines)).
  destruct (map_result _ (_get_ordered_children self path)) as [lines|] eqn:E;
    [|discriminate H].
  erewrite map_result_mono; [exact H | | exact E].
  intros c y Hy. cbv beta in *.
  eapply format_struct_child_mono; [|exact Hy].
  intros x l z. apply IH.
Qed.

Lemma format_struct_content_deep_enough :
  forall depth depth' self path lvl s,
    depth <= depth' ->
    _format_struct_content depth self path lvl = Ok s ->
    _format_struct_content depth' self path lvl = Ok s.
Proof.
  intros depth depth' self path lvl s Hle H.
  induction Hle; [exact H | now apply format_struct_content_deeper].
Qed.

(** X25: on the index of a well-formed list, [_format_struct_content]
    returns for every struct path and indentation level, and what it
    returns does not depend on the room left on the stack once there is
    room for one call more than the longest indexed path is long: a nested
    call is always on a longer path of the index. *)
Theorem struct_rendering_terminates :
  forall (items : list item) (struct_path : string) (indent_level : nat),
    well_formed items = true ->
    exists body,
      forall depth,
        stack_depth (indexed_state items) <= depth ->
        _format_struct_content depth (indexed_state items) struct_path
          indent_level = Ok body.
Proof.
  intros items struct_path indent_level Hwf.
  assert (Hpaths : forallb has_path items = true).
  { unfold well_formed in Hwf. rewrite forallb_forall in Hwf.
    apply forallb_forall. intros it Hin.
    destruct (well_formed_item_inv it (Hwf it Hin)) as ((p & Hpp & _) & _).
    unfold has_path. now rewrite Hpp. }
  destruct (preprocess_input_total items Hpaths) as [st0 E0].
  pose proof (indexed_wf items st0 Hwf E0) as Hwfst.
  unfold indexed_state. rewrite E0.
  destruct (format_struct_content_ok _ struct_path indent_level Hwfst)
    as [body Hbody].
  exists body. intros depth Hd.
  eapply format_struct_content_deep_enough; eassumption.
Qed.
(** ** What [_format_dotted_path] leaves to an ancestor *)

(** X26: [_format_dotted_path] renders nothing for a descriptor below a
    processed path, whatever else the descriptor holds (its kind may even
    be missing): it returns [None] and leaves the generator as it is.  It
    does the same for a descriptor whose first segment is the path of an
    indexed object that has children, the struct that descriptor belongs
    to. *)
Theorem dotted_path_left_to_its_ancestor :
  forall (self : generator) (it : item) (a r : string),
    i_path it = Some (a ++ "." ++ r) ->
    (is_processed self a = true -> _format_dotted_path self it = Ok (None, self))
    /\ (forall parent_item,
           contains "." a = false ->
           Dict.get a (path_data self) = Some parent_item ->
           i_value parent_item = Some "object" ->
           _has_children self a = true ->
           _format_dotted_path self it = Ok (None, self)).
Proof.
  intros self it a r Hp.
  pose proof (split_length_pos "." a) as La.
  pose proof (split_length_pos "." r) as Lr.
  assert (Hlen : Nat.ltb 1 (List.length (split "." (a ++ "." ++ r))) = true).
  { apply Nat.ltb_lt. rewrite split_dot_app, length_app. lia. }
  split.
  - intros Ha. unfold _format_dotted_path, getitem_path. rewrite Hp, bind_ok.
    destruct (_ && _); [reflexivity|].
    rewrite Hlen. cbn [andb].
    assert (Hscan : existsb
                      (fun i => is_processed self
                                  (join "." (firstn i (split "." (a ++ "." ++ r)))))
                      (seq 1 (List.length (split "." (a ++ "." ++ r)) - 1))
                    = true).
    { apply (ancestor_scan (is_processed self)). exists a.
      split; [apply descends_iff; now exists r | exact Ha]. }
    now rewrite Hscan.
  - intros parent_item Hflat Hget Hv Hch.
    unfold _format_dotted_path, getitem_path. rewrite Hp, bind_ok.
    destruct (_ && _); [reflexivity|].
    destruct (_ && _); [reflexivity|].
    rewrite Hlen, (split_dot_first_segment a r Hflat).
    destruct (split "." r) as [|x rest] eqn:Er; [cbn in Lr; lia|].
    cbn [List.length Nat.sub seq struct_parent_pending firstn].
    change (join "." [a]) with a.
    rewrite Hget. unfold getitem_value. rewrite Hv, bind_ok, Hch.
    reflexivity.
Qed.

(** ** The linear search of the nested array formatters *)

Lemma find_definition_first :
  forall pre it post p,
    i_path it = Some p ->
    (forall x, In x pre -> exists q, i_path x = Some q /\ q <> p) ->
    find_definition (pre ++ it :: post) p = Ok (Some it).
Proof.
  induction pre as [|x pre IH]; intros it post p Hp Hpre.
  - cbn [app find_definition]. unfold getitem_path.
    now rewrite Hp, bind_ok, String.eqb_refl.
  - cbn [app find_definition]. unfold getitem_path.
    destruct (Hpre x (or_introl eq_refl)) as (q & Hq & Hne).
    rewrite Hq, bind_ok. apply String.eqb_neq in Hne. rewrite Hne.
    apply IH; [exact Hp|]. intros y Hy. apply Hpre. now right.
Qed.

Lemma find_definition_none :
  forall items p,
    forallb has_path items = true ->
    (forall x, In x items -> i_path x <> Some p) ->
    find_definition items p = Ok None.
Proof.
  induction items as [|x items IH]; intros p Hall Hno; [reflexivity|].
  cbn [forallb] in Hall. apply andb_prop in Hall. destruct Hall as [Hx Hall].
  cbn [find_definition]. unfold getitem_path. unfold has_path in Hx.
  destruct (i_path x) as [q|] eqn:Hq; [|discriminate].
  rewrite bind_ok. destruct (String.eqb_spec q p) as [E|_].
  - exfalso. apply (Hno x); [now left | congruence].
  - apply IH; [exact Hall|]. intros y Hy. apply Hno. now right.
Qed.

(** X27: the search the nested array formatters run over the input
    ([for item in self.input_data: if item["path"] == ...]) answers the
    first descriptor of the path; it raises [KeyError] if a descriptor
    without a path comes before it.  Once [_preprocess_input] has run on a
    list whose paths are pairwise distinct, the search and the index
    [path_data] agree on every path. *)
Theorem search_finds_first_descriptor :
  forall (pre post : list item) (it : item) (p : string),
    i_path it = Some p ->
    ((forall x, In x pre -> exists q, i_path x = Some q /\ q <> p) ->
     find_definition (pre ++ it :: post) p = Ok (Some it))
    /\ ((exists x, In x pre /\ i_path x = None
                   /\ forall y, In y pre -> i_path y <> Some p) ->
        find_definition (pre ++ it :: post) p = Raise (KeyError "path"))
    /\ (forall self,
           _preprocess_input (new_generator (pre ++ it :: post)) = Ok self ->
           NoDup (map i_path (pre ++ it :: post)) ->
           forall q,
             find_definition (pre ++ it :: post) q
             = Ok (Dict.get q (path_data self))).
Proof.
  intros pre post it p Hp. refine (conj _ (conj _ _)).
  - now apply find_definition_first.
  - intros (x & Hx & Hnone & Hno). clear Hp.
    induction pre as [|y pre IH]; [destruct Hx|].
    cbn [app find_definition]. unfold getitem_path.
    destruct (i_path y) as [q|] eqn:Hq; [|reflexivity].
    rewrite bind_ok. destruct (String.eqb_spec q p) as [E|_].
    { exfalso. apply (Hno y); [now left | congruence]. }
    destruct Hx as [Hx|Hx]; [subst y; congruence|].
    apply IH; [exact Hx|]. intros z Hz. apply Hno. now right.
  - remember (pre ++ it :: post)%list as items eqn:Eitems. clear Eitems.
    intros self Hself Hnd q.
    destruct (preprocess_input_spec _ _ Hself) as (_ & _ & Ht & Epd & _).
    assert (Hall : forallb has_path items = true).
    { destruct (forallb has_path items) eqn:Hh; [reflexivity|].
      rewrite (track_from_missing_path items 0%Z Dict.empty Hh) in Ht.
      discriminate Ht. }
    rewrite Epd.
    destruct (Dict.get q (index_paths items Dict.empty)) as [d|] eqn:G.
    + apply index_paths_get in G. destruct G as [G|[Hin Hd]]; [discriminate|].
      apply in_split in Hin. destruct Hin as (l1 & l2 & E). subst items.
      apply find_definition_first; [exact Hd|].
      intros x Hx.
      assert (Hx' : In x (l1 ++ d :: l2)) by (apply in_or_app; now left).
      rewrite forallb_forall in Hall. specialize (Hall x Hx').
      unfold has_path in Hall. destruct (i_path x) as [qx|] eqn:Hqx;
        [|discriminate].
      exists qx. split; [reflexivity|]. intros Eq. subst qx.
      rewrite map_app in Hnd. cbn [map] in Hnd. apply NoDup_remove_2 in Hnd.
      apply Hnd, in_or_app. left. rewrite Hd, <- Hqx. now apply in_map.
    + apply find_definition_none; [exact Hall|].
      intros x Hx Hq.
      assert (K : In q (Dict.keys (index_paths items Dict.empty))).
      { apply index_paths_keys. right. now exists x. }
      apply dict_get_in_keys in K. destruct K as [v K]. congruence.
Qed.

(** ** The element struct of a nested array *)

Lemma set_add_new :
  forall (a : string) (l : set string),
    set_mem string_dec a l = false -> set_add string_dec a l = (l ++ [a])%list.
Proof.
  intros a l. induction l as [|x l IH]; intros H; [reflexivity|].
  cbn [set_mem set_add app] in *.
  destruct (string_dec a x); [discriminate H|]. now rewrite IH.
Qed.




(** ** Regrouping the element paths again *)

Lemma process_element_path_touches :
  forall self path,
    _process_element_path self path
    = set_array_element_fields
        (set_nested_arrays self
           (nested_arrays (_process_element_path self path)))
        (array_element_fields (_process_element_path self path)).
Proof.
  intros self path.
  unfold _process_element_path, _process_multilevel_element_path,
    _process_simple_element_path, init_element_fields, set_element_field.
  repeat match goal with
         | |- context [if ?c then _ else _] => destruct c
         end;
    destruct self; reflexivity.
Qed.

(** X29: [_process_array_elements] assigns [array_element_fields] and
    [nested_arrays] and nothing else, and what it assigns depends on the
    index only: running it a second time changes nothing. *)
Theorem process_array_elements_idempotent :
  forall self : generator,
    _process_array_elements self
    = set_array_element_fields
        (set_nested_arrays self (nested_arrays (_process_array_elements self)))
        (array_element_fields (_process_array_elements self))
    /\ _process_array_elements (_process_array_elements self)
       = _process_array_elements self.
Proof.
  intros self.
  assert (F : forall s,
             _process_array_elements s
             = set_array_element_fields
                 (set_nested_arrays s (nested_arrays (_process_array_elements s)))
                 (array_element_fields (_process_array_elements s))).
  { intros s. unfold _process_array_elements.
    apply (fold_left_invariant _ _
             (fun r => r = set_array_element_fields
                             (set_nested_arrays s (nested_arrays r))
                             (array_element_fields r))).
    - destruct s; reflexivity.
    - intros a x Ha. rewrite (process_element_path_touches a x).
      rewrite Ha at 1. destruct s; reflexivity. }
  split; [apply F|].
  rewrite (F self) at 1. unfold _process_array_elements at 1.
  unfold _process_array_elements at 3. destruct self; reflexivity.
Qed.

(** ** What [_mark_array_elements_processed] marks *)

Lemma mark_values_spec :
  forall (m : Dict.t string) (s : generator) (q : string),
    let s' :=
      fold_left
        (fun self entry =>
           if Dict.mem (snd entry) (path_data self)
           then add_processed self (snd entry)
           else self) m s in
    s' = set_processed_paths s (processed_paths s')
    /\ (is_processed s' q = true
        <-> is_processed s q = true
            \/ (Dict.mem q (path_data s) = true /\ exists f, In (f, q) m)).
Proof.
  induction m as [|[f e] m IH]; intros s q; cbn [fold_left].
  - split; [apply set_processed_paths_eta|].
    split; [auto | intros [H|[_ [f []]]]; exact H].
  - cbn [snd].
    destruct (IH (if Dict.mem e (path_data s) then add_processed s e else s) q)
      as [E1 E2].
    cbv zeta in *. destruct (Dict.mem e (path_data s)) eqn:Hm.
    + split; [rewrite E1 at 1; reflexivity|].
      rewrite E2, is_processed_add, orb_true_iff, String.eqb_eq.
      cbn [path_data add_processed set_processed_paths In]. split.
      * intros [[H|H]|[Hq [f' H]]].
        -- subst q. right. split; [exact Hm|]. exists f. now left.
        -- now left.
        -- right. split; [exact Hq|]. exists f'. now right.
      * intros [H|[Hq [f' [H|H]]]].
        -- left. now right.
        -- inversion H. subst. left. now left.
        -- right. split; [exact Hq|]. now exists f'.
    + split; [exact E1|]. rewrite E2. cbn [In]. split.
      * intros [H|[Hq [f' H]]]; [now left|].
        right. split; [exact Hq|]. exists f'. now right.
      * intros [H|[Hq [f' [H|H]]]]; [now left| |].
        -- inversion H. subst. congruence.
        -- right. split; [exact Hq|]. now exists f'.
Qed.

(** X30: [_mark_array_elements_processed self path] changes the processed
    set only, and does nothing if [path] has no entry among the element
    fields.  Otherwise a path is processed afterwards exactly if it was
    processed before, or is an indexed element path kept under [path], or
    is an indexed element path kept under one of the nested arrays of
    [path]. *)
Theorem mark_array_elements_exact :
  forall (self : generator) (path : string),
    let self' := _mark_array_elements_processed self path in
    self' = set_processed_paths self (processed_paths self')
    /\ (Dict.get path (array_element_fields self) = None -> self' = self)
    /\ forall m q,
         Dict.get path (array_element_fields self) = Some m ->
         (is_processed self' q = true
          <-> is_processed self q = true
              \/ (Dict.mem q (path_data self) = true
                  /\ ((exists f, In (f, q) m)
                      \/ exists np m' f,
                           In np (Dict.get_list path (nested_arrays self))
                           /\ Dict.get np (array_element_fields self) = Some m'
                           /\ In (f, q) m'))).
Proof.
  intros self path. cbv zeta. unfold _mark_array_elements_processed.
  destruct (Dict.get path (array_element_fields self)) as [m|] eqn:Em.
  2:{ split; [apply set_processed_paths_eta|]. split; [reflexivity|].
      intros m q Hm. discriminate Hm. }
  pose proof (fun q => mark_values_spec m self q) as H1. cbv zeta in H1.
  set (s1 := fold_left
               (fun self0 entry =>
                  if Dict.mem (snd entry) (path_data self0)
                  then add_processed self0 (snd entry)
                  else self0) m self) in *.
  destruct (H1 "") as [F1 _].
  assert (G : forall l s,
             let s' :=
               fold_left
                 (fun self0 nested_array_path =>
                    match Dict.get nested_array_path (array_element_fields self0)
                    with
                    | Some m' =>
                        fold_left
                          (fun self1 entry =>
                             if Dict.mem (snd entry) (path_data self1)
                             then add_processed self1 (snd entry)
                             else self1) m' self0
                    | None => self0
                    end) l s in
             s' = set_processed_paths s (processed_paths s')
             /\ forall q,
                  is_processed s' q = true
                  <-> is_processed s q = true
                      \/ (Dict.mem q (path_data s) = true
                          /\ exists np m' f,
                               In np l
                               /\ Dict.get np (array_element_fields s) = Some m'
                               /\ In (f, q) m')).
  { induction l as [|np l IH]; intros s; cbn [fold_left].
    - split; [apply set_processed_paths_eta|]. intros q.
      split; [auto | intros [H|[_ (np & m' & f & [] & _)]]; exact H].
    - destruct (Dict.get np (array_element_fields s)) as [m'|] eqn:Enp.
      + pose proof (fun q => mark_values_spec m' s q) as Hv. cbv zeta in Hv.
        match goal with
        | |- context [fold_left ?f l ?s2] =>
            destruct (IH s2) as [E1 E2]; cbv zeta in E1, E2
        end.
        destruct (Hv "") as [V1 _]. split.
        * rewrite E1 at 1. rewrite V1 at 1. reflexivity.
        * intros q. rewrite E2. destruct (Hv q) as [_ V2]. rewrite V2.
          rewrite V1.
          cbn [path_data array_element_fields set_processed_paths In]. split.
          -- intros [[H|[Hq [f H]]]|[Hq (np' & m2 & f & Hin & Hg & H)]].
             ++ now left.
             ++ right. split; [exact Hq|]. exists np, m', f.
                split; [now left | now split].
             ++ right. split; [exact Hq|]. exists np', m2, f.
                split; [now right | now split].
          -- intros [H|[Hq (np' & m2 & f & [Hin|Hin] & Hg & H)]].
             ++ left. now left.
             ++ subst np'. rewrite Enp in Hg. inversion Hg. subst m2.
                left. right. split; [exact Hq|]. now exists f.
             ++ right. split; [exact Hq|]. exists np', m2, f. now split.
      + destruct (IH s) as [E1 E2]. cbv zeta in E1, E2.
        split; [exact E1|]. intros q. rewrite E2. cbn [In]. split.
        * intros [H|[Hq (np' & m2 & f & Hin & Hg & H)]]; [now left|].
          right. split; [exact Hq|]. exists np', m2, f.
          split; [now right | now split].
        * intros [H|[Hq (np' & m2 & f & [Hin|Hin] & Hg & H)]]; [now left| |].
          -- subst np'. congruence.
          -- right. split; [exact Hq|]. exists np', m2, f. now split. }
  assert (N1 : nested_arrays s1 = nested_arrays self) by (now rewrite F1).
  rewrite N1. unfold Dict.get_list.
  destruct (Dict.get path (nested_arrays self)) as [nested|] eqn:En.
  - destruct (G nested s1) as [E1 E2]. cbv zeta in E1, E2.
    split; [rewrite E1 at 1; rewrite F1 at 1; reflexivity|].
    split; [intros Hn; discriminate Hn|].
    intros m0 q Hm0. inversion Hm0. subst m0.
    rewrite E2. destruct (H1 q) as [_ V2]. rewrite V2. rewrite F1.
    cbn [path_data array_element_fields set_processed_paths]. tauto.
  - split; [exact F1|]. split; [intros Hn; discriminate Hn|].
    intros m0 q Hm0. inversion Hm0. subst m0.
    destruct (H1 q) as [_ V2]. rewrite V2. split.
    + intros [H|[Hq H]]; [now left | right; split; [exact Hq | now left]].
    + intros [H|[Hq [H|(np & m' & f & [] & _)]]];
        [now left | right; now split].
Qed.

(** ** A column of its own and what lies below it *)
































(** ** The element struct of an array, by either routine *)

Lemma dict_in_get :
  forall V k (v : V) d,
    NoDup (Dict.keys d) -> In (k, v) d -> Dict.get k d = Some v.
Proof.
  intros V k v d. induction d as [|[k0 v0] d IH]; intros Hnd Hin;
    [destruct Hin|].
  cbn [Dict.keys map fst] in Hnd. inversion Hnd as [|? ? Hk Hd]. subst.
  cbn [Dict.get]. destruct Hin as [Hin|Hin].
  - inversion Hin. subst. now rewrite String.eqb_refl.
  - destruct (String.eqb_spec k k0) as [E|E]; [|apply IH; assumption].
    subst k0. exfalso. apply Hk. change (In k (map fst d)).
    apply in_map_iff. now exists (k, v).
Qed.

Lemma scanned_element_fields_nodup :
  forall self np, NoDup (Dict.keys (scanned_element_fields self np)).
Proof.
  intros self np. unfold scanned_element_fields.
  apply fold_left_invariant; [constructor|].
  intros d k Hd.
  destruct (Nat.leb 2 _); [|exact Hd].
  destruct (startswith _ k); [|exact Hd].
  apply dict_set_nodup, Hd.
Qed.

Lemma scanned_element_fields_indexed :
  forall self np name path,
    In (name, path) (scanned_element_fields self np) ->
    Dict.mem path (path_data self) = true.
Proof.
  intros self np name path. unfold scanned_element_fields.
  apply (fold_left_invariant_in _ _
           (fun d => In (name, path) d -> Dict.mem path (path_data self) = true)).
  - intros [].
  - intros d k Hk Hd Hin.
    destruct (Nat.leb 2 _); [|exact (Hd Hin)].
    destruct (startswith _ k); [|exact (Hd Hin)].
    apply dict_in_set in Hin. destruct Hin as [[_ E]|Hin]; [|exact (Hd Hin)].
    subst path. now apply dict_mem_in_keys.
Qed.

(** One turn of the loop over element fields: the entry is passed over, its
    name being known already or its path not indexed, or it gives the line
    of its name. *)
Lemma add_element_field_step :
  forall self indent lines seen name path acc',
    add_element_field self indent (lines, seen) (name, path) = Ok acc' ->
    (acc' = (lines, seen)
     /\ (In name seen \/ Dict.mem path (path_data self) = false))
    \/ (~ In name seen
        /\ Dict.mem path (path_data self) = true
        /\ exists line,
             element_line self indent name path line
             /\ acc' = ((lines ++ [line])%list, (seen ++ [name])%list)).
Proof.
  intros self indent lines seen name path acc' H.
  unfold add_element_field in H. unfold Dict.mem.
  destruct (set_mem string_dec name seen) eqn:Hm.
  { inversion H. left. split; [reflexivity|]. left.
    now apply (set_mem_correct1 string_dec). }
  destruct (Dict.get path (path_data self)) as [it|] eqn:Hit.
  2:{ inversion H. left. split; [reflexivity | now right]. }
  unfold getitem_value in H. destruct (i_value it) as [v|] eqn:Hv;
    [|discriminate H].
  rewrite bind_ok in H. inversion H. subst acc'. clear H. right.
  split; [now apply (set_mem_complete1 string_dec)|]. split; [reflexivity|].
  exists (simple_line indent name v (get_doc it)). split.
  - exists it, v. now repeat split.
  - now rewrite (set_add_new _ _ Hm).
Qed.

(** The loop over the element fields of one source: it appends one line
    per new name, in the order of the source, and passes over the names
    seen before. *)
Lemma add_element_fields_run :
  forall self indent entries lines seen lines' seen',
    for_each (add_element_field self indent) entries (lines, seen)
    = Ok (lines', seen') ->
    exists names new_lines,
      seen' = (seen ++ names)%list
      /\ lines' = (lines ++ new_lines)%list
      /\ NoDup names
      /\ (forall n, In n names -> ~ In n seen)
      /\ Forall2
           (fun name line =>
              exists path,
                In (name, path) entries
                /\ element_line self indent name path line)
           names new_lines
      /\ (forall name path,
             In (name, path) entries ->
             Dict.mem path (path_data self) = true -> In name seen')
      /\ ((forall name path,
              In (name, path) entries ->
              Dict.mem path (path_data self) = true) ->
          NoDup (map fst entries) ->
          names = filter (fun n => negb (mem_string n seen)) (map fst entries)).
Proof.
  intros self indent entries.
  induction entries as [|[name path] entries IH];
    intros lines seen lines' seen' H; cbn [for_each] in H.
  - inversion H. subst. exists [], []. rewrite !app_nil_r.
    repeat split; try constructor; intros; contradiction.
  - destruct (add_element_field self indent (lines, seen) (name, path))
      as [[lines1 seen1]|] eqn:E; [|discriminate H].
    rewrite bind_ok in H.
    destruct (IH _ _ _ _ H) as (names & new_lines & E1 & E2 & Hnd & Hnew & Hf
                                & Hall & Hexact).
    destruct (add_element_field_step _ _ _ _ _ _ _ E)
      as [[Eacc Hskip]|(Hfresh & Hmem & line & Hline & Eacc)];
      inversion Eacc; subst lines1 seen1; clear Eacc.
    + exists names, new_lines. split; [exact E1|]. split; [exact E2|].
      split; [exact Hnd|]. split; [exact Hnew|]. split.
      { eapply Forall2_impl; [|exact Hf].
        intros n l (p & Hin & Hl). exists p. split; [now right | exact Hl]. }
      split.
      { intros n p [Hin|Hin] Hp; [|eapply Hall; eauto].
        inversion Hin. subst n p. destruct Hskip as [Hs|Hs]; [|congruence].
        rewrite E1. apply in_or_app. now left. }
      intros Hidx Hkeys. cbn [map fst filter].
      inversion Hkeys as [|? ? Hk Hd]. subst.
      destruct Hskip as [Hs|Hs].
      2:{ rewrite (Hidx name path (or_introl eq_refl)) in Hs. discriminate. }
      apply mem_string_in in Hs. rewrite Hs. cbn [negb].
      apply Hexact; [|exact Hd]. intros n p Hin. apply (Hidx n p). now right.
    + exists (name :: names), (line :: new_lines).
      split; [rewrite E1, <- app_assoc; reflexivity|].
      split; [rewrite E2, <- app_assoc; reflexivity|].
      assert (Hout : ~ In name names).
      { intros Hin. apply (Hnew name Hin). apply in_or_app. right. now left. }
      split; [constructor; assumption|]. split.
      { intros n [Hn|Hn]; [now subst|].
        intros Hs. apply (Hnew n Hn). apply in_or_app. now left. }
      split.
      { constructor.
        - exists path. split; [now left | exact Hline].
        - eapply Forall2_impl; [|exact Hf].
          intros n l (p & Hin & Hl). exists p. split; [now right | exact Hl]. }
      split.
      { intros n p [Hin|Hin] Hp; [|eapply Hall; eauto].
        inversion Hin. subst n p. rewrite E1.
        apply in_or_app. left. apply in_or_app. right. now left. }
      intros Hidx Hkeys. cbn [map fst filter].
      inversion Hkeys as [|? ? Hk Hd]. subst.
      assert (Hs : mem_string name seen = false).
      { destruct (mem_string name seen) eqn:Em; [|reflexivity].
        apply mem_string_in in Em. contradiction. }
      rewrite Hs. cbn [negb]. f_equal.
      rewrite Hexact; [|intros n p Hin; apply (Hidx n p); now right | exact Hd].
      apply filter_ext_in. intros n Hn. f_equal.
      destruct (mem_string n (seen ++ [name])) eqn:E3;
        destruct (mem_string n seen) eqn:E4; try reflexivity.
      * apply mem_string_in in E3. apply in_app_or in E3.
        destruct E3 as [E3|[E3|[]]].
        -- apply mem_string_in in E3. congruence.
        -- subst n. contradiction.
      * apply mem_string_in in E4.
        assert (In n (seen ++ [name])) by (apply in_or_app; now left).
        apply mem_string_in in H0. congruence.
Qed.

(** The first source of a nested array: the [nestedFields] descriptor of
    the first descriptor found at its path gives one line, or there is
    none. *)
Lemma add_nested_array_fields_first :
  forall self np indent acc,
    _add_nested_array_fields self np indent ([], empty_set string) = Ok acc ->
    (acc = ([], [])
     /\ forall d nf n,
          find_definition (input_data self) np = Ok (Some d) ->
          usable_nested_fields d = Some (NFDict nf) ->
          nf_name nf = Some n -> False)
    \/ exists d nf n,
         find_definition (input_data self) np = Ok (Some d)
         /\ usable_nested_fields d = Some (NFDict nf)
         /\ nf_name nf = Some n
         /\ acc = ([nested_array_field_line indent n nf], [n]).
Proof.
  intros self np indent acc H. unfold _add_nested_array_fields in H.
  destruct (find_definition (input_data self) np) as [[d|]|] eqn:Ef;
    [| |discriminate H]; rewrite bind_ok in H.
  2:{ inversion H. left. split; [reflexivity|]. intros d nf n Ed. discriminate. }
  destruct (usable_nested_fields d) as [[| |nf]|] eqn:Eu.
  1,2: discriminate H.
  2:{ inversion H. left. split; [reflexivity|].
      intros d' nf' n' Ed Eu'. inversion Ed. subst d'. congruence. }
  destruct (nf_name nf) as [n|] eqn:En; [|discriminate H].
  inversion H. right. exists d, nf, n. repeat split; assumption.
Qed.

(** The body of a nested array, source by source. *)
Lemma nested_array_body_by_source :
  forall self np indent_level body,
    _format_nested_array_content self np indent_level = Ok body ->
    let indent := spaces (indent_level * 4) in
    let scanned := scanned_element_fields self np in
    let recorded := recorded_element_fields self np in
    exists first_names first_lines scanned_lines recorded_names recorded_lines,
      let scanned_names :=
        filter (fun n => negb (mem_string n first_names)) (Dict.keys scanned) in
      body = join ("," ++ nl) (first_lines ++ scanned_lines ++ recorded_lines)
      /\ NoDup (first_names ++ scanned_names ++ recorded_names)
      /\ (forall d nf n,
             find_definition (input_data self) np = Ok (Some d) ->
             usable_nested_fields d = Some (NFDict nf) ->
             nf_name nf = Some n ->
             first_names = [n]
             /\ first_lines = [nested_array_field_line indent n nf])
      /\ Forall2
           (fun name line =>
              exists d nf,
                find_definition (input_data self) np = Ok (Some d)
                /\ usable_nested_fields d = Some (NFDict nf)
                /\ nf_name nf = Some name
                /\ line = nested_array_field_line indent name nf)
           first_names first_lines
      /\ Forall2
           (fun name line =>
              exists path,
                Dict.get name scanned = Some path
                /\ element_line self indent name path line)
           scanned_names scanned_lines
      /\ Forall2
           (fun name line =>
              exists path,
                In (name, path) recorded
                /\ element_line self indent name path line)
           recorded_names recorded_lines
      /\ (forall name path,
             In (name, path) recorded ->
             Dict.mem path (path_data self) = true ->
             In name (first_names ++ scanned_names ++ recorded_names)).
Proof.
  intros self np lvl body H indent scanned recorded.
  unfold _format_nested_array_content in H. fold indent in H.
  destruct (_add_nested_array_fields self np indent ([], empty_set string))
    as [acc1|] eqn:E1; [|discriminate H].
  rewrite bind_ok in H.
  destruct (_add_element_fields_from_path_scan self np indent acc1)
    as [[lines2 seen2]|] eqn:E2; [|discriminate H].
  rewrite bind_ok in H.
  destruct (_add_element_fields_from_mapping self np indent (lines2, seen2))
    as [[lines3 seen3]|] eqn:E3; [|discriminate H].
  rewrite bind_ok in H. inversion H. subst body. clear H. cbn [fst].
  (* the first source *)
  assert (H1 : exists first_names first_lines,
             acc1 = (first_lines, first_names)
             /\ NoDup first_names
             /\ (forall d nf n,
                    find_definition (input_data self) np = Ok (Some d) ->
                    usable_nested_fields d = Some (NFDict nf) ->
                    nf_name nf = Some n ->
                    first_names = [n]
                    /\ first_lines = [nested_array_field_line indent n nf])
             /\ Forall2
                  (fun name line =>
                     exists d nf,
                       find_definition (input_data self) np = Ok (Some d)
                       /\ usable_nested_fields d = Some (NFDict nf)
                       /\ nf_name nf = Some name
                       /\ line = nested_array_field_line indent name nf)
                  first_names first_lines).
  { destruct (add_nested_array_fields_first _ _ _ _ E1)
      as [[Ea Hnone]|(d & nf & n & Ed & Eu & En & Ea)].
    - exists [], []. split; [exact Ea|]. split; [constructor|].
      split; [|constructor]. intros d nf n Ed Eu En.
      destruct (Hnone d nf n Ed Eu En).
    - exists [n], [nested_array_field_line indent n nf].
      split; [exact Ea|]. split; [repeat constructor; intros []|]. split.
      + intros d' nf' n' Ed' Eu' En'. rewrite Ed in Ed'. inversion Ed'.
        subst d'. rewrite Eu in Eu'. inversion Eu'. subst nf'.
        rewrite En in En'. inversion En'. subst n'. split; reflexivity.
      + constructor; [|constructor]. exists d, nf. repeat split; assumption. }
  destruct H1 as (first_names & first_lines & Ea & Hnd1 & Hfirst & Hf1).
  subst acc1.
  (* the scan of the index *)
  change (_add_element_fields_from_path_scan self np indent
            (first_lines, first_names))
    with (for_each (add_element_field self indent) scanned
            (first_lines, first_names)) in E2.
  destruct (add_element_fields_run _ _ _ _ _ _ _ E2)
    as (names2 & new2 & S1 & L1 & Hnd2 & Hnew2 & Hf2 & _ & Hexact2).
  specialize (Hexact2 (scanned_element_fields_indexed self np)
                (scanned_element_fields_nodup self np)).
  (* the recorded element fields *)
  assert (E3' : for_each (add_element_field self indent) recorded
                  (lines2, seen2) = Ok (lines3, seen3)).
  { unfold _add_element_fields_from_mapping in E3.
    unfold recorded, recorded_element_fields.
    destruct (Dict.get np (array_element_fields self)); exact E3. }
  destruct (add_element_fields_run _ _ _ _ _ _ _ E3')
    as (names3 & new3 & S2 & L2 & Hnd3 & Hnew3 & Hf3 & Hall3 & _).
  exists first_names, first_lines, new2, names3, new3. cbv zeta.
  fold scanned. change (map fst scanned) with (Dict.keys scanned) in Hexact2.
  rewrite <- Hexact2.
  split; [subst; now rewrite <- app_assoc|]. split.
  { subst seen2. apply NoDup_app; [exact Hnd1 | | ].
    - apply NoDup_app; [exact Hnd2 | exact Hnd3 |].
      intros x Hx Hy. apply (Hnew3 x Hy). apply in_or_app. now right.
    - intros x Hx Hy. apply in_app_or in Hy. destruct Hy as [Hy|Hy].
      + exact (Hnew2 x Hy Hx).
      + apply (Hnew3 x Hy). apply in_or_app. now left. }
  split; [exact Hfirst|]. split; [exact Hf1|]. split.
  { eapply Forall2_impl; [|exact Hf2].
    intros n l (p & Hin & Hl). exists p. split; [|exact Hl].
    apply dict_in_get; [apply scanned_element_fields_nodup | exact Hin]. }
  split; [exact Hf3|].
  intros n p Hin Hp. rewrite app_assoc, <- S1, <- S2. eapply Hall3; eauto.
Qed.

(** C3, as the code has it.  The element struct of an array is rendered by
    one of two routines.

    [_format_array_struct_content] renders it for an array that is a column
    or a field of a struct.  The candidate fields are merged by field name
    into one dictionary, a later source replacing an earlier one of the same
    name: the entry of a name comes from [nested_arrays] when a nested array
    bears it, else from the element fields (whose path is a descriptor),
    else from the [nestedFields] descriptor.  The body lists the names by
    ascending key, one line each: [-1] for the [nestedFields] entry, which
    therefore comes first when it is kept, and the original order of the
    underlying path for the others.

    [_format_nested_array_content] renders it for an array met in the
    element of another array.  Its sources are the [nestedFields] descriptor
    of the first descriptor at the array's path, the element fields found by
    scanning the index, and the element fields recorded for the path.  The
    body has one line per name and no name twice: the [nestedFields] name
    first, with the line of that descriptor; then the scanned names other
    than it, in the order of the scan, each rendered from the descriptor the
    scan kept for it; then recorded names found in neither, each rendered
    from a recorded descriptor, and every recorded name whose path is a
    descriptor has its line somewhere.  A name that several sources bear is
    thus rendered from the first of them. *)
Theorem array_fields_merge_and_order :
  forall (content : string -> nat -> result string) (self : generator),
    (forall (array_path : string) (indent_level : nat)
            (all_fields : Dict.t field_info),
        _collect_array_fields self array_path = Ok all_fields ->
        (forall p, (0 <= order_of self p)%Z) ->
        let nested := Dict.get_list array_path (nested_arrays self) in
        let names := sort_by (field_key all_fields) (Dict.keys all_fields) in
        (forall np, In np nested ->
           exists np',
             In np' nested /\ last_segment np' = last_segment np
             /\ Dict.get (last_segment np) all_fields
                = Some (NestedArrayInfo (order_of self np') np'))
        /\ (forall m f e,
               Dict.get array_path (array_element_fields self) = Some m ->
               In (f, e) m -> Dict.mem e (path_data self) = true ->
               ~ In f (map last_segment nested) ->
               exists e',
                 In (f, e') m
                 /\ Dict.get f all_fields
                    = Some (RegularInfo (order_of self e') e'))
        /\ (forall it nf,
               Dict.get array_path (path_data self) = Some it ->
               usable_nested_fields it = Some (NFDict nf) ->
               ~ In (nested_field_name nf) (map last_segment nested) ->
               (forall m e,
                   Dict.get array_path (array_element_fields self) = Some m ->
                   In (nested_field_name nf, e) m ->
                   Dict.mem e (path_data self) = false) ->
               Dict.get (nested_field_name nf) all_fields
               = Some (NestedFieldInfo (-1)%Z nf))
        /\ StronglySorted
             (fun a b => (field_key all_fields a <= field_key all_fields b)%Z)
             names
        /\ Permutation (Dict.keys all_fields) names
        /\ (forall n o nf,
               Dict.get n all_fields = Some (NestedFieldInfo o nf) ->
               first names = n)
        /\ _format_array_struct_content content self array_path indent_level
           = (lines <- map_result
                         (array_field_line content self indent_level all_fields)
                         names ;;
              Ok (join ("," ++ nl) lines)))
    /\ (forall (nested_array_path : string) (indent_level : nat)
               (body : string),
           _format_nested_array_content self nested_array_path indent_level
           = Ok body ->
           let indent := spaces (indent_level * 4) in
           let scanned := scanned_element_fields self nested_array_path in
           let recorded := recorded_element_fields self nested_array_path in
           exists first_names first_lines scanned_lines recorded_names
                  recorded_lines,
             let scanned_names :=
               filter (fun n => negb (mem_string n first_names))
                 (Dict.keys scanned) in
             body
             = join ("," ++ nl) (first_lines ++ scanned_lines ++ recorded_lines)
             /\ NoDup (first_names ++ scanned_names ++ recorded_names)
             /\ (forall d nf n,
                    find_definition (input_data self) nested_array_path
                    = Ok (Some d) ->
                    usable_nested_fields d = Some (NFDict nf) ->
                    nf_name nf = Some n ->
                    first_names = [n]
                    /\ first_lines = [nested_array_field_line indent n nf])
             /\ Forall2
                  (fun name line =>
                     exists d nf,
                       find_definition (input_data self) nested_array_path
                       = Ok (Some d)
                       /\ usable_nested_fields d = Some (NFDict nf)
                       /\ nf_name nf = Some name
                       /\ line = nested_array_field_line indent name nf)
                  first_names first_lines
             /\ Forall2
                  (fun name line =>
                     exists path,
                       Dict.get name scanned = Some path
                       /\ element_line self indent name path line)
                  scanned_names scanned_lines
             /\ Forall2
                  (fun name line =>
                     exists path,
                       In (name, path) recorded
                       /\ element_line self indent name path line)
                  recorded_names recorded_lines
             /\ (forall name path,
                    In (name, path) recorded ->
                    Dict.mem path (path_data self) = true ->
                    In name (first_names ++ scanned_names ++ recorded_names))).
Proof.
  intros content self. split.
  - intros array_path indent_level all_fields Hc Hord.
    exact (array_struct_fields_merged content self array_path indent_level
             all_fields Hc Hord).
  - intros np indent_level body H.
    exact (nested_array_body_by_source self np indent_level body H).
Qed.

(** ** Two calls on the same list *)




















End Generator.

(** * The statements above on concrete input

    The collaborators are [spec_ddl_types] and [spec_property_description];
    scenario 1 is read with [quoted_description]. *)



(** A group tagged RENAME is dropped without any error. *)
Lemma unrecognized_operation_no_error :
  fst (SQLColumnGenerator_generate_sql spec_ddl_types spec_property_description
         {| scg_input_data :=
              [{| operation := "RENAME"; columns := ColumnPaths ["a"] |}] |})
  = Ok [].
Proof. reflexivity. Qed.

Lemma unrecognized_operation_is_skipped_witness :
  group_statements spec_ddl_types spec_property_description
    {| operation := "RENAME"; columns := ColumnPaths ["a"] |} = Ok []
  /\ fst (SQLColumnGenerator_generate_sql spec_ddl_types
            spec_property_description
            {| scg_input_data :=
                 ([add_group [descriptor "a" "string"]]
                    ++ {| operation := "RENAME"; columns := ColumnPaths ["a"] |}
                    :: [])%list |})
     = fst (SQLColumnGenerator_generate_sql spec_ddl_types
              spec_property_description
              {| scg_input_data :=
                   ([add_group [descriptor "a" "string"]] ++ [])%list |}).
Proof.
  apply (unrecognized_operation_is_skipped spec_ddl_types
           spec_property_description). reflexivity.
Defined.

(** A REPLACE entry whose target is [kind] gives no statement and no error. *)
Lemma replace_unknown_target_no_error :
  fst (SQLColumnGenerator_generate_sql spec_ddl_types spec_property_description
         {| scg_input_data :=
              [{| operation := "REPLACE";
                  columns :=
                    ColumnDicts
                      [column_entry "a" None (Some "kind") (Some "x")] |}] |})
  = Ok [].
Proof. reflexivity. Qed.

Lemma replace_statement_per_recognized_entry_witness :
  exists stmts,
    group_statements spec_ddl_types spec_property_description
      {| operation := "REPLACE";
         columns :=
           ColumnDicts [column_entry "a" None (Some "type") (Some "string");
                        column_entry "b" None (Some "kind") None] |}
    = Ok stmts
    /\ List.length stmts = 1.
Proof.
  destruct (replace_statement_per_recognized_entry spec_ddl_types
              spec_property_description
              [column_entry "a" None (Some "type") (Some "string");
               column_entry "b" None (Some "kind") None])
    as [stmts [E [Hlen _]]].
  - apply Forall_cons; [split; [discriminate | intros _; discriminate]|].
    apply Forall_cons; [|apply Forall_nil].
    split; [discriminate | intros H; vm_compute in H; discriminate H].
  - exists stmts. split; [exact E | exact Hlen].
Defined.

(** A REORDER entry that names its sibling under [moveafter] only raises. *)
Lemma reorder_sibling_in_moveafter_raises :
  fst (SQLColumnGenerator_generate_sql spec_ddl_types spec_property_description
         {| scg_input_data :=
              [{| operation := "REORDER";
                  columns :=
                    ColumnDicts [column_entry "a" (Some "b") None None] |}] |})
  = Raise (KeyError "value").
Proof. reflexivity. Qed.

Lemma reorder_statement_cases_witness :
  reorder_statement (column_entry "a" (Some "first") None None)
  = Ok "ALTER TABLE {table_name} ALTER COLUMN `a` FIRST"
  /\ reorder_statement (column_entry "a" (Some "b") None (Some "c.d"))
     = Ok "ALTER TABLE {table_name} ALTER COLUMN `a` AFTER `c`.`d`".
Proof.
  split.
  - apply (reorder_statement_cases spec_ddl_types spec_property_description
             (column_entry "a" (Some "first") None None) "a" eq_refl).
    reflexivity.
  - destruct (reorder_statement_cases spec_ddl_types spec_property_description
                (column_entry "a" (Some "b") None (Some "c.d")) "a" eq_refl)
      as (_ & H & _).
    apply (H ltac:(discriminate) "c.d" eq_refl).
Defined.

Lemma none_literal_nested_fields_is_absent_witness :
  let it := with_nested_fields (descriptor "tags" "array") (NFStr "None") in
  let self := set_path_data (new_generator [it]) [("tags", it)] in
  _format_dotted_array spec_ddl_types spec_property_description self "tags"
    "`tags`" it "" ""
  = Ok ("    `tags` array<string> COMMENT '' ", self).
Proof.
  intros it self.
  destruct (none_literal_nested_fields_is_absent spec_ddl_types
              spec_property_description self it "tags"
              eq_refl eq_refl eq_refl eq_refl) as (_ & _ & _ & H & _).
  apply (H "`tags`" "" "").
Defined.

(** A descriptor without a kind under a primitive column: the generation
    succeeds and the descriptor is left out. *)
Lemma missing_kind_goes_unnoticed :
  returned (generate_sql spec_ddl_types spec_property_description
              (new_generator [descriptor "a" "string"; path_only "a.b"]))
  = Ok ("ALTER TABLE {table_name} " ++ nl ++ "    ADD COLUMNS (" ++ nl
          ++ "    `a` STRING COMMENT '' " ++ nl ++ "    )").
Proof. reflexivity. Qed.


(** Three inputs.  The name [requirements] is both an element field of
    [checks] and a nested array of it: the entry kept is the one of the
    nested array, the later source.  The name [id] is both the
    [nestedFields] descriptor of [arr] and an element field of it: the entry
    kept is the one of the element field.  In the nested array
    [arr.element.n] the lines come as the scan of the index meets their
    names, [s], [t] and [s.x]; they are rendered from the descriptors of
    original order 4, 3 and 2. *)
Lemma later_source_kept_and_nested_order :
  (let self :=
     indexed_state
       [descriptor "checks" "array";
        descriptor "checks.element.name" "string";
        descriptor "checks.element.requirements" "array";
        descriptor "checks.element.requirements.element.ruleValue" "int"] in
   Dict.get "checks" (array_element_fields self)
   = Some [("name", "checks.element.name");
           ("requirements", "checks.element.requirements")]
   /\ Dict.get_list "checks" (nested_arrays self)
      = ["checks.element.requirements"]
   /\ _collect_array_fields self "checks"
      = Ok [("name", RegularInfo 1 "checks.element.name");
            ("requirements",
             NestedArrayInfo 2 "checks.element.requirements")])
  /\ _collect_array_fields
       (indexed_state
          [with_nested_fields (descriptor "arr" "array")
             (NFDict {| nf_name := Some "id"; nf_type := Some "int";
                        nf_doc := None |});
           descriptor "arr.element.a" "string";
           descriptor "arr.element.id" "string"]) "arr"
     = Ok [("id", RegularInfo 2 "arr.element.id");
           ("a", RegularInfo 1 "arr.element.a")]
  /\ (let self :=
        indexed_state
          [descriptor "arr" "array"; descriptor "arr.element.n" "array";
           descriptor "arr.element.n.element.s.x" "string";
           descriptor "arr.element.n.element.t" "string";
           descriptor "arr.element.n.element.s" "object"] in
      _format_nested_array_content spec_ddl_types spec_property_description
        self "arr.element.n" 4
      = Ok ("                s: object COMMENT '' ," ++ nl
              ++ "                t: STRING COMMENT '' ," ++ nl
              ++ "                s.x: STRING COMMENT '' ")
      /\ scanned_element_fields self "arr.element.n"
         = [("s", "arr.element.n.element.s"); ("t", "arr.element.n.element.t")]
      /\ recorded_element_fields self "arr.element.n"
         = [("s.x", "arr.element.n.element.s.x");
            ("t", "arr.element.n.element.t");
            ("s", "arr.element.n.element.s")]
      /\ map (order_of self)
           ["arr.element.n.element.s"; "arr.element.n.element.t";
            "arr.element.n.element.s.x"]
         = [4; 3; 2]%Z).
Proof.
  split; [split; [|split]|split; [|split; [|split; [|split]]]];
    vm_compute; reflexivity.
Qed.

(** The name [id] is both the [nestedFields] descriptor of [arr] and an
    element field of it: the element field is kept, and it is rendered after
    [a], by its original order. *)
Example element_field_replaces_nested_fields :
  returned
    (generate_sql spec_ddl_types spec_property_description
       (new_generator
          [with_nested_fields (descriptor "arr" "array")
             (NFDict {| nf_name := Some "id"; nf_type := Some "int";
                        nf_doc := None |});
           descriptor "arr.element.a" "string";
           descriptor "arr.element.id" "string"]))
  = Ok ("ALTER TABLE {table_name} " ++ nl ++ "    ADD COLUMNS (" ++ nl
          ++ "    `arr` array<struct<" ++ nl
          ++ "            a: STRING COMMENT '' ," ++ nl
          ++ "            id: STRING COMMENT '' " ++ nl
          ++ "    >> COMMENT '' " ++ nl ++ "    )").
Proof. reflexivity. Qed.

Lemma array_fields_merge_and_order_witness :
  let self :=
    indexed_state
      [with_nested_fields (descriptor "arr" "array")
         (NFDict {| nf_name := Some "id"; nf_type := Some "int";
                    nf_doc := None |});
       descriptor "arr.element.b" "string";
       with_nested_fields (descriptor "arr.element.n" "array")
         (NFDict {| nf_name := Some "f"; nf_type := Some "integer";
                    nf_doc := Some "from nestedFields" |});
       descriptor "arr.element.n.element.f" "string"] in
  (exists all_fields,
      _collect_array_fields self "arr" = Ok all_fields
      /\ first (sort_by (field_key all_fields) (Dict.keys all_fields)) = "id")
  /\ (exists first_names first_lines scanned_lines recorded_names
             recorded_lines,
         _format_nested_array_content spec_ddl_types spec_property_description
           self "arr.element.n" 4
         = Ok (join ("," ++ nl)
                 (first_lines ++ scanned_lines ++ recorded_lines))
         /\ first_names = ["f"]
         /\ first_lines
            = ["                f: integer COMMENT 'from nestedFields' "]
         /\ NoDup
              (first_names
                 ++ filter (fun n => negb (mem_string n first_names))
                      (Dict.keys (scanned_element_fields self "arr.element.n"))
                 ++ recorded_names)).
Proof.
  intros self.
  destruct (array_fields_merge_and_order spec_ddl_types
              spec_property_description (fun _ _ => Ok "") self) as [H1 H2].
  split.
  - eexists. split; [reflexivity|].
    eapply (H1 "arr" 3 _ eq_refl (order_of_indexed_nonneg _)). reflexivity.
  - destruct (H2 "arr.element.n" 4 _ eq_refl)
      as (fn & fl & sl & rn & rl & Hb & Hnd & Hfirst & _).
    destruct (Hfirst _ _ "f" eq_refl eq_refl eq_refl) as [E1 E2].
    exists fn, fl, sl, rn, rl.
    split; [now rewrite <- Hb|]. split; [exact E1|].
    split; [exact E2 | exact Hnd].
Defined.



(** A struct inside an array element that comes before its own child is
    rendered from the child: [array_element_fields] keeps, for a field
    name, the last path that starts with it. *)
Example struct_in_array_element_rendered_from_child :
  returned
    (generate_sql spec_ddl_types spec_property_description
       (new_generator
          [descriptor "arr" "array"; descriptor "arr.element.s" "object";
           descriptor "arr.element.s.f" "string"]))
  = Ok ("ALTER TABLE {table_name} " ++ nl ++ "    ADD COLUMNS (" ++ nl
          ++ "    `arr` array<struct<" ++ nl
          ++ "            s: STRING COMMENT '' " ++ nl
          ++ "    >> COMMENT '' " ++ nl ++ "    )").
Proof. vm_compute. reflexivity. Qed.


(** An [OrderPreservingGenerator] keeps its processed set between calls: a
    second [generate_sql] on the same object finds every path processed.
    [SQLColumnGenerator.generate_sql] builds a new one at each call. *)
Example generator_object_is_stateful :
  match generate_sql spec_ddl_types spec_property_description
          (new_generator [descriptor "a" "string"]) with
  | Ok (_, self) =>
      returned (generate_sql spec_ddl_types spec_property_description self)
  | Raise e => Raise e
  end
  = Ok ("ALTER TABLE {table_name} " ++ nl ++ "    ADD COLUMNS ()").
Proof. vm_compute. reflexivity. Qed.

(** * Sanity checks of the string methods *)

Example split_dots : PyStr.split "." "a.b.c" = ["a"; "b"; "c"].
Proof. reflexivity. Qed.

Example split_trailing : PyStr.split "." "a." = ["a"; ""].
Proof. reflexivity. Qed.

Example split_element :
  PyStr.split ".element." "x.element.y.element.z" = ["x"; "y"; "z"].
Proof. reflexivity. Qed.

Example split_element_overlap :
  PyStr.split ".element." "x.element.element.y" = ["x"; "element.y"].
Proof. reflexivity. Qed.

Example split1_first_only :
  PyStr.split1 ".element." "x.element.y.element.z" = ["x"; "y.element.z"].
Proof. reflexivity. Qed.

Example count_element : PyStr.count ".element." "x.element.y.element.z" = 2.
Proof. reflexivity. Qed.

(** * The further statements on concrete input *)

Lemma handler_child_iff_processed_ancestor_witness :
  PathHandler.is_child_of_processed_path PathHandler.new_handler "a" = false.
Proof.
  exact (proj2 (handler_child_iff_processed_ancestor PathHandler.new_handler "a")
           eq_refl).
Defined.

(** Two descriptors of the same path: the index keeps the second, at the
    place of the first. *)
Lemma index_holds_last_descriptor_witness :
  let items := [descriptor "a" "string"; descriptor "b" "string";
                descriptor "a" "int"] in
  exists self,
    _preprocess_input (new_generator items) = Ok self
    /\ Dict.get "a" (path_data self) = Some (descriptor "a" "int").
Proof.
  intros items.
  assert (E : exists self, _preprocess_input (new_generator items) = Ok self)
    by (vm_compute; eexists; reflexivity).
  destruct E as [self E]. exists self. split; [exact E|].
  destruct (index_holds_last_descriptor spec_ddl_types spec_property_description
              items self E) as (_ & _ & H).
  apply (H [descriptor "a" "string"; descriptor "b" "string"]
           (descriptor "a" "int") [] "a");
    [reflexivity | reflexivity | intros it' []].
Defined.

Lemma original_order_is_last_position_witness :
  let items := [descriptor "a" "string"; descriptor "b" "string";
                descriptor "a" "int"] in
  exists self,
    _preprocess_input (new_generator items) = Ok self
    /\ order_of self "a" = 2%Z.
Proof.
  intros items.
  assert (E : exists self, _preprocess_input (new_generator items) = Ok self)
    by (vm_compute; eexists; reflexivity).
  destruct E as [self E]. exists self. split; [exact E|].
  destruct (original_order_is_last_position items self E) as (H & _).
  apply (H [descriptor "a" "string"; descriptor "b" "string"]
           (descriptor "a" "int") [] "a");
    [reflexivity | reflexivity | intros it' []].
Defined.

Lemma top_level_items_first_of_each_segment_witness :
  let items := [descriptor "a.b" "string"; descriptor "a" "object";
                descriptor "c" "string"] in
  exists self,
    _preprocess_input (new_generator items) = Ok self
    /\ NoDup (map top_segment (top_level_items self)).
Proof.
  intros items.
  assert (E : exists self, _preprocess_input (new_generator items) = Ok self)
    by (vm_compute; eexists; reflexivity).
  destruct E as [self E]. exists self. split; [exact E|].
  apply (top_level_items_first_of_each_segment items self E).
Defined.

Lemma generate_sql_succeeds_on_well_formed_input_witness :
  let items := [descriptor "x.y" "string"; descriptor "x" "object"] in
  exists emitted self,
    traced_definitions_of spec_ddl_types spec_property_description
      (new_generator items) = Ok (emitted, self)
    /\ input_data self = items.
Proof.
  intros items.
  destruct (generate_sql_succeeds_on_well_formed_input spec_ddl_types
              spec_property_description items eq_refl)
    as (emitted & self & E & _ & H & _).
  exists emitted, self. split; [exact E | exact H].
Defined.

Lemma no_path_rendered_twice_witness :
  let items := [descriptor "a.c" "string"; descriptor "a.b" "int"] in
  exists emitted self,
    traced_definitions_of spec_ddl_types spec_property_description
      (new_generator items) = Ok (emitted, self)
    /\ List.length emitted <= 2.
Proof.
  intros items.
  destruct (no_path_rendered_twice spec_ddl_types spec_property_description
              items eq_refl)
    as (emitted & self & E & _ & H).
  - repeat constructor; simpl; intuition discriminate.
  - exists emitted, self. split; [exact E | exact H].
Defined.

(** The same path twice, below a name that has no descriptor of its own:
    the second descriptor is rendered again. *)
Example duplicate_path_rendered_twice :
  returned
    (generate_sql spec_ddl_types spec_property_description
       (new_generator
          [descriptor "a.c" "string"; descriptor "a.b" "int";
           descriptor "a.b" "int"]))
  = Ok ("ALTER TABLE {table_name} " ++ nl ++ "    ADD COLUMNS (" ++ nl
          ++ "    `a`.`c` STRING COMMENT '' ," ++ nl
          ++ "    `a`.`b` int COMMENT '' ," ++ nl
          ++ "    `a`.`b` int COMMENT '' " ++ nl ++ "    )").
Proof. vm_compute. reflexivity. Qed.

Lemma flat_add_statement_witness :
  let items :=
    [descriptor "b" "string"; descriptor "a" "object";
     with_nested_fields (descriptor "c" "array")
       (NFDict {| nf_name := Some "id"; nf_type := Some "string";
                  nf_doc := None |})] in
  returned (generate_sql spec_ddl_types spec_property_description
              (new_generator items))
  = Ok (add_columns_statement
          (map (flat_column_definition spec_ddl_types spec_property_description)
             items)).
Proof.
  intros items.
  apply (flat_add_statement spec_ddl_types spec_property_description items).
  - reflexivity.
  - reflexivity.
  - reflexivity.
  - repeat constructor; simpl; intuition discriminate.
Defined.

Lemma ordered_children_are_the_direct_children_witness :
  NoDup
    (_get_ordered_children
       (indexed_state
          [descriptor "a" "object"; descriptor "a.b.c" "string";
           descriptor "a.b" "object"]) "a").
Proof.
  apply (ordered_children_are_the_direct_children spec_ddl_types
           spec_property_description).
  vm_compute. constructor; [intros [] | constructor].
Defined.

(** A child met first through its own child is returned twice by
    [_get_direct_children], and once by [_get_ordered_children]. *)
Example direct_children_may_repeat :
  let self :=
    indexed_state
      [descriptor "a" "object"; descriptor "a.b.c" "string";
       descriptor "a.b" "object"] in
  _get_direct_children self "a" = ["a.b"; "a.b"]
  /\ _get_ordered_children self "a" = ["a.b"].
Proof. split; vm_compute; reflexivity. Qed.

Lemma direct_children_of_a_struct_witness :
  In "x.y"
    (_get_direct_children
       (indexed_state [descriptor "x" "object"; descriptor "x.y" "string"]) "x").
Proof.
  apply (proj2 (direct_children_of_a_struct spec_ddl_types
                  spec_property_description
                  (indexed_state
                     [descriptor "x" "object"; descriptor "x.y" "string"]) "x")
           "y").
  - discriminate.
  - reflexivity.
  - vm_compute. right. left. reflexivity.
  - reflexivity.
Defined.


Lemma split_element_path_round_trip_witness :
  "a.element.b.element.c"
  = fst (_split_element_path "a.element.b.element.c") ++ ".element."
      ++ snd (_split_element_path "a.element.b.element.c").
Proof.
  apply (split_element_path_round_trip "a.element.b.element.c" eq_refl).
Defined.

Lemma field_order_lists_every_segment_witness :
  let items := [descriptor "a.b.c" "string"] in
  exists self,
    _preprocess_input (new_generator items) = Ok self
    /\ listed (field_order self) "a.b" "c".
Proof.
  intros items.
  assert (E : exists self, _preprocess_input (new_generator items) = Ok self)
    by (vm_compute; eexists; reflexivity).
  destruct E as [self E]. exists self. split; [exact E|].
  destruct (field_order_lists_every_segment spec_ddl_types
              spec_property_description items self E) as (_ & H & _).
  apply (H (descriptor "a.b.c" "string") "a.b" "c");
    [left; reflexivity | reflexivity].
Defined.

Lemma element_fields_list_every_element_path_witness :
  let items := [descriptor "arr.element.f" "string"] in
  exists self,
    _preprocess_input (new_generator items) = Ok self
    /\ listed (element_fields self) "arr" "f".
Proof.
  intros items.
  assert (E : exists self, _preprocess_input (new_generator items) = Ok self)
    by (vm_compute; eexists; reflexivity).
  destruct E as [self E]. exists self. split; [exact E|].
  destruct (element_fields_list_every_element_path spec_ddl_types
              spec_property_description items self E) as (H & _).
  apply (H (descriptor "arr.element.f" "string") "arr.element.f");
    [left; reflexivity | reflexivity | reflexivity].
Defined.

Lemma array_elements_are_indexed_descendants_witness :
  let self :=
    set_path_data (new_generator [])
      [("arr.element.f", descriptor "arr.element.f" "string")] in
  Dict.mem "arr" (array_element_fields (_process_array_elements self)) = true.
Proof.
  intros self.
  destruct (array_elements_are_indexed_descendants spec_ddl_types
              spec_property_description self) as (_ & _ & H).
  apply (H "arr.element.f"); [left; reflexivity | reflexivity].
Defined.

(** An array whose only element paths go through a nested array has an
    empty element field map of its own, and is rendered as a plain
    array. *)
Example array_with_deep_elements_only :
  let items :=
    [descriptor "a" "array"; descriptor "a.element.b.element.c" "string"] in
  array_element_fields (indexed_state items)
  = [("a", []); ("a.element.b", [("c", "a.element.b.element.c")])]
  /\ returned (generate_sql spec_ddl_types spec_property_description
                 (new_generator items))
     = Ok ("ALTER TABLE {table_name} " ++ nl ++ "    ADD COLUMNS (" ++ nl
             ++ "    `a` array<string> COMMENT '' " ++ nl ++ "    )").
Proof. split; vm_compute; reflexivity. Qed.

Lemma struct_rendering_terminates_witness :
  let items := [descriptor "x" "object"; descriptor "x.y" "string"] in
  exists body,
    forall depth,
      stack_depth (indexed_state items) <= depth ->
      _format_struct_content spec_ddl_types spec_property_description depth
        (indexed_state items) "x" 2 = Ok body.
Proof.
  intros items.
  apply (struct_rendering_terminates spec_ddl_types spec_property_description
           items "x" 2 eq_refl).
Defined.

Lemma dotted_path_left_to_its_ancestor_witness :
  let self := add_processed (new_generator []) "a" in
  _format_dotted_path spec_ddl_types spec_property_description self
    (path_only "a.b")
  = Ok (None, self).
Proof.
  intros self.
  apply (proj1 (dotted_path_left_to_its_ancestor spec_ddl_types
                  spec_property_description self (path_only "a.b") "a" "b"
                  eq_refl)).
  reflexivity.
Defined.

Lemma search_finds_first_descriptor_witness :
  find_definition
    ([descriptor "b" "string"] ++ descriptor "a" "string"
       :: [descriptor "a" "int"])%list "a"
  = Ok (Some (descriptor "a" "string")).
Proof.
  apply (proj1 (search_finds_first_descriptor spec_ddl_types
                  spec_property_description [descriptor "b" "string"]
                  [descriptor "a" "int"] (descriptor "a" "string") "a" eq_refl)).
  intros x [Hx|[]]. subst x. exists "b". split; [reflexivity | discriminate].
Defined.


Lemma mark_array_elements_exact_witness :
  _mark_array_elements_processed (new_generator []) "a" = new_generator [].
Proof.
  apply (proj1 (proj2 (mark_array_elements_exact spec_ddl_types
                         spec_property_description (new_generator []) "a"))).
  reflexivity.
Defined.
